(** * Go-ytb-comments: the comment-fetching pipeline of [main.go]

    A shallow embedding of [getVideoId] and [getComments] and of the parts of
    the Go libraries they drive ([net/url], [os], [bufio], [context],
    [golang.org/x/time/rate], [github.com/cenkalti/backoff/v4]), followed by
    the properties of the pipeline.

    Conventions.
    - Go values of type [error] are [option error] ([None] is [nil]).
    - [time.Time] and [time.Duration] are integers counting nanoseconds.
    - Everything outside the process (the remote API, the file system's
      refusals) is a field of [Env]; everything the run of one call of
      [getComments] cannot fix by itself (the scheduler, the delays drawn by
      the backoff policy) is a field of [Oracle]. *)

From Stdlib Require Import ZArith String Ascii List Lia Bool.
From stdpp Require Import base option list strings gmap.

Local Open Scope Z_scope.

(** ** Strings as Go's [strings] package sees them: sequences of bytes *)

Module strings.

Definition byte (c : ascii) : N := N_of_ascii c.

(** [strings.Cut(s, sep)] for a one-byte separator. *)
Fixpoint Cut (s : string) (sep : ascii) : string * string * bool :=
  match s with
  | EmptyString => (EmptyString, EmptyString, false)
  | String c s' =>
      if Ascii.eqb c sep then (EmptyString, s', true)
      else let '(before, after, found) := Cut s' sep in
           (String c before, after, found)
  end.

(** [strings.Contains(s, string(c))]. *)
Fixpoint ContainsByte (s : string) (c : ascii) : bool :=
  match s with
  | EmptyString => false
  | String d s' => Ascii.eqb d c || ContainsByte s' c
  end.

(** [strings.Count(s, string(c))]. *)
Fixpoint Count (s : string) (c : ascii) : nat :=
  match s with
  | EmptyString => O
  | String d s' => ((if Ascii.eqb d c then 1 else 0) + Count s' c)%nat
  end.

Definition HasPrefix (s p : string) : bool := String.prefix p s.

Fixpoint HasSuffixByte (s : string) (c : ascii) : bool :=
  match s with
  | EmptyString => false
  | String d EmptyString => Ascii.eqb d c
  | String _ s' => HasSuffixByte s' c
  end.

(** [s[:len(s)-1]]. *)
Fixpoint DropLast (s : string) : string :=
  match s with
  | EmptyString => EmptyString
  | String _ EmptyString => EmptyString
  | String d s' => String d (DropLast s')
  end.

(** The pieces of [s] between occurrences of [sep], in order. *)
Fixpoint Split (s : string) (sep : ascii) : list string :=
  match s with
  | EmptyString => [EmptyString]
  | String c s' =>
      match Split s' sep with
      | [] => [String c EmptyString]
      | p :: ps => if Ascii.eqb c sep then EmptyString :: p :: ps
                   else String c p :: ps
      end
  end.

(** [s[i+1:]] and [s[:i]] for [i = strings.LastIndex(s, string(c))]. *)
Fixpoint CutLast (s : string) (c : ascii) : option (string * string) :=
  match s with
  | EmptyString => None
  | String d s' =>
      match CutLast s' c with
      | Some (before, after) => Some (String d before, after)
      | None => if Ascii.eqb d c then Some (EmptyString, s') else None
      end
  end.

Fixpoint All (p : ascii -> bool) (s : string) : bool :=
  match s with
  | EmptyString => true
  | String c s' => p c && All p s'
  end.

Definition ToLowerByte (c : ascii) : ascii :=
  if ((65 <=? byte c) && (byte c <=? 90))%N
  then ascii_of_N (byte c + 32) else c.

Fixpoint ToLower (s : string) : string :=
  match s with
  | EmptyString => EmptyString
  | String c s' => String (ToLowerByte c) (ToLower s')
  end.

End strings.

(** ** Errors *)

(** An operand of a formatting call: a string ([%s], [%q]) or an integer
    ([%d]). *)
Inductive operand : Type :=
| str (s : string)
| int (n : Z).

#[global] Instance operand_eq_dec : EqDecision operand.
Proof. solve_decision. Defined.

(** A Go [error] value, as far as the program and the libraries below build
    one.  [fmt.Errorf] keeps its format string and operands apart instead of
    rendering them: [fmt_Errorf f ops] has no [%w] verb, [fmt_Errorf_w f ops e]
    wraps [e] with its (last) [%w] verb. *)
Inductive error : Type :=
| errors_New (text : string)
| fmt_Errorf (format : string) (operands : list operand)
| fmt_Errorf_w (format : string) (operands : list operand) (wrapped : error)
| url_Error (Op URL : string) (Err : error)
| url_EscapeError (s : string)
| url_InvalidHostError (s : string).

#[global] Instance error_eq_dec : EqDecision error.
Proof. solve_decision. Defined.

(** The constants of [main.go]. *)
Definition youtubeApiServiceName : string := "youtube".
Definition youtubeApiVersion : string := "v3".
Definition defaultCommentsFileName : string := "comments".
Definition invalidInputMsg : string := "Invalid input. Please enter a positive integer.".
Definition invalidURLMsg : string := "Invalid YouTube URL".
Definition errorAPICallMsg : string := "Error during API search call: %v".
Definition errorWritingFileMsg : string := "Error writing to file: %v".

(** ** [net/url]: [Parse], [URL.Query] and [Values.Get]

    [Parse] follows the library's [Parse]/[parse] through the split of the
    locator into scheme, authority, path, query and fragment, with the checks
    of [getScheme], [parseAuthority], [parseHost], [setPath] and
    [setFragment].  Not modelled: IPv6 zone identifiers (a host in brackets
    is checked as a whole in host mode), and the [RawPath]/[RawFragment]
    hints, which nothing here reads. *)
Module url.

Import strings.

Inductive encoding : Type :=
| encodePath | encodePathSegment | encodeHost | encodeZone
| encodeUserPassword | encodeQueryComponent | encodeFragment.

Record URL : Type := mkURL {
  Scheme : string;
  Opaque : string;
  User : option (string * option string);
  Host : string;
  Path : string;
  OmitHost : bool;
  ForceQuery : bool;
  RawQuery : string;
  Fragment : string
}.

Definition isalpha (c : ascii) : bool :=
  ((97 <=? byte c) && (byte c <=? 122) || (65 <=? byte c) && (byte c <=? 90))%N.
Definition isdigit (c : ascii) : bool := ((48 <=? byte c) && (byte c <=? 57))%N.

Definition ishex (c : ascii) : bool :=
  (isdigit c || (97 <=? byte c) && (byte c <=? 102)
             || (65 <=? byte c) && (byte c <=? 70))%N.

Definition unhex (c : ascii) : N :=
  (if isdigit c then byte c - 48
   else if (97 <=? byte c) && (byte c <=? 102) then byte c - 97 + 10
   else if (65 <=? byte c) && (byte c <=? 70) then byte c - 65 + 10
   else 0)%N.

Definition mem (c : ascii) (s : string) : bool := ContainsByte s c.

(** [shouldEscape(c, encodeHost)]: which bytes may not stand in a host. *)
Definition shouldEscapeHost (c : ascii) : bool :=
  if isalpha c || isdigit c then false
  else if mem c "!$&'()*+,;=:[]<>" || Ascii.eqb c (ascii_of_N 34) then false
  else if mem c "-_.~" then false
  else true.

(** [stringContainsCTLByte]. *)
Definition isCTL (c : ascii) : bool := ((byte c <? 32) || (byte c =? 127))%N.
Definition stringContainsCTLByte (s : string) : bool := negb (All (fun c => negb (isCTL c)) s).

(** [unescape(s, mode)] for the modes [Parse] and [Query] use: the check of
    the escapes and the decoding, in one pass. *)
Fixpoint unescape (s : string) (mode : encoding) : error + string :=
  match s with
  | EmptyString => inr EmptyString
  | String c rest =>
      if Ascii.eqb c "%" then
        match rest with
        | String a (String b rest') =>
            if ishex a && ishex b then
              if match mode with encodeHost => true | _ => false end
                 && (unhex a <? 8)%N
                 && negb (Ascii.eqb a "2" && Ascii.eqb b "5")
              then inl (url_EscapeError (String c (String a (String b EmptyString))))
              else
                match unescape rest' mode with
                | inl e => inl e
                | inr t => inr (String (ascii_of_N (unhex a * 16 + unhex b)) t)
                end
            else inl (url_EscapeError (String c (String a (String b EmptyString))))
        | _ => inl (url_EscapeError s)
        end
      else if match mode with encodeHost | encodeZone => true | _ => false end
              && (byte c <? 128)%N && shouldEscapeHost c
      then inl (url_InvalidHostError (String c EmptyString))
      else
        match unescape rest mode with
        | inl e => inl e
        | inr t =>
            inr (String (if Ascii.eqb c "+" &&
                            match mode with encodeQueryComponent => true | _ => false end
                         then " "%char else c) t)
        end
  end.

(** [getScheme]: the loop over the bytes of [rawURL]; [i0] says whether the
    byte at hand is the first one. *)
Fixpoint getScheme_from (i0 : bool) (rawURL rest : string) (seen : string)
  : error + (string * string) :=
  match rest with
  | EmptyString => inr (EmptyString, rawURL)
  | String c rest' =>
      if isalpha c then getScheme_from false rawURL rest' (seen +:+ String c EmptyString)
      else if isdigit c || mem c "+-." then
        if i0 then inr (EmptyString, rawURL)
        else getScheme_from false rawURL rest' (seen +:+ String c EmptyString)
      else if Ascii.eqb c ":" then
        if i0 then inl (errors_New "missing protocol scheme")
        else inr (seen, rest')
      else inr (EmptyString, rawURL)
  end.

Definition getScheme (rawURL : string) : error + (string * string) :=
  getScheme_from true rawURL rawURL EmptyString.

Definition validOptionalPort (port : string) : bool :=
  match port with
  | EmptyString => true
  | String c digits => Ascii.eqb c ":" && All isdigit digits
  end.

Definition validUserinfo (s : string) : bool :=
  All (fun r => isalpha r || isdigit r || mem r "-._:~!$&'()*+,;=%@") s.

Definition parseHost (host : string) : error + string :=
  let port_ok :=
    if HasPrefix host "[" then
      match CutLast host "]" with
      | None => inl (errors_New "missing ']' in host")
      | Some (_, colonPort) =>
          if validOptionalPort colonPort then inr tt
          else inl (fmt_Errorf "invalid port %q after host" [str colonPort])
      end
    else
      match CutLast host ":" with
      | Some (_, port) =>
          if validOptionalPort (String ":" port) then inr tt
          else inl (fmt_Errorf "invalid port %q after host" [str (String ":" port)])
      | None => inr tt
      end in
  match port_ok with
  | inl e => inl e
  | inr _ => unescape host encodeHost
  end.

Definition parseAuthority (authority : string)
  : error + (option (string * option string) * string) :=
  match CutLast authority "@" with
  | None =>
      match parseHost authority with
      | inl e => inl e
      | inr host => inr (None, host)
      end
  | Some (userinfo, hostpart) =>
      match parseHost hostpart with
      | inl e => inl e
      | inr host =>
          if negb (validUserinfo userinfo) then inl (errors_New "net/url: invalid userinfo")
          else if negb (ContainsByte userinfo ":") then
            match unescape userinfo encodeUserPassword with
            | inl e => inl e
            | inr u => inr (Some (u, None), host)
            end
          else
            let '(username, password, _) := Cut userinfo ":" in
            match unescape username encodeUserPassword with
            | inl e => inl e
            | inr u =>
                match unescape password encodeUserPassword with
                | inl e => inl e
                | inr p => inr (Some (u, Some p), host)
                end
            end
      end
  end.

(** [parse(rawURL, false)]. *)
Definition parse (rawURL : string) : error + URL :=
  if stringContainsCTLByte rawURL
  then inl (errors_New "net/url: invalid control character in URL")
  else if String.eqb rawURL "*"
  then inr (mkURL "" "" None "" "*" false false "" "")
  else
    match getScheme rawURL with
    | inl e => inl e
    | inr (scheme0, rest0) =>
        let scheme := ToLower scheme0 in
        let '(rest, rawQuery, forceQuery) :=
          if HasSuffixByte rest0 "?" && (Count rest0 "?" =? 1)%nat
          then (DropLast rest0, EmptyString, true)
          else let '(r, q, _) := Cut rest0 "?" in (r, q, false) in
        if negb (HasPrefix rest "/") && negb (String.eqb scheme "")
        then inr (mkURL scheme rest None "" "" false forceQuery rawQuery "")
        else if negb (HasPrefix rest "/")
                && (let '(segment, _, _) := Cut rest "/" in ContainsByte segment ":")
        then inl (errors_New "first path segment in URL cannot contain colon")
        else
          let authority_rest :=
            if (negb (String.eqb scheme "") || negb (HasPrefix rest "///"))
               && HasPrefix rest "//"
            then
              let auth0 := String.substring 2 (String.length rest - 2) rest in
              let '(authority, after, found) := Cut auth0 "/" in
              Some (authority, if found then String "/" after else EmptyString)
            else None in
          match authority_rest with
          | Some (authority, rest') =>
              match parseAuthority authority with
              | inl e => inl e
              | inr (user, host) =>
                  match unescape rest' encodePath with
                  | inl e => inl e
                  | inr path => inr (mkURL scheme "" user host path false forceQuery rawQuery "")
                  end
              end
          | None =>
              let omitHost := negb (String.eqb scheme "") && HasPrefix rest "/" in
              match unescape rest encodePath with
              | inl e => inl e
              | inr path => inr (mkURL scheme "" None "" path omitHost forceQuery rawQuery "")
              end
          end
    end.

Definition setFragment (u : URL) (f : string) : error + URL :=
  match unescape f encodeFragment with
  | inl e => inl e
  | inr frag =>
      inr (mkURL (Scheme u) (Opaque u) (User u) (Host u) (Path u)
                 (OmitHost u) (ForceQuery u) (RawQuery u) frag)
  end.

(** [url.Parse]. *)
Definition Parse (rawURL : string) : error + URL :=
  let '(u, frag, _) := Cut rawURL "#" in
  match parse u with
  | inl err => inl (url_Error "parse" u err)
  | inr url =>
      if String.eqb frag "" then inr url
      else match setFragment url frag with
           | inl err => inl (url_Error "parse" rawURL err)
           | inr url' => inr url'
           end
  end.

(** [url.Values]: [map[string][]string]. *)
Abbreviation Values := (gmap string (list string)).

Definition QueryUnescape (s : string) : error + string := unescape s encodeQueryComponent.

(** One turn of the loop of [parseQuery], on the piece [key] cut off at the
    next ampersand. *)
Definition parseQuery_piece (m : Values) (key : string) : Values :=
  if ContainsByte key ";" then m
  else if String.eqb key "" then m
  else
    let '(key, value, _) := Cut key "=" in
    match QueryUnescape key with
    | inl _ => m
    | inr key =>
        match QueryUnescape value with
        | inl _ => m
        | inr value => <[key := (default [] (m !! key) ++ [value])%list]> m
        end
    end.

(** [v, _ := ParseQuery(query)]: the error is dropped by [Query]. *)
Definition ParseQuery (query : string) : Values :=
  fold_left parseQuery_piece (Split query "&") ∅.

(** [u.Query()]. *)
Definition Query (u : URL) : Values := ParseQuery (RawQuery u).

(** [v.Get(key)]. *)
Definition Get (v : Values) (key : string) : string :=
  match v !! key with
  | Some (first :: _) => first
  | _ => EmptyString
  end.

End url.

(** ** [fmt]: the [%s] verb *)

(** [fmt.Sprintf(format, args...)] for formats whose only verb is [%s]. *)
Fixpoint Sprintf (format : string) (args : list string) : string :=
  match format with
  | EmptyString => EmptyString
  | String c rest =>
      if Ascii.eqb c "%" then
        match rest with
        | String v rest' =>
            if Ascii.eqb v "s" then
              match args with
              | a :: args' => a +:+ Sprintf rest' args'
              | [] => "%!s(MISSING)" +:+ Sprintf rest' []
              end
            else String c (Sprintf rest args)
        | EmptyString => "%!(NOVERB)"
        end
      else String c (Sprintf rest args)
  end.

(** The line feed of ["...\n"]. *)
Definition LF : string := String "010" EmptyString.

(** ** The world outside the process *)

(** [google.golang.org/api/youtube/v3], as far as [operation] reads it.  The
    pointers of a response ([item.Snippet], [TopLevelComment], its
    [Snippet]) are taken to be set, as the service sets them for the part
    [snippet]. *)
Module youtube.

(** [&http.Client{Transport: &transport.APIKey{Key: developerKey}}]. *)
Record Client : Type := { Transport_APIKey_Key : string }.

Record Service : Type := { client : Client }.

Record CommentSnippet : Type := {
  AuthorDisplayName : string;
  TextDisplay : string
}.
Record Comment : Type := { Comment_Snippet : CommentSnippet }.
Record CommentThreadSnippet : Type := { TopLevelComment : Comment }.
Record CommentThread : Type := { Snippet : CommentThreadSnippet }.
Record CommentThreadListResponse : Type := { Items : list CommentThread }.

(** [service.CommentThreads.List(part).VideoId(videoId).MaxResults(n)]. *)
Record CommentThreadsListCall : Type := {
  s : Service;
  part : list string;
  videoId_ : string;
  maxResults_ : Z
}.

Definition CommentThreads_List (svc : Service) (part : list string) : CommentThreadsListCall :=
  {| s := svc; part := part; videoId_ := ""; maxResults_ := 0 |}.
Definition VideoId (c : CommentThreadsListCall) (videoId : string) : CommentThreadsListCall :=
  {| s := s c; part := part c; videoId_ := videoId; maxResults_ := maxResults_ c |}.
Definition MaxResults (c : CommentThreadsListCall) (maxResults : Z) : CommentThreadsListCall :=
  {| s := s c; part := part c; videoId_ := videoId_ c; maxResults_ := maxResults |}.

(** A thread with the two fields the program reads. *)
Definition thread (author text : string) : CommentThread :=
  {| Snippet := {| TopLevelComment := {| Comment_Snippet :=
       {| AuthorDisplayName := author; TextDisplay := text |} |} |} |}.

End youtube.

(** What the program's surroundings answer.
    - [url_Parse]: [net/url.Parse] of the Go release the program is built
      with ([url.Parse] above is the instance used in the scenarios);
    - [youtube_New]: [youtube.New(client)];
    - [Do]: the remote comment-listing call [call.Do()]; its second argument
      is the number of remote calls the run has issued before this one, so the
      answer may change from call to call;
    - [open_refused name]: the error with which the system refuses to open
      [name] (permissions, a directory in the way), if it does;
    - [write_refused name content p]: the error with which it refuses to
      write [p] to [name] holding [content] (a full disk), if it does. *)
Record Env : Type := {
  url_Parse : string -> error + url.URL;
  youtube_New : youtube.Client -> error + youtube.Service;
  Do : youtube.CommentThreadsListCall -> nat -> error + youtube.CommentThreadListResponse;
  open_refused : string -> option error;
  write_refused : string -> string -> string -> option error
}.

(** The file system: the content of every regular file, by name. *)
Abbreviation FS := (gmap string string).

(** ** [os]: [OpenFile], [File.Write] *)
Module os.

Definition O_RDONLY : Z := 0.
Definition O_WRONLY : Z := 1.
Definition O_RDWR : Z := 2.
Definition O_CREATE : Z := 64.
Definition O_EXCL : Z := 128.
Definition O_TRUNC : Z := 512.
Definition O_APPEND : Z := 1024.

Definition has (flag bit : Z) : bool := negb (Z.land flag bit =? 0).

Record File : Type := { name : string; flag : Z; offset : nat }.

Definition ErrNotExist : error := errors_New "no such file or directory".
Definition ErrExist : error := errors_New "file exists".
Definition ErrBadDescriptor : error := errors_New "bad file descriptor".

(** [os.OpenFile(name, flag, perm)] on regular files. *)
Definition OpenFile (E : Env) (fs : FS) (name : string) (flag perm : Z)
  : (error + File) * FS :=
  let file := {| name := name; flag := flag; offset := 0 |} in
  match open_refused E name with
  | Some e => (inl (fmt_Errorf_w "open %s: %w" [str name] e), fs)
  | None =>
      match fs !! name with
      | None =>
          if has flag O_CREATE then (inr file, <[name := ""]> fs)
          else (inl (fmt_Errorf_w "open %s: %w" [str name] ErrNotExist), fs)
      | Some _ =>
          if has flag O_CREATE && has flag O_EXCL
          then (inl (fmt_Errorf_w "open %s: %w" [str name] ErrExist), fs)
          else if has flag O_TRUNC then (inr file, <[name := ""]> fs)
          else (inr file, fs)
      end
  end.

Definition take (n : nat) (p : string) : string := String.substring 0 n p.
Definition drop (n : nat) (p : string) : string :=
  String.substring n (String.length p - n) p.

(** [content] with [p] written at byte [off]. *)
Definition pwrite (content : string) (off : nat) (p : string) : string :=
  take off content +:+ p +:+ drop (off + String.length p) content.

(** [f.Write(p)]: all of [p] or nothing; in append mode at the end of the
    file, else at the file's offset. *)
Definition File_Write (E : Env) (fs : FS) (f : File) (p : string)
  : nat * option error * File * FS :=
  if negb (has (flag f) O_WRONLY || has (flag f) O_RDWR)
  then (O, Some (fmt_Errorf_w "write %s: %w" [str (name f)] ErrBadDescriptor), f, fs)
  else
    let content := default "" (fs !! name f) in
    match write_refused E (name f) content p with
    | Some e => (O, Some (fmt_Errorf_w "write %s: %w" [str (name f)] e), f, fs)
    | None =>
        if has (flag f) O_APPEND
        then (String.length p, None, f, <[name f := content +:+ p]> fs)
        else (String.length p, None,
              {| name := name f; flag := flag f;
                 offset := (offset f + String.length p)%nat |},
              <[name f := pwrite content (offset f) p]> fs)
    end.

End os.

(** ** [bufio.Writer] *)
Module bufio.

Definition defaultBufSize : nat := 4096.

Record Writer : Type := {
  err : option error;
  buf : string;          (* buf[0:n] *)
  wr : os.File
}.

Definition NewWriter (w : os.File) : Writer := {| err := None; buf := ""; wr := w |}.

Definition Buffered (b : Writer) : nat := String.length (buf b).
Definition Available (b : Writer) : nat := (defaultBufSize - Buffered b)%nat.

(** [b.Flush()]. *)
Definition Flush (E : Env) (b : Writer) (fs : FS) : option error * Writer * FS :=
  match err b with
  | Some e => (Some e, b, fs)
  | None =>
      if (Buffered b =? 0)%nat then (None, b, fs)
      else
        let '(n, e, f, fs') := os.File_Write E fs (wr b) (buf b) in
        match e with
        | Some e => (Some e, {| err := Some e; buf := os.drop n (buf b); wr := f |}, fs')
        | None => (None, {| err := None; buf := ""; wr := f |}, fs')
        end
  end.

(** The loop of [b.Write(p)],
    [for len(p) > b.Available() && b.err == nil { ... }]; it is left after
    two turns at most (see [Write_loop_exits]). *)
Fixpoint Write_loop (turns : nat) (E : Env) (b : Writer) (p : string) (nn : nat) (fs : FS)
  : Writer * string * nat * FS :=
  match turns with
  | O => (b, p, nn, fs)
  | S turns' =>
      if (Available b <? String.length p)%nat && bool_decide (err b = None) then
        if (Buffered b =? 0)%nat then
          let '(n, e, f, fs') := os.File_Write E fs (wr b) p in
          Write_loop turns' E {| err := e; buf := buf b; wr := f |} (os.drop n p) (nn + n) fs'
        else
          let n := Available b in
          let '(_, b', fs') :=
            Flush E {| err := err b; buf := buf b +:+ os.take n p; wr := wr b |} fs in
          Write_loop turns' E b' (os.drop n p) (nn + n) fs'
      else (b, p, nn, fs)
  end.

(** [b.Write(p)]. *)
Definition Writer_Write (E : Env) (b : Writer) (p : string) (fs : FS)
  : nat * option error * Writer * FS :=
  let '(b', p', nn, fs') := Write_loop 3 E b p O fs in
  match err b' with
  | Some e => (nn, Some e, b', fs')
  | None =>
      ((nn + String.length p')%nat, None,
       {| err := None; buf := buf b' +:+ p'; wr := wr b' |}, fs')
  end.

(** [fmt.Fprintf(b, format, args...)] with [%s] verbs. *)
Definition Fprintf (E : Env) (b : Writer) (fs : FS) (format : string) (args : list string)
  : nat * option error * Writer * FS :=
  Writer_Write E b (Sprintf format args) fs.

End bufio.

(** ** The state a run acts on *)

(** What a run does that the properties speak about: a permit handed to a
    task by the limiter, and a remote call issued by a task. *)
Inductive Event : Type :=
| EvPermit (task : nat)
| EvCall (task : nat) (videoId : string).

(** - [files]: the file system;
    - [console]: the calls of [color.Red(format, err)], oldest first;
    - [trace]: the events so far, newest first;
    - [now]: the wall clock. *)
Record World : Type := {
  files : FS;
  console : list (string * error);
  trace : list Event;
  now : Z
}.

Definition set_files (w : World) (fs : FS) : World :=
  {| files := fs; console := console w; trace := trace w; now := now w |}.
Definition color_Red (format : string) (e : error) (w : World) : World :=
  {| files := files w; console := console w ++ [(format, e)]; trace := trace w; now := now w |}.
Definition record (ev : Event) (w : World) : World :=
  {| files := files w; console := console w; trace := ev :: trace w; now := now w |}.
Definition set_now (w : World) (t : Z) : World :=
  {| files := files w; console := console w; trace := trace w; now := t |}.

Definition is_call (ev : Event) : bool :=
  match ev with EvCall _ _ => true | _ => false end.

(** The number of remote calls issued so far. *)
Definition calls (w : World) : nat := length (filter (fun ev => is_call ev = true) (trace w)).

(** ** [main.go] *)

(** [getVideoId]. *)
Definition getVideoId (E : Env) (videoUrl : string) : string * option error :=
  match url_Parse E videoUrl with
  | inl err => ("", Some (fmt_Errorf_w "failed to parse URL: %w" [] err))
  | inr u => (url.Get (url.Query u) "v", None)
  end.

(** The loop over [response.Items] in [operation]. *)
Fixpoint write_items (E : Env) (writer : bufio.Writer) (items : list youtube.CommentThread)
    (fs : FS) : option error * bufio.Writer * FS :=
  match items with
  | [] => (None, writer, fs)
  | item :: items' =>
      let comment := youtube.TopLevelComment (youtube.Snippet item) in
      let '(_, err, writer', fs') :=
        bufio.Fprintf E writer fs ("Comment from %s: %s" +:+ LF)
          [youtube.AuthorDisplayName (youtube.Comment_Snippet comment);
           youtube.TextDisplay (youtube.Comment_Snippet comment)] in
      match err with
      | Some err => (Some (fmt_Errorf_w "%s: %w" [str errorWritingFileMsg] err), writer', fs')
      | None => write_items E writer' items' fs'
      end
  end.

(** [defer file.Close()] and [defer writer.Flush()], run in reverse order
    when [operation] returns; both results are dropped. *)
Definition deferred (E : Env) (writer : bufio.Writer) (fs : FS) : FS :=
  let '(_, _, fs') := bufio.Flush E writer fs in fs'.

(** The closure [operation] of the goroutine of [getComments] started for
    [videoUrl]; [task] is the goroutine's index, used for the trace only. *)
Definition operation (E : Env) (task : nat) (videoUrl : string) (maxComments : Z)
    (developerKey : string) (w : World) : option error * World :=
  let client := {| youtube.Transport_APIKey_Key := developerKey |} in
  match youtube_New E client with
  | inl err => (Some (fmt_Errorf_w "error creating new YouTube client: %w" [] err), w)
  | inr service =>
      match getVideoId E videoUrl with
      | (_, Some err) => (Some (fmt_Errorf_w "%s: %w" [str invalidURLMsg] err), w)
      | (videoId, None) =>
          let filename := Sprintf "%s_%s.txt" [defaultCommentsFileName; videoId] in
          match os.OpenFile E (files w) filename
                  (Z.lor (Z.lor os.O_APPEND os.O_CREATE) os.O_WRONLY) 420 (* 0644 *) with
          | (inl err, _) => (Some (fmt_Errorf_w "%s: %w" [str errorWritingFileMsg] err), w)
          | (inr file, fs) =>
              let writer := bufio.NewWriter file in
              let call :=
                youtube.MaxResults
                  (youtube.VideoId (youtube.CommentThreads_List service ["snippet"]) videoId)
                  maxComments in
              let response := Do E call (calls w) in
              let w := record (EvCall task videoId) (set_files w fs) in
              match response with
              | inl err =>
                  (Some (fmt_Errorf_w "%s: %w" [str errorAPICallMsg] err),
                   set_files w (deferred E writer (files w)))
              | inr response =>
                  let '(err, writer, fs) :=
                    write_items E writer (youtube.Items response) (files w) in
                  (err, set_files w (deferred E writer fs))
              end
          end
      end
  end.

(** ** [backoff.Retry] *)
Module backoff.

(** The policy handed to [Retry], resolved for one run: the delays its
    [NextBackOff] returns one after the other, and [Stop] once they are
    used up.  [NewExponentialBackOff] draws each delay from the clock and a
    random source; its [MaxElapsedTime] of 15 minutes stops every run after
    finitely many.  [operation] of [main.go] never returns a
    [backoff.Permanent] error, and the policy carries no context, so the two
    early exits of [Retry] for these are left out. *)
Abbreviation BackOff := (list Z).

(** One turn of the loop of [Retry]: the operation is invoked; [inl] is the
    value [Retry] returns, [inr] the policy left and the delay to sleep
    before the next turn. *)
Definition Retry_turn {S : Type} (operation : S -> option error * S) (b : BackOff)
    (st : S) : (option error + BackOff * Z) * S :=
  match operation st with
  | (None, st') => (inl None, st')
  | (Some err, st') =>
      match b with
      | [] => (inl (Some err), st')
      | next :: b' => (inr (b', next), st')
      end
  end.

(** [backoff.Retry(operation, b)]; [sleep] is the timer between two turns. *)
Fixpoint Retry {S : Type} (sleep : Z -> S -> S) (operation : S -> option error * S)
    (b : BackOff) (st : S) : option error * S :=
  match operation st with
  | (None, st') => (None, st')
  | (Some err, st') =>
      match b with
      | [] => (Some err, st')
      | next :: b' => Retry sleep operation b' (sleep next st')
      end
  end.

End backoff.

(** ** [time] and [context] *)
Module time.
Definition Nanosecond : Z := 1.
Definition Millisecond : Z := 1000000.
Definition Second : Z := 1000000000.
End time.

Module context.

(** A context as [Wait] sees it: the deadline it carries, if any, and the
    instant at which its owner cancels it, if ever. *)
Record Context : Type := {
  Deadline : option Z;
  cancelled_at : option Z
}.

Definition Background : Context := {| Deadline := None; cancelled_at := None |}.
Definition WithDeadline (parent : Context) (d : Z) : Context :=
  {| Deadline := Some (match Deadline parent with Some d' => Z.min d d' | None => d end);
     cancelled_at := cancelled_at parent |}.
Definition WithCancelAt (parent : Context) (t : Z) : Context :=
  {| Deadline := Deadline parent;
     cancelled_at := Some (match cancelled_at parent with Some t' => Z.min t t' | None => t end) |}.

Definition Canceled : error := errors_New "context canceled".
Definition DeadlineExceeded : error := errors_New "context deadline exceeded".

(** The instant at which [ctx.Done()] is closed. *)
Definition done_at (ctx : Context) : option Z :=
  match cancelled_at ctx, Deadline ctx with
  | Some c, Some d => Some (Z.min c d)
  | Some c, None => Some c
  | None, Some d => Some d
  | None, None => None
  end.

(** [ctx.Err()] read at instant [t]. *)
Definition Err (ctx : Context) (t : Z) : option error :=
  match cancelled_at ctx, Deadline ctx with
  | Some c, Some d =>
      if c <=? d then (if c <=? t then Some Canceled else None)
      else (if d <=? t then Some DeadlineExceeded else None)
  | Some c, None => if c <=? t then Some Canceled else None
  | None, Some d => if d <=? t then Some DeadlineExceeded else None
  | None, None => None
  end.

End context.

(** ** [golang.org/x/time/rate]: the token bucket

    The library counts tokens in [float64]; here the count is exact and kept
    in nanoseconds of credit: a limiter of one token per [interval] holding
    [tokens l] has [tokens l / interval] tokens. *)
Module rate.

Inductive Limit : Type :=
| Inf
| PerInterval (interval : Z).

(** [rate.Every(interval)]. *)
Definition Every (interval : Z) : Limit :=
  if interval <=? 0 then Inf else PerInterval interval.

Record Limiter : Type := {
  limit : Limit;
  burst : Z;
  tokens : Z;
  last : Z;
  lastEvent : Z
}.

Definition interval_of (r : Limit) : Z :=
  match r with Inf => 0 | PerInterval i => i end.

(** [rate.NewLimiter(r, b)]: the bucket starts full. *)
Definition NewLimiter (r : Limit) (b : Z) : Limiter :=
  {| limit := r; burst := b; tokens := b * interval_of r; last := 0; lastEvent := 0 |}.

Record Reservation : Type := {
  ok : bool;
  r_tokens : Z;
  timeToAct : Z;
  r_limit : Limit
}.

(** [lim.advance(t)]: the count at [t], refilled for the time passed since
    [last] and cut at the burst. *)
Definition advance (lim : Limiter) (t : Z) : Z * Z :=
  let last := if t <? last lim then t else last lim in
  let elapsed := t - last in
  let tokens := tokens lim + elapsed in
  (t, Z.min tokens (burst lim * interval_of (limit lim))).

(** [lim.reserveN(t, n, maxFutureReserve)]; [None] is [InfDuration]. *)
Definition reserveN (lim : Limiter) (t : Z) (n : Z) (maxFutureReserve : option Z)
  : Reservation * Limiter :=
  match limit lim with
  | Inf => ({| ok := true; r_tokens := n; timeToAct := t; r_limit := Inf |}, lim)
  | PerInterval interval =>
      let '(t, tokens) := advance lim t in
      let tokens := tokens - n * interval in
      let waitDuration := if tokens <? 0 then - tokens else 0 in
      let ok := (n <=? burst lim) &&
                match maxFutureReserve with
                | Some m => waitDuration <=? m
                | None => true
                end in
      if ok then
        ({| ok := true; r_tokens := n; timeToAct := t + waitDuration; r_limit := limit lim |},
         {| limit := limit lim; burst := burst lim; tokens := tokens;
            last := t; lastEvent := t + waitDuration |})
      else ({| ok := false; r_tokens := 0; timeToAct := 0; r_limit := limit lim |}, lim)
  end.

(** [r.CancelAt(t)]: the tokens of a reservation not yet acted on go back
    to the bucket, less those reserved after it. *)
Definition CancelAt (lim : Limiter) (r : Reservation) (t : Z) : Limiter :=
  if negb (ok r) then lim
  else
    match limit lim with
    | Inf => lim
    | PerInterval interval =>
        if (r_tokens r =? 0) || (timeToAct r <? t) then lim
        else
          let restoreTokens :=
            r_tokens r * interval_of (r_limit r) - (lastEvent lim - timeToAct r) in
          if restoreTokens <=? 0 then lim
          else
            let '(t, tokens) := advance lim t in
            let tokens := Z.min (tokens + restoreTokens) (burst lim * interval) in
            let prevEvent := timeToAct r - r_tokens r * interval_of (r_limit r) in
            {| limit := limit lim; burst := burst lim; tokens := tokens; last := t;
               lastEvent := if (timeToAct r =? lastEvent lim) && negb (prevEvent <? t)
                            then prevEvent else lastEvent lim |}
    end.

(** Where [lim.Wait(ctx)] stands after its first half: it has returned, or
    it sleeps on the timer of its reservation. *)
Inductive Waiting : Type :=
| Returned (err : option error)
| Blocked (r : Reservation).

(** [lim.Wait(ctx)], that is [lim.WaitN(ctx, 1)], entered at instant [t], up
    to the [select] on the timer. *)
Definition Wait_enter (lim : Limiter) (ctx : context.Context) (t : Z) : Waiting * Limiter :=
  let n := 1 in
  if (burst lim <? n) && negb (match limit lim with Inf => true | _ => false end)
  then (Returned (Some (fmt_Errorf "rate: Wait(n=%d) exceeds limiter's burst %d"
                          [int n; int (burst lim)])), lim)
  else
    match context.Err ctx t with
    | Some e => (Returned (Some e), lim)
    | None =>
        let waitLimit :=
          match context.Deadline ctx with
          | Some deadline => Some (deadline - t)
          | None => None
          end in
        let '(r, lim') := reserveN lim t n waitLimit in
        if negb (ok r)
        then (Returned (Some (fmt_Errorf "rate: Wait(n=%d) would exceed context deadline" [int n])),
              lim')
        else if timeToAct r - t <=? 0 then (Returned None, lim')
        else (Blocked r, lim')
    end.

(** The [select] of [Wait], left at instant [t], which is not before either
    the timer of [r] or the context fires; [coin] settles the draw when
    both have. *)
Definition Wait_leave (lim : Limiter) (ctx : context.Context) (r : Reservation)
    (t : Z) (coin : bool) : option error * Limiter :=
  let timer := timeToAct r <=? t in
  let done := match context.done_at ctx with Some c => c <=? t | None => false end in
  if done && (negb timer || coin)
  then (context.Err ctx t, CancelAt lim r t)
  else (None, lim).

(** The earliest instant at which the [select] of [Wait] can be left. *)
Definition wakes_at (ctx : context.Context) (r : Reservation) : Z :=
  match context.done_at ctx with
  | Some c => Z.min c (timeToAct r)
  | None => timeToAct r
  end.

End rate.

(** ** The goroutines of [getComments] *)

(** Where the goroutine of one [videoUrl] stands. *)
Inductive PC : Type :=
| Pending                          (* started, before [limiter.Wait] *)
| InWait (r : rate.Reservation)    (* inside [limiter.Wait], on the timer *)
| Retrying (wake : Z)              (* inside [backoff.Retry], next turn due at [wake] *)
| Finished (outcome : option error).   (* ended ([wg.Done()] has run), with this result *)

Record Task : Type := {
  videoUrl : string;
  policy : backoff.BackOff;
  pc : PC
}.

(** One decision of the scheduler: which of the unfinished goroutines runs
    next ([pick], counted among the unfinished ones, modulo their number), the
    instant it runs at, and the draw of a [select] with two ready cases. *)
Record Choice : Type := { pick : nat; at_ : Z; coin : bool }.

(** What one call of [getComments] leaves open. *)
Record Oracle : Type := {
  sched : nat -> Choice;
  delays : nat -> backoff.BackOff
}.

Record Config : Type := {
  world : World;
  limiter : rate.Limiter;
  tasks : list Task
}.

Definition finish (tk : Task) (outcome : option error) : Task :=
  {| videoUrl := videoUrl tk; policy := policy tk; pc := Finished outcome |}.
Definition goto (tk : Task) (b : backoff.BackOff) (p : PC) : Task :=
  {| videoUrl := videoUrl tk; policy := b; pc := p |}.

(** The goroutine [i] runs until it next blocks or ends.  An attempt (one
    call of [operation]) is one step: attempts of goroutines with different
    sinks act on different files, and the finer interleavings of two attempts
    on one and the same sink are not told apart. *)
Definition step_task (E : Env) (ctx : context.Context) (maxComments : Z)
    (developerKey : string) (i : nat) (c : Choice) (tk : Task) (w : World)
    (lim : rate.Limiter) : Task * World * rate.Limiter :=
  match pc tk with
  | Pending =>
      let t := Z.max (now w) (at_ c) in
      let w := set_now w t in
      match rate.Wait_enter lim ctx t with
      | (rate.Returned (Some err), lim') =>
          (finish tk (Some err), color_Red "Rate limit error: %v" err w, lim')
      | (rate.Returned None, lim') =>
          (goto tk (policy tk) (Retrying t), record (EvPermit i) w, lim')
      | (rate.Blocked r, lim') => (goto tk (policy tk) (InWait r), w, lim')
      end
  | InWait r =>
      let t := Z.max (Z.max (now w) (at_ c)) (rate.wakes_at ctx r) in
      let w := set_now w t in
      match rate.Wait_leave lim ctx r t (coin c) with
      | (Some err, lim') =>
          (finish tk (Some err), color_Red "Rate limit error: %v" err w, lim')
      | (None, lim') => (goto tk (policy tk) (Retrying t), record (EvPermit i) w, lim')
      end
  | Retrying wake =>
      let t := Z.max (Z.max (now w) (at_ c)) wake in
      let w := set_now w t in
      match backoff.Retry_turn (operation E i (videoUrl tk) maxComments developerKey)
              (policy tk) w with
      | (inl None, w') => (finish tk None, w', lim)
      | (inl (Some err), w') =>
          (finish tk (Some err), color_Red "Failed to retrieve comments: %v" err w', lim)
      | (inr (b', next), w') => (goto tk b' (Retrying (now w' + next)), w', lim)
      end
  | Finished _ => (tk, w, lim)
  end.

Definition is_finished (tk : Task) : bool :=
  match pc tk with Finished _ => true | _ => false end.

(** The indices of the goroutines that have not ended, from [i] on. *)
Fixpoint unfinished_from (i : nat) (ts : list Task) : list nat :=
  match ts with
  | [] => []
  | tk :: ts' =>
      if is_finished tk then unfinished_from (S i) ts'
      else i :: unfinished_from (S i) ts'
  end.

Definition unfinished (ts : list Task) : list nat := unfinished_from 0 ts.

(** One step of the run: the scheduler's choice among the unfinished
    goroutines takes its step; nothing moves once all have ended. *)
Definition step (E : Env) (ctx : context.Context) (maxComments : Z) (developerKey : string)
    (c : Choice) (cfg : Config) : Config :=
  let u := unfinished (tasks cfg) in
  match u !! (pick c mod length u)%nat with
  | None => cfg
  | Some i =>
      match tasks cfg !! i with
      | None => cfg
      | Some tk =>
          let '(tk', w', lim') :=
            step_task E ctx maxComments developerKey i c tk (world cfg) (limiter cfg) in
          {| world := w'; limiter := lim'; tasks := <[i := tk']> (tasks cfg) |}
      end
  end.

(** [n] steps, the scheduler's choices read from its [k]-th on. *)
Fixpoint run (E : Env) (ctx : context.Context) (maxComments : Z) (developerKey : string)
    (sch : nat -> Choice) (k n : nat) (cfg : Config) : Config :=
  match n with
  | O => cfg
  | S n' =>
      run E ctx maxComments developerKey sch (S k) n'
        (step E ctx maxComments developerKey (sch k) cfg)
  end.

(** The steps a goroutine can still take, at most. *)
Definition steps_left (tk : Task) : nat :=
  match pc tk with
  | Pending => 3 + length (policy tk)
  | InWait _ => 2 + length (policy tk)
  | Retrying _ => 1 + length (policy tk)
  | Finished _ => 0
  end.

Definition total_steps_left (ts : list Task) : nat := sum_list (steps_left <$> ts).

(** [go func(videoUrl string) {...}(videoUrl)] for every element of [videoUrls]. *)
Definition spawn (O : Oracle) (videoUrls : list string) : list Task :=
  imap (fun i url => {| videoUrl := url; policy := delays O i; pc := Pending |}) videoUrls.

(** The configuration [getComments] starts from: a fresh limiter of one
    token per second and burst one, and one goroutine per locator. *)
Definition start (O : Oracle) (videoUrls : list string) (w : World) : Config :=
  {| world := w;
     limiter := rate.NewLimiter (rate.Every time.Second) 1;
     tasks := spawn O videoUrls |}.

(** The configuration in which [wg.Wait()] returns (see
    [getComments_returns]: every goroutine has ended by then). *)
Definition getComments_end (E : Env) (O : Oracle) (ctx : context.Context)
    (videoUrls : list string) (maxComments : Z) (developerKey : string) (w : World) : Config :=
  let cfg := start O videoUrls w in
  run E ctx maxComments developerKey (sched O) 0 (total_steps_left (tasks cfg)) cfg.

(** [getComments(ctx, videoUrls, maxComments, developerKey)]. *)
Definition getComments (E : Env) (O : Oracle) (ctx : context.Context)
    (videoUrls : list string) (maxComments : Z) (developerKey : string) (w : World) : World :=
  world (getComments_end E O ctx videoUrls maxComments developerKey w).

(** ** The notions the properties are stated with *)

(** The timer of [backoff.Retry] between two turns, on the world's clock. *)
Definition sleep (d : Z) (w : World) : World := set_now w (now w + d).

(** The retry loop of the goroutine started for [videoUrl], run on its own:
    [backoff.Retry(operation, backoff.NewExponentialBackOff())]. *)
Definition retry_loop (E : Env) (task : nat) (videoUrl : string) (maxComments : Z)
    (developerKey : string) (b : backoff.BackOff) (w : World) : option error * World :=
  backoff.Retry sleep (operation E task videoUrl maxComments developerKey) b w.

(** The call [operation] issues for a video. *)
Definition call_for (service : youtube.Service) (videoId : string) (maxComments : Z)
  : youtube.CommentThreadsListCall :=
  youtube.MaxResults
    (youtube.VideoId (youtube.CommentThreads_List service ["snippet"]) videoId) maxComments.

(** The sink of a video: [comments_<videoId>.txt]. *)
Definition sink (videoId : string) : string :=
  Sprintf "%s_%s.txt" [defaultCommentsFileName; videoId].

(** The line written for one comment thread, and the lines for a response. *)
Definition line (item : youtube.CommentThread) : string :=
  let comment := youtube.Comment_Snippet (youtube.TopLevelComment (youtube.Snippet item)) in
  Sprintf ("Comment from %s: %s" +:+ LF)
    [youtube.AuthorDisplayName comment; youtube.TextDisplay comment].

Definition lines (items : list youtube.CommentThread) : string :=
  fold_right (fun item rest => line item +:+ rest) "" items.

(** The content of [name], the empty string if there is no such file. *)
Definition content (fs : FS) (name : string) : string := default "" (fs !! name).

(** The goroutine an event belongs to. *)
Definition task_of (ev : Event) : nat :=
  match ev with EvPermit i => i | EvCall i _ => i end.

(** The events of goroutine [i] in a world, oldest first. *)
Definition events_of (i : nat) (w : World) : list Event :=
  reverse (filter (fun ev => task_of ev = i) (trace w)).

(** Read as the glossary has it, a permit authorizes one outbound call: the
    events of a goroutine, oldest first, are covered when every call finds a
    permit acquired before it and not used up by an earlier call; [avail]
    counts the permits at hand. *)
Fixpoint permits_cover (avail : nat) (h : list Event) : bool :=
  match h with
  | [] => true
  | EvPermit _ :: h' => permits_cover (S avail) h'
  | EvCall _ _ :: h' =>
      match avail with
      | O => false
      | S avail' => permits_cover avail' h'
      end
  end.

(** What the goroutines do instead: nothing, or one permit and then calls
    only. *)
Definition permit_then_calls (h : list Event) : bool :=
  match h with
  | [] => true
  | EvPermit _ :: h' => forallb is_call h'
  | EvCall _ _ :: _ => false
  end.

(** An operation that counts its invocations, and the timer beside it. *)
Definition counted {S : Type} (operation : S -> option error * S)
  : nat * S -> option error * (nat * S) :=
  fun '(n, st) => let '(r, st') := operation st in (r, (Datatypes.S n, st')).

Definition counted_sleep {S : Type} (sleep : Z -> S -> S) : Z -> nat * S -> nat * S :=
  fun d '(n, st) => (n, sleep d st).

(** The [i]-th invocation (from 0) that [Retry] makes of [operation] when all
    before it have failed: its result and the state it leaves. *)
Fixpoint attempt {S : Type} (sleep : Z -> S -> S) (operation : S -> option error * S)
    (b : backoff.BackOff) (st : S) (i : nat) : option error * S :=
  match i, b with
  | Datatypes.S i', next :: b' => attempt sleep operation b' (sleep next (snd (operation st))) i'
  | _, _ => operation st
  end.

(** [fs'] is [fs], but for bytes added at the end of [name]. *)
Definition appends_to (name : string) (fs fs' : FS) : Prop :=
  fs' = fs \/ exists extra, fs' = <[name := content fs name +:+ extra]> fs.

(** Nothing that [fs] holds is lost or overwritten in [fs']. *)
Definition extends (fs fs' : FS) : Prop :=
  forall name c, fs !! name = Some c -> exists extra, fs' !! name = Some (c +:+ extra).

(** The file is open for appending. *)
Definition appendable (f : os.File) : Prop :=
  os.has (os.flag f) os.O_APPEND = true /\ os.has (os.flag f) os.O_WRONLY = true.

(** The flags [operation] opens the sink with. *)
Definition sink_flag : Z := Z.lor (Z.lor os.O_APPEND os.O_CREATE) os.O_WRONLY.

(** Writes to [name] are never refused. *)
Definition writes_ok (E : Env) (name : string) : Prop :=
  forall content p, write_refused E name content p = None.

(** [youtube.New] accepts the client built from [developerKey]. *)
Definition client_ok (E : Env) (developerKey : string) : Prop :=
  exists service,
    youtube_New E {| youtube.Transport_APIKey_Key := developerKey |} = inr service.

(** The attempts for [videoUrl] fail before the sink is opened: the client
    is refused, the locator does not parse, or the sink cannot be opened. *)
Definition fails_before_open (E : Env) (videoUrl developerKey : string) : Prop :=
  (exists err, youtube_New E {| youtube.Transport_APIKey_Key := developerKey |} = inl err) \/
  (exists err, url_Parse E videoUrl = inl err) \/
  (exists u e, url_Parse E videoUrl = inr u /\
               open_refused E (sink (url.Get (url.Query u) "v")) = Some e).

(** The attempts for [videoUrl] get as far as opening the sink of [videoId]. *)
Definition opens_sink (E : Env) (videoUrl developerKey videoId : string) : Prop :=
  client_ok E developerKey /\
  getVideoId E videoUrl = (videoId, None) /\
  open_refused E (sink videoId) = None.

(** The context never fires and carries no deadline, as
    [context.Background()] of [main]. *)
Definition never_done (ctx : context.Context) : Prop := context.done_at ctx = None.

(** The claim on identifier extraction as the specification words it: no
    successful result carries an empty identifier. *)
Definition extraction_never_empty (E : Env) : Prop :=
  forall videoUrl videoId, getVideoId E videoUrl = (videoId, None) -> videoId <> "".

(** Two worlds that differ in the reading of the clock at most. *)
Definition same_but_clock (w1 w2 : World) : Prop :=
  files w1 = files w2 /\ console w1 = console w2 /\ trace w1 = trace w2.

(** [n] steps of the goroutine [i] with no step of another goroutine in
    between, the scheduler's choices read from its [k]-th on. *)
Fixpoint step_task_n (E : Env) (ctx : context.Context) (maxComments : Z)
    (developerKey : string) (i : nat) (sch : nat -> Choice) (k n : nat)
    (st : Task * World * rate.Limiter) : Task * World * rate.Limiter :=
  match n with
  | O => st
  | S n' =>
      let '(tk, w, lim) := st in
      step_task_n E ctx maxComments developerKey i sch (S k) n'
        (step_task E ctx maxComments developerKey i (sch k) tk w lim)
  end.

(** What the goroutine does with the result of its retry loop:
    [if err != nil { color.Red("Failed to retrieve comments: %v", err) }]. *)
Definition report (r : option error) (w : World) : World :=
  match r with
  | Some err => color_Red "Failed to retrieve comments: %v" err w
  | None => w
  end.

(** ** What the runs keep, as predicates on configurations *)

(** The limiter stays the one [getComments] made, and the goroutines stay
    those of the locators. *)
Definition static (videoUrls : list string) (cfg : Config) : Prop :=
  rate.burst (limiter cfg) = 1 /\
  rate.limit (limiter cfg) = rate.PerInterval time.Second /\
  videoUrl <$> tasks cfg = videoUrls.


(** The goroutine [i] and its sink [name], undisturbed by the others: until
    it ends the sink holds what it held, [before]; it ends without an error,
    and from then on the sink holds [after]. *)
Definition undisturbed (videoUrls : list string) (i : nat) (name before after : string)
    (cfg : Config) : Prop :=
  static videoUrls cfg /\
  exists tk, tasks cfg !! i = Some tk /\
    match pc tk with
    | Finished o => o = None /\ files (world cfg) !! name = Some after
    | _ => content (files (world cfg)) name = before
    end.

(** A list of events, newest first, that is the permit of goroutine [i] and,
    after it, calls only. *)
Definition permit_first (i : nat) (l : list Event) : Prop :=
  exists cs, l = cs ++ [EvPermit i] /\ Forall (fun ev => is_call ev = true) cs.

(** The events of goroutine [i] so far, newest first, fit where it stands:
    none before its permit; from the permit on, the permit and then calls. *)
Definition orderly (i : nat) (cfg : Config) : Prop :=
  let l := filter (fun ev => task_of ev = i) (trace (world cfg)) in
  match tasks cfg !! i with
  | None => l = []
  | Some tk =>
      match pc tk with
      | Pending | InWait _ => l = []
      | Retrying _ => permit_first i l
      | Finished _ => l = [] \/ permit_first i l
      end
  end.

(** The bucket of the limiter of [getComments] holds one token at most: one
    second of credit. *)
Definition within_capacity (cfg : Config) : Prop :=
  rate.burst (limiter cfg) = 1 /\
  rate.limit (limiter cfg) = rate.PerInterval time.Second /\
  rate.tokens (limiter cfg) <= 1 * time.Second.

(** ** The dialogue on the terminal: [strconv], [os.Stdin], [bufio.Scanner] *)

Module strconv.

Definition isdigit (c : ascii) : bool :=
  ((48 <=? strings.byte c) && (strings.byte c <=? 57))%N.

(** The value of a string of decimal digits, read after the value [acc] of
    those before it; [None] when a byte is no digit. *)
Fixpoint digits (s : string) (acc : Z) : option Z :=
  match s with
  | EmptyString => Some acc
  | String c s' =>
      if isdigit c then digits s' (acc * 10 + (Z.of_N (strings.byte c) - 48)) else None
  end.

(** [n, err := strconv.Atoi(s)] where [int] has 64 bits: an optional sign,
    then decimal digits, at least one, whose value fits.  [None] stands for an
    [err] that is not nil (a [*NumError] for a syntax or a range error):
    [main.go] tests it against nil and reads neither it nor [n] then. *)
Definition Atoi (s : string) : option Z :=
  let '(neg, body) :=
    match s with
    | String c s' =>
        if Ascii.eqb c "-" then (true, s')
        else if Ascii.eqb c "+" then (false, s')
        else (false, s)
    | EmptyString => (false, s)
    end in
  match body with
  | EmptyString => None
  | String _ _ =>
      match digits body 0 with
      | None => None
      | Some n =>
          let v := if neg then - n else n in
          if (- 2 ^ 63 <=? v) && (v <=? 2 ^ 63 - 1) then Some v else None
      end
  end.

End strconv.

Module io.
Definition EOF : error := errors_New "EOF".
End io.

(** [os.Stdin], as a reader sees it: the pieces in which its bytes arrive,
    one for each read that finds the reader's room sufficient.  On a terminal
    a piece is a line with its line feed; on a pipe it is what has been
    written by then.  An empty piece is an end of input that is not final (the
    end-of-file key of a terminal); after the last piece the input is at its
    end for good.  Read errors other than [io.EOF] are left out. *)
Module Stdin.

(** [n, err := os.Stdin.Read(p)] for [len(p) = room], which is not [0]: the
    bytes read, the error, and the input left. *)
Definition Read (input : list string) (room : N) : string * option error * list string :=
  match input with
  | [] => ("", Some io.EOF, [])
  | piece :: rest =>
      if (String.length piece =? 0)%nat then ("", Some io.EOF, rest)
      else if (N.of_nat (String.length piece) <=? room)%N then (piece, None, rest)
      else (os.take (N.to_nat room) piece, None, os.drop (N.to_nat room) piece :: rest)
  end.

End Stdin.

(** [bufio.Scanner] with the split function [ScanLines], up to its first
    token: the program makes a new scanner for every line it reads and calls
    [Scan] on it once, so [s.start] is [0] throughout. *)
Module Scanner.

Definition MaxScanTokenSize : N := 64 * 1024.
Definition startBufSize : N := 4096.
Definition ErrTooLong : error := errors_New "bufio.Scanner: token too long".

(** - [r]: the input still to be read;
    - [buf]: [s.buf[s.start:s.end]], the bytes read and not yet given out;
    - [cap]: [len(s.buf)];
    - [token]: [s.token], [None] for nil;
    - [err]: [s.err]. *)
Record Scanner : Type := {
  r : list string;
  buf : string;
  cap : N;
  token : option string;
  err : option error
}.

(** [bufio.NewScanner(os.Stdin)]. *)
Definition NewScanner (r : list string) : Scanner :=
  {| r := r; buf := ""; cap := 0; token := None; err := None |}.

(** [dropCR(data)]. *)
Definition dropCR (data : string) : string :=
  if strings.HasSuffixByte data "013" then strings.DropLast data else data.

(** [advance, token, _ := ScanLines(data, atEOF)]. *)
Definition ScanLines (data : string) (atEOF : bool) : nat * option string :=
  if atEOF && (String.length data =? 0)%nat then (O, None)
  else
    let '(line, _, found) := strings.Cut data "010" in
    if found then (S (String.length line), Some (dropCR line))
    else if atEOF then (String.length data, Some (dropCR data))
    else (O, None).

(** The size the buffer is given when it is full. *)
Definition grow (cap : N) : N :=
  N.min (if (cap * 2 =? 0)%N then startBufSize else cap * 2) MaxScanTokenSize.

(** The loop of [s.Scan()], [for { ... }], for [turns] turns at most: [None]
    when it has not returned by then.  The loop around [s.r.Read] takes one
    turn, since a read of [os.Stdin] returns bytes or an error. *)
Fixpoint Scan_loop (turns : nat) (s : Scanner) : option (bool * Scanner) :=
  match turns with
  | O => None
  | S turns' =>
      let atEOF := bool_decide (err s <> None) in
      let '(advance, tok) :=
        if (0 <? String.length (buf s))%nat || atEOF then ScanLines (buf s) atEOF
        else (O, None) in
      match tok with
      | Some t =>
          Some (true, {| r := r s; buf := os.drop advance (buf s); cap := cap s;
                         token := Some t; err := err s |})
      | None =>
          if atEOF
          then Some (false, {| r := r s; buf := ""; cap := cap s; token := None;
                               err := err s |})
          else
            let full := (N.of_nat (String.length (buf s)) =? cap s)%N in
            if full && (MaxScanTokenSize <=? cap s)%N
            then Some (false, {| r := r s; buf := buf s; cap := cap s; token := None;
                                 err := Some ErrTooLong |})
            else
              let cap' := if full then grow (cap s) else cap s in
              let '(p, e, r') :=
                Stdin.Read (r s) (cap' - N.of_nat (String.length (buf s))) in
              Scan_loop turns' {| r := r'; buf := buf s +:+ p; cap := cap'; token := None;
                                  err := e |}
      end
  end.

(** Turns enough for the loop to return (see [Scan_loop_returns]): a turn
    that does not return takes a piece off the input, fills the buffer, which
    grows in the turn after it, five times at most, or meets the end of the
    input. *)
Definition turns_for (s : Scanner) : nat := 2 * length (r s) + 13.

(** [s.Scan()]. *)
Definition Scan (s : Scanner) : bool * Scanner :=
  default (false, s) (Scan_loop (turns_for s) s).

(** [s.Text()]. *)
Definition Text (s : Scanner) : string := default "" (token s).

End Scanner.

(** The two colours [main.go] prints in. *)
Inductive Color : Type := Cyan | Red.

(** The terminal of the dialogue: the standard input, and what the dialogue
    has printed, oldest first.  The diagnostics of [getComments] are kept on
    the console of the world it acts on. *)
Record Terminal : Type := {
  stdin : list string;
  screen : list (Color * string)
}.

(** [color.Cyan(text)] and [color.Red(text)] with no operands. *)
Definition color_print (c : Color) (text : string) (tm : Terminal) : Terminal :=
  {| stdin := stdin tm; screen := screen tm ++ [(c, text)] |}.

(** [readInput]. *)
Definition readInput (tm : Terminal) : string * Terminal :=
  let scanner := Scanner.NewScanner (stdin tm) in
  let '(_, scanner) := Scanner.Scan scanner in
  (Scanner.Text scanner, {| stdin := Scanner.r scanner; screen := screen tm |}).

(** [getNumberOfComments], its loop for [turns] turns at most: [None] when
    it has not returned by then. *)
Fixpoint getNumberOfComments (turns : nat) (tm : Terminal) : option (Z * Terminal) :=
  match turns with
  | O => None
  | S turns' =>
      let tm := color_print Cyan "Enter the number of comments to retrieve: " tm in
      let '(input, tm) := readInput tm in
      match strconv.Atoi input with
      | Some maxComments =>
          if maxComments <? 0
          then getNumberOfComments turns' (color_print Red invalidInputMsg tm)
          else Some (maxComments, tm)
      | None => getNumberOfComments turns' (color_print Red invalidInputMsg tm)
      end
  end.

(** [askToContinue], its loop for [turns] turns at most.  [strings.ToLower]
    is the library's on strings of ASCII bytes. *)
Fixpoint askToContinue (turns : nat) (tm : Terminal) : option (bool * Terminal) :=
  match turns with
  | O => None
  | S turns' =>
      let tm := color_print Cyan "Do you want to continue? (Y/N): " tm in
      let '(line, tm) := readInput tm in
      let input := strings.ToLower line in
      if String.eqb input "y" || String.eqb input "yes" then Some (true, tm)
      else if String.eqb input "n" || String.eqb input "no" then Some (false, tm)
      else askToContinue turns' (color_print Red "Invalid input. Please enter Y or N." tm)
  end.

(** The loop of [main], entered with the [developerKey] that
    [getDeveloperKey] has returned, for [rounds] rounds at most, each of its
    two dialogues for [turns] turns at most; [k] counts the rounds before this
    one, and [oracles k] is what the [k]-th call of [getComments] leaves
    open. *)
Fixpoint main_loop (E : Env) (oracles : nat -> Oracle) (developerKey : string)
    (turns rounds k : nat) (w : World) (tm : Terminal) : option (World * Terminal) :=
  match rounds with
  | O => None
  | S rounds' =>
      match getNumberOfComments turns tm with
      | None => None
      | Some (maxComments, tm) =>
          let tm := color_print Cyan "Enter the YouTube video URL: " tm in
          let '(videoUrl, tm) := readInput tm in
          let videoUrls := [videoUrl] in
          let w := getComments E (oracles k) context.Background videoUrls maxComments
                     developerKey w in
          match askToContinue turns tm with
          | None => None
          | Some (true, tm) => main_loop E oracles developerKey turns rounds' (S k) w tm
          | Some (false, tm) => Some (w, tm)
          end
      end
  end.

(** ** Further notions: what whole runs do to files, console and trace *)

(** [name] is the sink of none of the locators. *)
Definition no_sink_of (E : Env) (videoUrls : list string) (name : string) : Prop :=
  forall url videoId,
    url ∈ videoUrls -> getVideoId E url = (videoId, None) -> name <> sink videoId.

(** Along a run from a file system [fs0]: nothing [fs0] held is lost, and
    what is not a sink is as in [fs0]. *)
Definition sinks_only (E : Env) (videoUrls : list string) (fs0 : FS) (cfg : Config) : Prop :=
  static videoUrls cfg /\
  extends fs0 (files (world cfg)) /\
  forall name, no_sink_of E videoUrls name -> files (world cfg) !! name = fs0 !! name.

(** The goroutine has ended with an error. *)
Definition failed (tk : Task) : bool :=
  match pc tk with Finished (Some _) => true | _ => false end.

(** The number of elements of [ts] that satisfy [p]. *)
Definition count (p : Task -> bool) (ts : list Task) : nat :=
  length (filter (fun tk => p tk = true) ts).

(** The console of a run from a console [c0]: [c0], and one line for each
    goroutine that has failed. *)
Definition one_line_each (c0 : list (string * error)) (cfg : Config) : Prop :=
  exists added, console (world cfg) = c0 ++ added /\ length added = count failed (tasks cfg).

(** The remote calls of goroutine [i] in a world. *)
Definition calls_of (i : nat) (w : World) : list Event :=
  filter (fun ev => is_call ev = true) (events_of i w).

(** Their number, counted on a trace. *)
Definition ncalls (i : nat) (l : list Event) : nat :=
  length (filter (fun ev => is_call ev = true) (filter (fun ev => task_of ev = i) l)).

(** Along a run the calls of goroutine [i] stay within what its policy has
    granted so far. *)
Definition within_budget (O : Oracle) (i : nat) (cfg : Config) : Prop :=
  match tasks cfg !! i with
  | None => length (calls_of i (world cfg)) = 0%nat
  | Some tk =>
      match pc tk with
      | Pending | InWait _ =>
          length (calls_of i (world cfg)) = 0%nat /\ policy tk = delays O i
      | Retrying _ =>
          (length (calls_of i (world cfg)) + length (policy tk) <= length (delays O i))%nat
      | Finished _ =>
          (length (calls_of i (world cfg)) <= 1 + length (delays O i))%nat
      end
  end.

(** A run under a context that was done, with error [e], before it began:
    the goroutines are still to start or have ended with [e]; files and trace
    are as in [w0], and the console has one line for each that has ended. *)
Definition turned_away (videoUrls : list string) (e : error) (w0 : World) (cfg : Config)
    : Prop :=
  static videoUrls cfg /\
  now w0 <= now (world cfg) /\
  files (world cfg) = files w0 /\
  trace (world cfg) = trace w0 /\
  Forall (fun tk => pc tk = Pending \/ pc tk = Finished (Some e)) (tasks cfg) /\
  console (world cfg)
    = console w0 ++ replicate (count is_finished (tasks cfg)) ("Rate limit error: %v", e).

(** A run for one locator: its goroutine is still to ask for its permit, of
    a limiter that is as [getComments] made it, or it is past the limiter and
    has not slept in it. *)
Definition served_at_once (cfg : Config) : Prop :=
  exists tk, tasks cfg = [tk] /\
    match pc tk with
    | Pending => limiter cfg = rate.NewLimiter (rate.Every time.Second) 1
    | InWait _ => False
    | Retrying _ | Finished _ => True
    end.

(** The bytes video identifiers are made of: letters, digits, [-] and [_]. *)
Definition idchar (c : ascii) : bool :=
  url.isalpha c || url.isdigit c || Ascii.eqb c "-" || Ascii.eqb c "_".

(** The byte [c] is not [sep]. *)
Definition other_than (sep : ascii) (c : ascii) : bool := negb (Ascii.eqb c sep).

(** The buffer of a scanner holds no more than its size, which is [0] or
    [startBufSize] at least. *)
Definition sized (s : Scanner.Scanner) : Prop :=
  (N.of_nat (String.length (Scanner.buf s)) <= Scanner.cap s)%N /\
  (Scanner.cap s = 0%N \/ (Scanner.startBufSize <= Scanner.cap s)%N).

(** How often a buffer of size [cap] can still grow. *)
Definition levels (cap : N) : nat :=
  if (cap =? 0)%N then 5
  else if (Scanner.MaxScanTokenSize <=? cap)%N then 0
  else if (Scanner.MaxScanTokenSize <=? 2 * cap)%N then 1
  else if (Scanner.MaxScanTokenSize <=? 4 * cap)%N then 2
  else if (Scanner.MaxScanTokenSize <=? 8 * cap)%N then 3
  else 4.

(** A bound on the turns of [Scan_loop] that do not return. *)
Definition turns_left (s : Scanner.Scanner) : nat :=
  2 * length (Scanner.r s) + 2 * levels (Scanner.cap s)
  + (if (N.of_nat (String.length (Scanner.buf s)) =? Scanner.cap s)%N then 0 else 1)
  + (if Scanner.err s is Some _ then 0 else 1).

(** A line as one read delivers it: no line feed inside, and room for it and
    the line feed after it in the scanner's first buffer. *)
Definition typed (line : string) : Prop :=
  strings.ContainsByte line "010" = false /\
  (N.of_nat (String.length (line +:+ LF)) <= Scanner.startBufSize)%N.

(** A string of ASCII bytes. *)
Definition plain (s : string) : Prop :=
  strings.All (fun c => (strings.byte c <? 128)%N) s = true.

(** [getNumberOfComments] turns the line down: it is no number, or a
    negative one. *)
Definition turned_down (line : string) : bool :=
  match strconv.Atoi (Scanner.dropCR line) with
  | Some n => n <? 0
  | None => true
  end.

(** What [askToContinue] makes of a line, [None] when it asks again. *)
Definition answer (line : string) : option bool :=
  let input := strings.ToLower (Scanner.dropCR line) in
  if String.eqb input "y" || String.eqb input "yes" then Some true
  else if String.eqb input "n" || String.eqb input "no" then Some false
  else None.

(** What a dialogue has printed after [k] lines it has turned down. *)
Definition asked_again (prompt complaint : string) (k : nat) : list (Color * string) :=
  mjoin (replicate k [(Cyan, prompt); (Red, complaint)]) ++ [(Cyan, prompt)].

(** Along a run under a context that never fires, the console gains lines
    of the retry loops only. *)
Definition only_failures (c0 : list (string * error)) (cfg : Config) : Prop :=
  rate.burst (limiter cfg) = 1 /\
  exists added, console (world cfg) = c0 ++ added /\
    Forall (fun line => fst line = "Failed to retrieve comments: %v") added.

(** ** Scenarios *)
Module Scenario.

Definition alice_bob : youtube.CommentThreadListResponse :=
  {| youtube.Items := [youtube.thread "Alice" "hi"; youtube.thread "Bob" "nice video"] |}.

Definition unavailable : error := errors_New "googleapi: Error 503: backend unavailable".

(** The surroundings of the scenarios: Go's [net/url], a client library
    that accepts the client, a file system that refuses nothing, and the
    remote service [remote]. *)
Definition env
    (remote : youtube.CommentThreadsListCall -> nat ->
              error + youtube.CommentThreadListResponse) : Env :=
  {| url_Parse := url.Parse;
     youtube_New := fun c => inr {| youtube.client := c |};
     Do := remote;
     open_refused := fun _ => None;
     write_refused := fun _ _ _ => None |}.

(** A scheduler that takes the unfinished goroutines in turn, every
    [tick] nanoseconds, and the same delays for every goroutine. *)
Definition oracle (tick : Z) (b : backoff.BackOff) : Oracle :=
  {| sched := fun k => {| pick := k; at_ := Z.of_nat k * tick; coin := false |};
     delays := fun _ => b |}.

Definition world0 (fs : FS) : World :=
  {| files := fs; console := []; trace := []; now := 0 |}.

(** The remote service answers every call with Alice's and Bob's comments. *)
Definition always_answers : Env := env (fun _ _ => inr alice_bob).

(** It fails the first call of the run and answers from then on. *)
Definition fails_once : Env :=
  env (fun _ k => match k with O => inl unavailable | _ => inr alice_bob end).

(** It fails every call. *)
Definition always_fails : Env := env (fun _ _ => inl unavailable).


Definition three_delays : backoff.BackOff :=
  [500 * time.Millisecond; 750 * time.Millisecond; 1125 * time.Millisecond].

(** The locator of a video, and what [url.Parse] makes of it. *)
Definition watch (v : string) : string := "https://www.youtube.com/watch?v=" +:+ v.
Definition watch_url (v : string) : url.URL :=
  url.mkURL "https" "" None "www.youtube.com" "/watch" false false ("v=" +:+ v) "".

(** An operation on a counter of its own invocations: it fails the first
    two and succeeds from the third on. *)
Definition flaky (n : nat) : option error * nat :=
  (if (n <? 2)%nat then Some unavailable else None, S n).

Definition service : youtube.Service :=
  {| youtube.client := {| youtube.Transport_APIKey_Key := "key" |} |}.

(** A context whose deadline is half a second after the start. *)
Definition half_a_second : context.Context :=
  context.WithDeadline context.Background (500 * time.Millisecond).

(** The remote service answers every call, and the system refuses every
    write: the disk is full. *)
Definition disk_full : Env :=
  {| url_Parse := url.Parse;
     youtube_New := fun c => inr {| youtube.client := c |};
     Do := fun _ _ => inr alice_bob;
     open_refused := fun _ => None;
     write_refused := fun _ _ _ => Some (errors_New "no space left on device") |}.

End Scenario.

(** * Properties *)

(** ** Strings *)

Lemma append_cons (c : ascii) (a b : string) : String c a +:+ b = String c (a +:+ b).
Proof. reflexivity. Qed.

Lemma append_nil_l (a : string) : "" +:+ a = a.
Proof. reflexivity. Qed.

Lemma append_nil_r (a : string) : a +:+ "" = a.
Proof. induction a as [|c a IH]; [reflexivity|]. rewrite append_cons, IH. reflexivity. Qed.

Lemma append_assoc (a b c : string) : (a +:+ b) +:+ c = a +:+ (b +:+ c).
Proof.
  induction a as [|x a IH]; [reflexivity|].
  rewrite !append_cons, IH. reflexivity.
Qed.

Lemma length_append (a b : string) :
  String.length (a +:+ b) = (String.length a + String.length b)%nat.
Proof.
  induction a as [|x a IH]; [reflexivity|].
  rewrite append_cons. simpl. rewrite IH. reflexivity.
Qed.

Lemma length_zero (a : string) : String.length a = O -> a = "".
Proof. destruct a; [reflexivity|discriminate]. Qed.

Lemma substring_all (p : string) : String.substring 0 (String.length p) p = p.
Proof. induction p as [|c p IH]; [reflexivity|]. simpl. rewrite IH. reflexivity. Qed.

Lemma substring_none (n : nat) (p : string) : String.substring n 0 p = "".
Proof.
  revert n. induction p as [|c p IH]; intros [|n]; simpl; try reflexivity. apply IH.
Qed.

Lemma take_drop (n : nat) (p : string) : os.take n p +:+ os.drop n p = p.
Proof.
  unfold os.take, os.drop. revert n.
  induction p as [|c p IH]; intros [|n]; simpl; try reflexivity.
  - rewrite append_nil_l, substring_all. reflexivity.
  - rewrite append_cons. f_equal. apply IH.
Qed.

Lemma drop_all (p : string) : os.drop (String.length p) p = "".
Proof. unfold os.drop. rewrite Nat.sub_diag. apply substring_none. Qed.

(** A common suffix can be cancelled. *)
Lemma append_inv_tail (a b t : string) : a +:+ t = b +:+ t -> a = b.
Proof.
  revert b. induction a as [|x a IH]; intros [|y b] H.
  - reflexivity.
  - exfalso. apply (f_equal String.length) in H.
    rewrite append_nil_l, append_cons in H. simpl in H. rewrite length_append in H. lia.
  - exfalso. apply (f_equal String.length) in H.
    rewrite append_nil_l, append_cons in H. simpl in H. rewrite length_append in H. lia.
  - rewrite !append_cons in H. injection H as -> H. f_equal. apply IH, H.
Qed.

Lemma sink_eq (videoId : string) : sink videoId = "comments_" +:+ videoId +:+ ".txt".
Proof. reflexivity. Qed.

Lemma sink_inj (a b : string) : sink a = sink b -> a = b.
Proof.
  rewrite !sink_eq. intros H.
  apply (inj (String.app "comments_")) in H.
  apply append_inv_tail in H. exact H.
Qed.

Lemma line_eq (author text : string) :
  line (youtube.thread author text) = "Comment from " +:+ author +:+ ": " +:+ text +:+ LF.
Proof. reflexivity. Qed.

(** ** Files and the buffered writer *)

Lemma content_insert (fs : FS) (name c : string) : content (<[name := c]> fs) name = c.
Proof. unfold content. rewrite lookup_insert_eq. reflexivity. Qed.

Lemma content_Some (fs : FS) (name c : string) : fs !! name = Some c -> content fs name = c.
Proof. unfold content. intros ->. reflexivity. Qed.

Lemma appends_to_refl (name : string) (fs : FS) : appends_to name fs fs.
Proof. left. reflexivity. Qed.

Lemma appends_to_trans (name : string) (fs1 fs2 fs3 : FS) :
  appends_to name fs1 fs2 -> appends_to name fs2 fs3 -> appends_to name fs1 fs3.
Proof.
  intros [->|[x ->]] [->|[y ->]].
  - left. reflexivity.
  - right. exists y. reflexivity.
  - right. exists x. reflexivity.
  - right. exists (x +:+ y).
    rewrite content_insert, insert_insert_eq, append_assoc. reflexivity.
Qed.

Lemma appends_to_frame (name other : string) (fs fs' : FS) :
  appends_to name fs fs' -> other <> name -> fs' !! other = fs !! other.
Proof.
  intros [->|[x ->]] Hne; [reflexivity|]. rewrite lookup_insert_ne; [reflexivity|congruence].
Qed.

Lemma appends_to_extends (name : string) (fs fs' : FS) :
  appends_to name fs fs' -> extends fs fs'.
Proof.
  intros [->|[x ->]] g c Hg.
  - exists "". rewrite append_nil_r. exact Hg.
  - destruct (decide (g = name)) as [->|Hne].
    + exists x. rewrite lookup_insert_eq, (content_Some _ _ _ Hg). reflexivity.
    + exists "". rewrite lookup_insert_ne, append_nil_r; [exact Hg|congruence].
Qed.

Lemma extends_refl (fs : FS) : extends fs fs.
Proof. intros g c Hg. exists "". rewrite append_nil_r. exact Hg. Qed.

Lemma extends_trans (fs1 fs2 fs3 : FS) : extends fs1 fs2 -> extends fs2 fs3 -> extends fs1 fs3.
Proof.
  intros H12 H23 g c Hg.
  destruct (H12 g c Hg) as [x Hx]. destruct (H23 g _ Hx) as [y Hy].
  exists (x +:+ y). rewrite Hy, append_assoc. reflexivity.
Qed.

Lemma sink_flag_appendable (name : string) (off : nat) :
  appendable {| os.name := name; os.flag := sink_flag; os.offset := off |}.
Proof. split; reflexivity. Qed.

(** A write to a file open for appending adds [p] at its end or, refused,
    changes nothing; the handle stays as it is. *)
Lemma File_Write_appends (E : Env) (fs : FS) (f : os.File) (p : string) :
  appendable f ->
  exists n e fs', os.File_Write E fs f p = (n, e, f, fs') /\
    appends_to (os.name f) fs fs' /\
    (e = None -> n = String.length p /\ fs' = <[os.name f := content fs (os.name f) +:+ p]> fs) /\
    (e <> None -> n = O /\ fs' = fs).
Proof.
  intros [Ha Hw]. unfold os.File_Write. rewrite Hw. simpl.
  fold (content fs (os.name f)).
  destruct (write_refused E (os.name f) (content fs (os.name f)) p) as [e|] eqn:Href.
  - eexists _, _, _. split; [reflexivity|]. split; [apply appends_to_refl|].
    split; [discriminate|]. intros _. split; reflexivity.
  - rewrite Ha. eexists _, _, _. split; [reflexivity|].
    split; [right; eexists; reflexivity|]. split; [|congruence].
    intros _. split; reflexivity.
Qed.

Lemma File_Write_ok (E : Env) (fs : FS) (f : os.File) (p : string) :
  appendable f -> writes_ok E (os.name f) ->
  os.File_Write E fs f p =
    (String.length p, None, f, <[os.name f := content fs (os.name f) +:+ p]> fs).
Proof.
  intros [Ha Hw] Hok. unfold os.File_Write. rewrite Hw. simpl.
  fold (content fs (os.name f)). rewrite Hok, Ha. reflexivity.
Qed.

Lemma Flush_appends (E : Env) (b : bufio.Writer) (fs : FS) :
  appendable (bufio.wr b) ->
  exists e b' fs', bufio.Flush E b fs = (e, b', fs') /\
    bufio.wr b' = bufio.wr b /\ appends_to (os.name (bufio.wr b)) fs fs'.
Proof.
  intros Ha. unfold bufio.Flush.
  destruct (bufio.err b) as [e|].
  { eexists _, _, _. split; [reflexivity|]. split; [reflexivity|apply appends_to_refl]. }
  destruct (bufio.Buffered b =? 0)%nat.
  { eexists _, _, _. split; [reflexivity|]. split; [reflexivity|apply appends_to_refl]. }
  destruct (File_Write_appends E fs (bufio.wr b) (bufio.buf b) Ha)
    as (n & e & fs' & -> & Happ & _).
  destruct e; eexists _, _, _; (split; [reflexivity|]); split; (reflexivity || exact Happ).
Qed.

Lemma Flush_ok (E : Env) (b : bufio.Writer) (fs : FS) (c : string) :
  bufio.err b = None -> appendable (bufio.wr b) -> writes_ok E (os.name (bufio.wr b)) ->
  fs !! os.name (bufio.wr b) = Some c ->
  bufio.Flush E b fs =
    (None, {| bufio.err := None; bufio.buf := ""; bufio.wr := bufio.wr b |},
     <[os.name (bufio.wr b) := c +:+ bufio.buf b]> fs).
Proof.
  intros He Ha Hok Hc. unfold bufio.Flush. rewrite He.
  destruct (bufio.Buffered b =? 0)%nat eqn:Hn.
  - apply Nat.eqb_eq, length_zero in Hn.
    destruct b as [e bf f]. simpl in *. subst e bf.
    rewrite append_nil_r, insert_id by exact Hc. reflexivity.
  - rewrite (File_Write_ok E fs _ _ Ha Hok). rewrite (content_Some _ _ _ Hc). reflexivity.
Qed.

Lemma Write_loop_appends (E : Env) (turns : nat) :
  forall (b : bufio.Writer) (p : string) (nn : nat) (fs : FS),
  appendable (bufio.wr b) ->
  exists b' p' nn' fs', bufio.Write_loop turns E b p nn fs = (b', p', nn', fs') /\
    bufio.wr b' = bufio.wr b /\ appends_to (os.name (bufio.wr b)) fs fs'.
Proof.
  induction turns as [|turns IH]; intros b p nn fs Ha; simpl.
  { eexists _, _, _, _. split; [reflexivity|]. split; [reflexivity|apply appends_to_refl]. }
  destruct ((bufio.Available b <? String.length p)%nat && bool_decide (bufio.err b = None)).
  2:{ eexists _, _, _, _. split; [reflexivity|]. split; [reflexivity|apply appends_to_refl]. }
  destruct (bufio.Buffered b =? 0)%nat.
  - destruct (File_Write_appends E fs (bufio.wr b) p Ha) as (n & e & fs1 & -> & Happ & _).
    destruct (IH {| bufio.err := e; bufio.buf := bufio.buf b; bufio.wr := bufio.wr b |}
                 (os.drop n p) (nn + n)%nat fs1 Ha) as (b' & p' & nn' & fs' & -> & Hwr & Happ').
    eexists _, _, _, _. split; [reflexivity|]. split; [exact Hwr|].
    eapply appends_to_trans; [exact Happ|exact Happ'].
  - set (b1 := {| bufio.err := bufio.err b;
                  bufio.buf := bufio.buf b +:+ os.take (bufio.Available b) p;
                  bufio.wr := bufio.wr b |}).
    destruct (Flush_appends E b1 fs Ha) as (e & b2 & fs1 & -> & Hwr1 & Happ).
    assert (Ha2 : appendable (bufio.wr b2)) by (rewrite Hwr1; exact Ha).
    destruct (IH b2 (os.drop (bufio.Available b) p) (nn + bufio.Available b)%nat fs1 Ha2)
      as (b' & p' & nn' & fs' & -> & Hwr & Happ').
    eexists _, _, _, _. split; [reflexivity|]. split; [rewrite Hwr, Hwr1; reflexivity|].
    rewrite Hwr1 in Happ'. simpl in Happ'.
    eapply appends_to_trans; [exact Happ|exact Happ'].
Qed.

Lemma Writer_Write_appends (E : Env) (b : bufio.Writer) (p : string) (fs : FS) :
  appendable (bufio.wr b) ->
  exists n e b' fs', bufio.Writer_Write E b p fs = (n, e, b', fs') /\
    bufio.wr b' = bufio.wr b /\ appends_to (os.name (bufio.wr b)) fs fs'.
Proof.
  intros Ha. unfold bufio.Writer_Write.
  destruct (Write_loop_appends E 3 b p O fs Ha) as (b' & p' & nn' & fs' & -> & Hwr & Happ).
  destruct (bufio.err b'); eexists _, _, _, _; (split; [reflexivity|]);
    split; (exact Hwr || exact Happ).
Qed.

Lemma write_items_appends (E : Env) (items : list youtube.CommentThread) :
  forall (b : bufio.Writer) (fs : FS),
  appendable (bufio.wr b) ->
  exists e b' fs', write_items E b items fs = (e, b', fs') /\
    bufio.wr b' = bufio.wr b /\ appends_to (os.name (bufio.wr b)) fs fs'.
Proof.
  induction items as [|item items IH]; intros b fs Ha; simpl.
  { eexists _, _, _. split; [reflexivity|]. split; [reflexivity|apply appends_to_refl]. }
  unfold bufio.Fprintf.
  destruct (Writer_Write_appends E b
              (Sprintf ("Comment from %s: %s" +:+ LF)
                 [youtube.AuthorDisplayName (youtube.Comment_Snippet
                    (youtube.TopLevelComment (youtube.Snippet item)));
                  youtube.TextDisplay (youtube.Comment_Snippet
                    (youtube.TopLevelComment (youtube.Snippet item)))]) fs Ha)
    as (n & e & b1 & fs1 & -> & Hwr1 & Happ).
  destruct e as [e|].
  { eexists _, _, _. split; [reflexivity|]. split; [exact Hwr1|exact Happ]. }
  assert (Ha1 : appendable (bufio.wr b1)) by (rewrite Hwr1; exact Ha).
  destruct (IH b1 fs1 Ha1) as (e' & b' & fs' & -> & Hwr & Happ').
  eexists _, _, _. split; [reflexivity|]. split; [congruence|].
  rewrite Hwr1 in Happ'. eapply appends_to_trans; [exact Happ|exact Happ'].
Qed.

Lemma deferred_appends (E : Env) (b : bufio.Writer) (fs : FS) :
  appendable (bufio.wr b) -> appends_to (os.name (bufio.wr b)) fs (deferred E b fs).
Proof.
  intros Ha. unfold deferred.
  destruct (Flush_appends E b fs Ha) as (e & b' & fs' & -> & _ & Happ). exact Happ.
Qed.

(** With no write refused, the loop of [Write] keeps the bytes in order:
    what the file holds, then the buffer, then what is left of [p]. *)
Lemma Write_loop_ok (E : Env) (turns : nat) :
  forall (b : bufio.Writer) (p : string) (nn : nat) (fs : FS) (c : string),
  bufio.err b = None -> appendable (bufio.wr b) -> writes_ok E (os.name (bufio.wr b)) ->
  fs !! os.name (bufio.wr b) = Some c ->
  exists b' p' nn' c',
    bufio.Write_loop turns E b p nn fs = (b', p', nn', <[os.name (bufio.wr b) := c']> fs) /\
    bufio.err b' = None /\ bufio.wr b' = bufio.wr b /\
    c' +:+ bufio.buf b' +:+ p' = c +:+ bufio.buf b +:+ p.
Proof.
  induction turns as [|turns IH]; intros b p nn fs c He Ha Hok Hc; simpl.
  { exists b, p, nn, c. rewrite insert_id by exact Hc. repeat split; (exact He || reflexivity). }
  destruct ((bufio.Available b <? String.length p)%nat && bool_decide (bufio.err b = None)).
  2:{ exists b, p, nn, c. rewrite insert_id by exact Hc.
      repeat split; (exact He || reflexivity). }
  destruct (bufio.Buffered b =? 0)%nat eqn:Hn.
  - apply Nat.eqb_eq, length_zero in Hn.
    rewrite (File_Write_ok E fs _ _ Ha Hok), (content_Some _ _ _ Hc).
    destruct (IH {| bufio.err := None; bufio.buf := bufio.buf b; bufio.wr := bufio.wr b |}
                 (os.drop (String.length p) p) (nn + String.length p)%nat
                 (<[os.name (bufio.wr b) := c +:+ p]> fs) (c +:+ p)
                 eq_refl Ha Hok (lookup_insert_eq _ _ _))
      as (b' & p' & nn' & c' & Hrun & He' & Hwr & Heq).
    simpl in Hrun, Hwr, Heq. rewrite insert_insert_eq in Hrun.
    exists b', p', nn', c'. split; [exact Hrun|]. split; [exact He'|]. split; [exact Hwr|].
    rewrite Heq, Hn, drop_all, append_nil_l, append_nil_r. reflexivity.
  - set (n := bufio.Available b).
    pose proof (Flush_ok E {| bufio.err := bufio.err b;
                              bufio.buf := bufio.buf b +:+ os.take n p;
                              bufio.wr := bufio.wr b |} fs c He Ha Hok Hc) as Hf.
    cbn [bufio.err bufio.buf bufio.wr] in Hf. rewrite Hf. clear Hf.
    rewrite <- append_assoc.
    destruct (IH {| bufio.err := None; bufio.buf := ""; bufio.wr := bufio.wr b |}
                 (os.drop n p) (nn + n)%nat
                 (<[os.name (bufio.wr b) := (c +:+ bufio.buf b) +:+ os.take n p]> fs)
                 ((c +:+ bufio.buf b) +:+ os.take n p)
                 eq_refl Ha Hok (lookup_insert_eq _ _ _))
      as (b' & p' & nn' & c' & Hrun & He' & Hwr & Heq).
    simpl in Hrun, Hwr, Heq. rewrite insert_insert_eq in Hrun.
    exists b', p', nn', c'. split; [exact Hrun|]. split; [exact He'|]. split; [exact Hwr|].
    rewrite Heq, append_nil_l, !append_assoc, take_drop. reflexivity.
Qed.

Lemma Writer_Write_ok (E : Env) (b : bufio.Writer) (p : string) (fs : FS) (c : string) :
  bufio.err b = None -> appendable (bufio.wr b) -> writes_ok E (os.name (bufio.wr b)) ->
  fs !! os.name (bufio.wr b) = Some c ->
  exists n b' c',
    bufio.Writer_Write E b p fs = (n, None, b', <[os.name (bufio.wr b) := c']> fs) /\
    bufio.err b' = None /\ bufio.wr b' = bufio.wr b /\
    c' +:+ bufio.buf b' = c +:+ bufio.buf b +:+ p.
Proof.
  intros He Ha Hok Hc. unfold bufio.Writer_Write.
  destruct (Write_loop_ok E 3 b p O fs c He Ha Hok Hc)
    as (b' & p' & nn' & c' & -> & He' & Hwr & Heq).
  rewrite He'. eexists _, _, c'. split; [reflexivity|]. simpl.
  split; [reflexivity|]. split; [exact Hwr|exact Heq].
Qed.

Lemma write_items_ok (E : Env) (items : list youtube.CommentThread) :
  forall (b : bufio.Writer) (fs : FS) (c : string),
  bufio.err b = None -> appendable (bufio.wr b) -> writes_ok E (os.name (bufio.wr b)) ->
  fs !! os.name (bufio.wr b) = Some c ->
  exists b' c',
    write_items E b items fs = (None, b', <[os.name (bufio.wr b) := c']> fs) /\
    bufio.err b' = None /\ bufio.wr b' = bufio.wr b /\
    c' +:+ bufio.buf b' = c +:+ bufio.buf b +:+ lines items.
Proof.
  assert (Hcons : forall item items, lines (item :: items) = line item +:+ lines items)
    by reflexivity.
  induction items as [|item items IH]; intros b fs c He Ha Hok Hc.
  { exists b, c. cbn [write_items lines fold_right].
    rewrite insert_id by exact Hc. rewrite append_nil_r.
    repeat split; (exact He || reflexivity). }
  rewrite Hcons. unfold line. cbn [write_items]. cbv zeta. unfold bufio.Fprintf.
  set (p := Sprintf _ _). clearbody p.
  destruct (Writer_Write_ok E b p fs c He Ha Hok Hc)
    as (n & b1 & c1 & -> & He1 & Hwr1 & Heq1).
  assert (Ha1 : appendable (bufio.wr b1)) by (rewrite Hwr1; exact Ha).
  assert (Hok1 : writes_ok E (os.name (bufio.wr b1))) by (rewrite Hwr1; exact Hok).
  destruct (IH b1 (<[os.name (bufio.wr b) := c1]> fs) c1 He1 Ha1 Hok1)
    as (b' & c' & Hrun & He' & Hwr & Heq).
  { rewrite Hwr1. apply lookup_insert_eq. }
  rewrite Hwr1, insert_insert_eq in Hrun.
  exists b', c'. split; [exact Hrun|]. split; [exact He'|].
  split; [rewrite Hwr, Hwr1; reflexivity|].
  rewrite Heq, <- append_assoc, Heq1, !append_assoc. reflexivity.
Qed.

(** The loop of [Write] is left within the three turns [Writer_Write] gives
    it: at its exit the condition of the [for] is false. *)
Lemma Write_loop_exits (E : Env) (b : bufio.Writer) (p : string) (nn : nat) (fs : FS) :
  forall b' p' nn' fs',
  bufio.Write_loop 3 E b p nn fs = (b', p', nn', fs') ->
  (bufio.Available b' <? String.length p')%nat && bool_decide (bufio.err b' = None) = false.
Proof.
  assert (Hfw : forall fs f q n e f' fs',
             os.File_Write E fs f q = (n, e, f', fs') ->
             e = None -> n = String.length q).
  { intros fs0 f q n e f' fs0'. unfold os.File_Write.
    repeat match goal with
           | |- context [if ?c then _ else _] => destruct c
           | |- context [match ?c with Some _ => _ | None => _ end] => destruct c
           end; intros [= <- <- <- <-]; congruence. }
  assert (Hfl : forall b0 fs0 e b1 fs1,
             bufio.Flush E b0 fs0 = (e, b1, fs1) ->
             bufio.err b1 = None -> bufio.err b0 = None ->
             bufio.Buffered b0 <> O -> bufio.Buffered b1 = O).
  { intros b0 fs0 e b1 fs1. unfold bufio.Flush. intros H H1 H0 Hne. rewrite H0 in H.
    destruct (bufio.Buffered b0 =? 0)%nat eqn:Hz; [apply Nat.eqb_eq in Hz; contradiction|].
    destruct (os.File_Write E fs0 (bufio.wr b0) (bufio.buf b0)) as [[[n e'] f'] fs'].
    destruct e'; injection H as <- <- <-; [discriminate|reflexivity]. }
  assert (Hdirect : forall b0 q k fs0 b1 q1 k1 fs1,
             bufio.Buffered b0 = O ->
             bufio.Write_loop 2 E b0 q k fs0 = (b1, q1, k1, fs1) ->
             (bufio.Available b1 <? String.length q1)%nat &&
               bool_decide (bufio.err b1 = None) = false).
  { intros b0 q k fs0 b1 q1 k1 fs1 Hz. simpl.
    destruct ((bufio.Available b0 <? String.length q)%nat &&
                bool_decide (bufio.err b0 = None)) eqn:Hc.
    2:{ intros [= <- <- <- <-]. exact Hc. }
    rewrite Hz. simpl.
    destruct (os.File_Write E fs0 (bufio.wr b0) q) as [[[n e] f'] fs'] eqn:Hw.
    destruct e as [e|].
    { simpl. rewrite andb_false_r. intros [= <- <- <- <-]. simpl. apply andb_false_r. }
    rewrite (Hfw _ _ _ _ _ _ _ Hw eq_refl), drop_all. simpl.
    intros [= <- <- <- <-]. reflexivity. }
  intros b' p' nn' fs'.
  change (bufio.Write_loop 3 E b p nn fs) with
    (if (bufio.Available b <? String.length p)%nat && bool_decide (bufio.err b = None) then
       if (bufio.Buffered b =? 0)%nat then
         let '(n, e, f, fs') := os.File_Write E fs (bufio.wr b) p in
         bufio.Write_loop 2 E {| bufio.err := e; bufio.buf := bufio.buf b; bufio.wr := f |}
           (os.drop n p) (nn + n) fs'
       else
         let n := bufio.Available b in
         let '(_, b', fs') :=
           bufio.Flush E {| bufio.err := bufio.err b;
                            bufio.buf := bufio.buf b +:+ os.take n p;
                            bufio.wr := bufio.wr b |} fs in
         bufio.Write_loop 2 E b' (os.drop n p) (nn + n) fs'
     else (b, p, nn, fs)).
  destruct ((bufio.Available b <? String.length p)%nat &&
              bool_decide (bufio.err b = None)) eqn:Hc.
  2:{ intros [= <- <- <- <-]. exact Hc. }
  apply andb_true_iff in Hc as [_ He]. apply bool_decide_eq_true in He.
  destruct (bufio.Buffered b =? 0)%nat eqn:Hz.
  - apply Nat.eqb_eq in Hz.
    destruct (os.File_Write E fs (bufio.wr b) p) as [[[n e] f'] fs1] eqn:Hw.
    apply Hdirect. exact Hz.
  - apply Nat.eqb_neq in Hz.
    cbv zeta.
    destruct (bufio.Flush E {| bufio.err := bufio.err b;
                               bufio.buf := bufio.buf b +:+ os.take (bufio.Available b) p;
                               bufio.wr := bufio.wr b |} fs) as [[e b1] fs1] eqn:Hf.
    destruct (bufio.err b1) as [e1|] eqn:He1.
    + simpl. rewrite He1. simpl. rewrite andb_false_r.
      intros [= <- <- <- <-]. rewrite He1. apply andb_false_r.
    + apply Hdirect. eapply Hfl; [exact Hf|exact He1|exact He|].
      unfold bufio.Buffered. simpl. rewrite length_append.
      unfold bufio.Buffered in Hz. lia.
Qed.

(** ** One attempt: [operation] *)

Lemma OpenFile_sink (E : Env) (fs : FS) (name : string) :
  os.OpenFile E fs name sink_flag 420 =
    match open_refused E name with
    | Some e => (inl (fmt_Errorf_w "open %s: %w" [str name] e), fs)
    | None => (inr {| os.name := name; os.flag := sink_flag; os.offset := 0 |},
               <[name := content fs name]> fs)
    end.
Proof.
  unfold os.OpenFile, content. destruct (open_refused E name); [reflexivity|].
  destruct (fs !! name) as [c|] eqn:Hc; simpl.
  - rewrite insert_id by exact Hc. reflexivity.
  - reflexivity.
Qed.

Lemma getVideoId_parsed (E : Env) (videoUrl : string) (u : url.URL) :
  url_Parse E videoUrl = inr u -> getVideoId E videoUrl = (url.Get (url.Query u) "v", None).
Proof. unfold getVideoId. intros ->. reflexivity. Qed.

Lemma getVideoId_unparsed (E : Env) (videoUrl : string) (err : error) :
  url_Parse E videoUrl = inl err ->
  getVideoId E videoUrl = ("", Some (fmt_Errorf_w "failed to parse URL: %w" [] err)).
Proof. unfold getVideoId. intros ->. reflexivity. Qed.

Lemma getVideoId_error_shape (E : Env) (videoUrl videoId : string) (e : error) :
  getVideoId E videoUrl = (videoId, Some e) ->
  exists err, url_Parse E videoUrl = inl err /\
              e = fmt_Errorf_w "failed to parse URL: %w" [] err.
Proof.
  unfold getVideoId. destruct (url_Parse E videoUrl) as [err|u]; intros [= <- <-].
  exists err. split; reflexivity.
Qed.

(** The attempt fails before anything is opened: the client is refused. *)
Lemma operation_client_refused (E : Env) (task : nat) (videoUrl : string) (maxComments : Z)
    (developerKey : string) (w : World) (err : error) :
  youtube_New E {| youtube.Transport_APIKey_Key := developerKey |} = inl err ->
  operation E task videoUrl maxComments developerKey w =
    (Some (fmt_Errorf_w "error creating new YouTube client: %w" [] err), w).
Proof. unfold operation. intros ->. reflexivity. Qed.

(** The attempt fails before anything is opened: the locator does not parse. *)
Lemma operation_unparsed (E : Env) (task : nat) (videoUrl : string) (maxComments : Z)
    (developerKey : string) (w : World) (err : error) :
  client_ok E developerKey ->
  url_Parse E videoUrl = inl err ->
  operation E task videoUrl maxComments developerKey w =
    (Some (fmt_Errorf_w "%s: %w" [str invalidURLMsg]
             (fmt_Errorf_w "failed to parse URL: %w" [] err)), w).
Proof.
  intros [service Hnew] Hparse. unfold operation.
  rewrite Hnew, (getVideoId_unparsed _ _ _ Hparse). reflexivity.
Qed.

(** The attempt fails at the opening of the sink. *)
Lemma operation_open_refused (E : Env) (task : nat) (videoUrl : string) (maxComments : Z)
    (developerKey : string) (w : World) (u : url.URL) (e : error) :
  client_ok E developerKey ->
  url_Parse E videoUrl = inr u ->
  open_refused E (sink (url.Get (url.Query u) "v")) = Some e ->
  operation E task videoUrl maxComments developerKey w =
    (Some (fmt_Errorf_w "%s: %w" [str errorWritingFileMsg]
             (fmt_Errorf_w "open %s: %w" [str (sink (url.Get (url.Query u) "v"))] e)), w).
Proof.
  intros [service Hnew] Hparse Hopen. unfold operation.
  rewrite Hnew, (getVideoId_parsed _ _ _ Hparse).
  fold (sink (url.Get (url.Query u) "v")). fold sink_flag.
  rewrite OpenFile_sink, Hopen. reflexivity.
Qed.

(** The attempt fails at the remote call: by then the sink is open, created
    if it was not there. *)
Lemma operation_call_failed (E : Env) (task : nat) (videoUrl : string) (maxComments : Z)
    (developerKey : string) (w : World) (service : youtube.Service) (u : url.URL)
    (err : error) :
  youtube_New E {| youtube.Transport_APIKey_Key := developerKey |} = inr service ->
  url_Parse E videoUrl = inr u ->
  let videoId := url.Get (url.Query u) "v" in
  open_refused E (sink videoId) = None ->
  Do E (call_for service videoId maxComments) (calls w) = inl err ->
  operation E task videoUrl maxComments developerKey w =
    (Some (fmt_Errorf_w "%s: %w" [str errorAPICallMsg] err),
     record (EvCall task videoId)
       (set_files w (<[sink videoId := content (files w) (sink videoId)]> (files w)))).
Proof.
  intros Hnew Hparse videoId Hopen Hdo. unfold operation.
  rewrite Hnew, (getVideoId_parsed _ _ _ Hparse).
  fold videoId. fold (sink videoId). fold sink_flag.
  rewrite OpenFile_sink, Hopen.
  fold (call_for service videoId maxComments). rewrite Hdo.
  reflexivity.
Qed.

(** The attempt succeeds: the lines of the response are added at the end of
    the sink, and nothing else changes but the trace. *)
Lemma operation_succeeds (E : Env) (task : nat) (videoUrl : string) (maxComments : Z)
    (developerKey : string) (w : World) (service : youtube.Service) (u : url.URL)
    (response : youtube.CommentThreadListResponse) :
  youtube_New E {| youtube.Transport_APIKey_Key := developerKey |} = inr service ->
  url_Parse E videoUrl = inr u ->
  let videoId := url.Get (url.Query u) "v" in
  open_refused E (sink videoId) = None ->
  writes_ok E (sink videoId) ->
  Do E (call_for service videoId maxComments) (calls w) = inr response ->
  operation E task videoUrl maxComments developerKey w =
    (None,
     record (EvCall task videoId)
       (set_files w (<[sink videoId := content (files w) (sink videoId)
                                       +:+ lines (youtube.Items response)]> (files w)))).
Proof.
  intros Hnew Hparse videoId Hopen Hok Hdo. unfold operation.
  rewrite Hnew, (getVideoId_parsed _ _ _ Hparse).
  fold videoId. fold (sink videoId). fold sink_flag.
  rewrite OpenFile_sink, Hopen.
  fold (call_for service videoId maxComments). rewrite Hdo.
  cbn [files record set_files].
  set (file := {| os.name := sink videoId; os.flag := sink_flag; os.offset := 0 |}).
  set (fs1 := <[sink videoId := content (files w) (sink videoId)]> (files w)).
  destruct (write_items_ok E (youtube.Items response) (bufio.NewWriter file) fs1
              (content (files w) (sink videoId)) eq_refl
              (sink_flag_appendable _ _) Hok (lookup_insert_eq _ _ _))
    as (b' & c' & Hrun & He' & Hwr & Heq).
  cbn [bufio.NewWriter bufio.wr bufio.buf os.name file] in Hrun, Hwr, Heq.
  rewrite Hrun. unfold deferred.
  assert (Ha' : appendable (bufio.wr b')) by (rewrite Hwr; apply sink_flag_appendable).
  assert (Hok' : writes_ok E (os.name (bufio.wr b'))) by (rewrite Hwr; exact Hok).
  rewrite (Flush_ok E b' _ c' He' Ha' Hok').
  2:{ rewrite Hwr. apply lookup_insert_eq. }
  rewrite Hwr. cbn [os.name]. unfold fs1.
  rewrite !insert_insert_eq, Heq, append_nil_l. reflexivity.
Qed.

(** Whatever its surroundings answer, an attempt either returns an error
    with the world as it found it, or has opened the sink of the video: then
    it has issued one remote call, the sink exists, and the file system
    differs by bytes added at the end of the sink, if at all.  The console and
    the clock are not touched. *)
Lemma operation_frame (E : Env) (task : nat) (videoUrl : string) (maxComments : Z)
    (developerKey : string) (w : World) :
  forall r w', operation E task videoUrl maxComments developerKey w = (r, w') ->
  console w' = console w /\ now w' = now w /\
  ((w' = w /\ r <> None /\ fails_before_open E videoUrl developerKey) \/
   (exists videoId, opens_sink E videoUrl developerKey videoId /\
      trace w' = EvCall task videoId :: trace w /\
      appends_to (sink videoId) (files w) (files w') /\
      is_Some (files w' !! sink videoId))).
Proof.
  intros r w'. unfold operation, fails_before_open, opens_sink, client_ok.
  destruct (youtube_New E _) as [err|service].
  { intros [= <- <-]. repeat split; try reflexivity. left.
    split; [reflexivity|]. split; [discriminate|]. left. eexists. reflexivity. }
  unfold getVideoId.
  destruct (url_Parse E videoUrl) as [err|u].
  { intros [= <- <-]. repeat split; try reflexivity. left.
    split; [reflexivity|]. split; [discriminate|]. right. left. eexists. reflexivity. }
  set (videoId := url.Get (url.Query u) "v").
  fold (sink videoId). fold sink_flag. rewrite OpenFile_sink.
  destruct (open_refused E (sink videoId)) as [e|] eqn:Hopen.
  { intros [= <- <-]. repeat split; try reflexivity. left.
    split; [reflexivity|]. split; [discriminate|]. right. right.
    exists u, e. split; [reflexivity|exact Hopen]. }
  set (file := {| os.name := sink videoId; os.flag := sink_flag; os.offset := 0 |}).
  set (fs1 := <[sink videoId := content (files w) (sink videoId)]> (files w)).
  assert (H1 : appends_to (sink videoId) (files w) fs1).
  { right. exists "". rewrite append_nil_r. reflexivity. }
  assert (Hex : forall fs', appends_to (sink videoId) fs1 fs' -> is_Some (fs' !! sink videoId)).
  { intros fs' Happ.
    destruct (appends_to_extends _ _ _ Happ (sink videoId) (content (files w) (sink videoId)))
      as [x Hx]; [apply lookup_insert_eq|]. rewrite Hx. eexists. reflexivity. }
  assert (Hafile : appendable (bufio.wr (bufio.NewWriter file)))
    by apply sink_flag_appendable.
  assert (Hopens : (exists service0 : youtube.Service,
                      @inr error _ service = inr service0) /\
                   (videoId, @None error) = (videoId, None) /\
                   open_refused E (sink videoId) = None).
  { split; [eexists; reflexivity|]. split; [reflexivity|exact Hopen]. }
  cbn [files record set_files].
  destruct (Do E _ (calls w)) as [err|response].
  - intros [= <- <-]. cbn [console now trace files record set_files].
    repeat split; try reflexivity. right. exists videoId.
    pose proof (deferred_appends E (bufio.NewWriter file) fs1 Hafile) as H2.
    cbn [bufio.NewWriter bufio.wr os.name file] in H2.
    split; [exact Hopens|]. split; [reflexivity|]. split.
    + eapply appends_to_trans; [exact H1|exact H2].
    + apply Hex, H2.
  - destruct (write_items_appends E (youtube.Items response) (bufio.NewWriter file) fs1 Hafile)
      as (e & b' & fs2 & -> & Hwr & H2).
    cbn [bufio.NewWriter bufio.wr os.name file] in Hwr, H2.
    assert (Ha' : appendable (bufio.wr b')) by (rewrite Hwr; apply sink_flag_appendable).
    pose proof (deferred_appends E b' fs2 Ha') as H3. rewrite Hwr in H3. cbn [os.name] in H3.
    intros [= <- <-]. cbn [console now trace files record set_files].
    repeat split; try reflexivity. right. exists videoId.
    assert (H23 : appends_to (sink videoId) fs1 (deferred E b' fs2))
      by (eapply appends_to_trans; [exact H2|exact H3]).
    split; [exact Hopens|]. split; [reflexivity|]. split.
    + eapply appends_to_trans; [exact H1|exact H23].
    + apply Hex, H23.
Qed.

(** The two ways of an attempt exclude each other. *)
Lemma opens_not_fails_before (E : Env) (videoUrl developerKey videoId : string) :
  opens_sink E videoUrl developerKey videoId ->
  fails_before_open E videoUrl developerKey -> False.
Proof.
  intros ([service Hnew] & Hid & Hopen) [[err H]|[[err H]|(u & e & Hu & He)]].
  - congruence.
  - rewrite (getVideoId_unparsed _ _ _ H) in Hid. discriminate.
  - rewrite (getVideoId_parsed _ _ _ Hu) in Hid. injection Hid as <-. congruence.
Qed.

Lemma opens_sink_unique (E : Env) (videoUrl developerKey a b : string) :
  opens_sink E videoUrl developerKey a -> opens_sink E videoUrl developerKey b -> a = b.
Proof. intros (_ & Ha & _) (_ & Hb & _). congruence. Qed.

(** ** The retry loop *)

(** [Retry] is its turn, repeated. *)
Lemma Retry_unfold {S : Type} (sleep : Z -> S -> S) (operation : S -> option error * S)
    (b : backoff.BackOff) (st : S) :
  backoff.Retry sleep operation b st =
    match backoff.Retry_turn operation b st with
    | (inl r, st') => (r, st')
    | (inr (b', next), st') => backoff.Retry sleep operation b' (sleep next st')
    end.
Proof.
  unfold backoff.Retry_turn. destruct b as [|next b]; simpl;
    destruct (operation st) as [[err|] st']; reflexivity.
Qed.

(** After [k] failed invocations, [Retry] is at its invocation [k]: it
    returns what that one returns, if it succeeds or the policy is used up. *)
Lemma Retry_counted {S : Type} (sleep : Z -> S -> S) (operation : S -> option error * S) :
  forall (b : backoff.BackOff) (st : S) (k n : nat),
  (k <= length b)%nat ->
  (forall i, (i < k)%nat -> fst (attempt sleep operation b st i) <> None) ->
  fst (attempt sleep operation b st k) = None \/ k = length b ->
  backoff.Retry (counted_sleep sleep) (counted operation) b (n, st) =
    (fst (attempt sleep operation b st k),
     ((n + Datatypes.S k)%nat, snd (attempt sleep operation b st k)))
  /\ backoff.Retry sleep operation b st = attempt sleep operation b st k.
Proof.
  induction b as [|next b IH]; intros st k n Hk Hfail Hlast.
  - assert (k = O) as -> by (simpl in Hk; lia). simpl.
    destruct (operation st) as [[err|] st']; simpl;
      (split; [do 2 f_equal; lia|reflexivity]).
  - destruct k as [|k].
    + destruct Hlast as [Hlast|Hlast]; [|discriminate]. simpl in Hlast |- *.
      destruct (operation st) as [[err|] st']; [discriminate|]. simpl.
      split; [do 2 f_equal; lia|reflexivity].
    + pose proof (Hfail O ltac:(lia)) as H0. simpl in H0 |- *.
      destruct (operation st) as [[err|] st'] eqn:Hop; [|contradiction]. simpl.
      destruct (IH (sleep next st') k (Datatypes.S n)) as [IH1 IH2].
      * simpl in Hk. lia.
      * intros i Hi. specialize (Hfail (Datatypes.S i) ltac:(lia)).
        simpl in Hfail. rewrite Hop in Hfail. exact Hfail.
      * destruct Hlast as [Hlast|Hlast]; [left|right; simpl in Hlast; lia].
        simpl in Hlast. rewrite Hop in Hlast. exact Hlast.
      * rewrite IH1, IH2. split; [do 2 f_equal; lia|reflexivity].
Qed.

(** A failed turn with a delay left is followed by another turn, whatever
    the error. *)
Lemma Retry_turn_failed {S : Type} (operation : S -> option error * S)
    (next : Z) (b : backoff.BackOff) (st st' : S) (err : error) :
  operation st = (Some err, st') ->
  backoff.Retry_turn operation (next :: b) st = (inr (b, next), st').
Proof. unfold backoff.Retry_turn. intros ->. reflexivity. Qed.

Lemma Retry_failed {S : Type} (sleep : Z -> S -> S) (operation : S -> option error * S)
    (next : Z) (b : backoff.BackOff) (st st' : S) (err : error) :
  operation st = (Some err, st') ->
  backoff.Retry sleep operation (next :: b) st = backoff.Retry sleep operation b (sleep next st').
Proof. simpl. intros ->. reflexivity. Qed.

(** The retry loop of a goroutine leaves the console alone, loses nothing
    the file system held, and a loop that returns an error has failed at
    every turn. *)
Lemma retry_loop_frame (E : Env) (task : nat) (videoUrl : string) (maxComments : Z)
    (developerKey : string) :
  forall (b : backoff.BackOff) (w : World) r w',
  retry_loop E task videoUrl maxComments developerKey b w = (r, w') ->
  console w' = console w /\ extends (files w) (files w').
Proof.
  unfold retry_loop.
  induction b as [|next b IH]; intros w r w'; simpl;
    destruct (operation E task videoUrl maxComments developerKey w) as [[err|] w1] eqn:Hop;
    destruct (operation_frame _ _ _ _ _ _ _ _ Hop) as (Hc & _ & Hfs).
  all: assert (Hext : extends (files w) (files w1))
         by (destruct Hfs as [(-> & _ & _)|(id & _ & _ & Happ & _)];
             [apply extends_refl|eapply appends_to_extends; exact Happ]).
  - intros [= <- <-]. split; [exact Hc|exact Hext].
  - intros [= <- <-]. split; [exact Hc|exact Hext].
  - intros Hrec. destruct (IH _ _ _ Hrec) as [Hc' Hext'].
    split; [rewrite Hc'; exact Hc|]. eapply extends_trans; [exact Hext|exact Hext'].
  - intros [= <- <-]. split; [exact Hc|exact Hext].
Qed.

(** A loop whose attempts fail before the sink is opened returns an error
    and leaves files, console and trace as they were. *)
Lemma retry_loop_fails_before_open (E : Env) (task : nat) (videoUrl : string)
    (maxComments : Z) (developerKey : string) :
  fails_before_open E videoUrl developerKey ->
  forall (b : backoff.BackOff) (w : World) r w',
  retry_loop E task videoUrl maxComments developerKey b w = (r, w') ->
  r <> None /\ files w' = files w /\ console w' = console w /\ trace w' = trace w.
Proof.
  intros Hfail. unfold retry_loop.
  assert (Hop : forall w r w1,
             operation E task videoUrl maxComments developerKey w = (r, w1) ->
             w1 = w /\ r <> None).
  { intros w r w1 H. destruct (operation_frame _ _ _ _ _ _ _ _ H) as (_ & _ & Hfs).
    destruct Hfs as [(-> & Hr & _)|(id & Hopens & _)]; [split; [reflexivity|exact Hr]|].
    exfalso. eapply opens_not_fails_before; [exact Hopens|exact Hfail]. }
  induction b as [|next b IH]; intros w r w'; simpl;
    destruct (operation E task videoUrl maxComments developerKey w) as [[err|] w1] eqn:H;
    destruct (Hop _ _ _ H) as [-> Hr]; try contradiction.
  - intros [= <- <-]. repeat split; [discriminate].
  - intros Hrec. destruct (IH _ _ _ Hrec) as (Hr' & Hf & Hc & Ht).
    split; [exact Hr'|]. repeat split; assumption.
Qed.

(** A loop whose attempts open the sink leaves the sink in existence. *)
Lemma retry_loop_opens (E : Env) (task : nat) (videoUrl : string)
    (maxComments : Z) (developerKey videoId : string) :
  opens_sink E videoUrl developerKey videoId ->
  forall (b : backoff.BackOff) (w : World) r w',
  retry_loop E task videoUrl maxComments developerKey b w = (r, w') ->
  is_Some (files w' !! sink videoId).
Proof.
  intros Hopens. unfold retry_loop.
  assert (Hop : forall w r w1,
             operation E task videoUrl maxComments developerKey w = (r, w1) ->
             is_Some (files w1 !! sink videoId)).
  { intros w r w1 H. destruct (operation_frame _ _ _ _ _ _ _ _ H) as (_ & _ & Hfs).
    destruct Hfs as [(_ & _ & Hfail)|(id & Hopens' & _ & _ & Hsome)].
    - exfalso. eapply opens_not_fails_before; [exact Hopens|exact Hfail].
    - rewrite (opens_sink_unique _ _ _ _ _ Hopens Hopens'). exact Hsome. }
  induction b as [|next b IH]; intros w r w'; simpl;
    destruct (operation E task videoUrl maxComments developerKey w) as [[err|] w1] eqn:H;
    pose proof (Hop _ _ _ H) as Hs.
  - intros [= <- <-]. exact Hs.
  - intros [= <- <-]. exact Hs.
  - apply IH.
  - intros [= <- <-]. exact Hs.
Qed.

(** ** The limiter *)

Lemma never_done_spec (ctx : context.Context) :
  never_done ctx <-> context.Deadline ctx = None /\ context.cancelled_at ctx = None.
Proof.
  unfold never_done, context.done_at.
  destruct (context.cancelled_at ctx), (context.Deadline ctx); split;
    try discriminate; try (intros [? ?]; discriminate); auto.
Qed.

Lemma never_done_Err (ctx : context.Context) (t : Z) :
  never_done ctx -> context.Err ctx t = None.
Proof.
  intros H. apply never_done_spec in H as [Hd Hc]. unfold context.Err.
  rewrite Hd, Hc. reflexivity.
Qed.

Lemma Background_never_done : never_done context.Background.
Proof. reflexivity. Qed.

(** A reservation leaves rate and burst as they are. *)
Lemma reserveN_static (lim : rate.Limiter) (t n : Z) (m : option Z) :
  forall r lim', rate.reserveN lim t n m = (r, lim') ->
  rate.limit lim' = rate.limit lim /\ rate.burst lim' = rate.burst lim.
Proof.
  intros r lim'. unfold rate.reserveN.
  destruct (rate.limit lim) as [|interval] eqn:Hl.
  { intros [= <- <-]. split; [exact Hl|reflexivity]. }
  simpl. destruct (_ && _); intros [= <- <-]; simpl; split; congruence.
Qed.

Lemma CancelAt_static (lim : rate.Limiter) (r : rate.Reservation) (t : Z) :
  rate.limit (rate.CancelAt lim r t) = rate.limit lim /\
  rate.burst (rate.CancelAt lim r t) = rate.burst lim.
Proof.
  unfold rate.CancelAt.
  destruct (negb (rate.ok r)); [split; reflexivity|].
  destruct (rate.limit lim) as [|interval] eqn:Hl; [split; congruence|].
  destruct (_ || _); [split; congruence|].
  destruct (_ <=? 0); [split; congruence|].
  simpl. split; reflexivity.
Qed.

Lemma Wait_enter_static (lim : rate.Limiter) (ctx : context.Context) (t : Z) :
  forall o lim', rate.Wait_enter lim ctx t = (o, lim') ->
  rate.limit lim' = rate.limit lim /\ rate.burst lim' = rate.burst lim.
Proof.
  intros o lim'. unfold rate.Wait_enter.
  destruct (_ && _); [intros [= <- <-]; split; reflexivity|].
  destruct (context.Err ctx t); [intros [= <- <-]; split; reflexivity|].
  destruct (rate.reserveN lim t 1 _) as [r lim1] eqn:Hr.
  apply reserveN_static in Hr.
  destruct (negb (rate.ok r)); [intros [= <- <-]; exact Hr|].
  destruct (_ <=? 0); intros [= <- <-]; exact Hr.
Qed.

Lemma Wait_leave_static (lim : rate.Limiter) (ctx : context.Context) (r : rate.Reservation)
    (t : Z) (coin : bool) :
  forall e lim', rate.Wait_leave lim ctx r t coin = (e, lim') ->
  rate.limit lim' = rate.limit lim /\ rate.burst lim' = rate.burst lim.
Proof.
  intros e lim'. unfold rate.Wait_leave.
  destruct (_ && _); intros [= <- <-]; [apply CancelAt_static|split; reflexivity].
Qed.

(** With room for one token in the burst and no deadline to exceed, a
    reservation of one token is granted. *)
Lemma reserveN_granted (lim : rate.Limiter) (t : Z) :
  1 <= rate.burst lim -> rate.ok (fst (rate.reserveN lim t 1 None)) = true.
Proof.
  intros Hb. unfold rate.reserveN.
  destruct (rate.limit lim) as [|interval]; [reflexivity|]. simpl.
  assert ((1 <=? rate.burst lim) = true) as -> by (apply Z.leb_le; exact Hb).
  reflexivity.
Qed.

(** [Wait] under a context without a deadline: the only error it can
    return is the context's own. *)
Lemma Wait_enter_no_deadline (lim : rate.Limiter) (ctx : context.Context) (t : Z) :
  context.Deadline ctx = None -> 1 <= rate.burst lim ->
  forall e lim', rate.Wait_enter lim ctx t = (rate.Returned (Some e), lim') ->
  context.Err ctx t = Some e.
Proof.
  intros Hd Hb e lim'. unfold rate.Wait_enter.
  assert ((rate.burst lim <? 1) = false) as -> by (apply Z.ltb_ge; exact Hb). simpl.
  destruct (context.Err ctx t) as [e'|]; [intros [= <- <-]; reflexivity|].
  rewrite Hd. pose proof (reserveN_granted lim t Hb) as Hok.
  destruct (rate.reserveN lim t 1 None) as [r lim1]. simpl in Hok. rewrite Hok. simpl.
  destruct (_ <=? 0); discriminate.
Qed.

Lemma Wait_leave_error (lim : rate.Limiter) (ctx : context.Context) (r : rate.Reservation)
    (t : Z) (coin : bool) :
  forall e lim', rate.Wait_leave lim ctx r t coin = (Some e, lim') ->
  context.Err ctx t = Some e.
Proof.
  intros e lim'. unfold rate.Wait_leave.
  destruct (_ && _); intros [= <- <-]. reflexivity.
Qed.

Lemma Wait_enter_never_done (lim : rate.Limiter) (ctx : context.Context) (t : Z) :
  never_done ctx -> 1 <= rate.burst lim ->
  forall o lim', rate.Wait_enter lim ctx t = (o, lim') ->
  o = rate.Returned None \/ exists r, o = rate.Blocked r.
Proof.
  intros Hn Hb o lim' H. destruct o as [[e|]|r].
  - apply never_done_spec in Hn as Hn'. destruct Hn' as [Hd _].
    apply (Wait_enter_no_deadline _ _ _ Hd Hb) in H.
    rewrite (never_done_Err _ _ Hn) in H. discriminate.
  - left. reflexivity.
  - right. exists r. reflexivity.
Qed.

Lemma Wait_leave_never_done (lim : rate.Limiter) (ctx : context.Context)
    (r : rate.Reservation) (t : Z) (coin : bool) :
  never_done ctx -> rate.Wait_leave lim ctx r t coin = (None, lim).
Proof.
  intros Hn. unfold rate.Wait_leave. rewrite Hn. simpl. reflexivity.
Qed.

(** ** The scheduler *)

Lemma unfinished_from_lookup (ts : list Task) :
  forall (k n i : nat), unfinished_from k ts !! n = Some i ->
  exists j tk, i = (k + j)%nat /\ ts !! j = Some tk /\ is_finished tk = false.
Proof.
  induction ts as [|tk ts IH]; intros k n i; simpl; [discriminate|].
  destruct (is_finished tk) eqn:Hf.
  - intros H. destruct (IH _ _ _ H) as (j & tk' & -> & Hj & Hf').
    exists (S j), tk'. split; [lia|]. split; [exact Hj|exact Hf'].
  - destruct n as [|n]; simpl.
    + intros [= <-]. exists O, tk. split; [lia|]. split; [reflexivity|exact Hf].
    + intros H. destruct (IH _ _ _ H) as (j & tk' & -> & Hj & Hf').
      exists (S j), tk'. split; [lia|]. split; [exact Hj|exact Hf'].
Qed.

Lemma unfinished_from_nil (ts : list Task) :
  forall k, unfinished_from k ts = [] -> Forall (fun tk => is_finished tk = true) ts.
Proof.
  induction ts as [|tk ts IH]; intros k; simpl; [constructor|].
  destruct (is_finished tk) eqn:Hf; [|discriminate].
  intros H. constructor; [exact Hf|eapply IH; exact H].
Qed.

Lemma all_finished_unfinished (ts : list Task) :
  Forall (fun tk => is_finished tk = true) ts -> forall k, unfinished_from k ts = [].
Proof.
  induction 1 as [|tk ts Hf _ IH]; intros k; simpl; [reflexivity|].
  rewrite Hf. apply IH.
Qed.

(** A step is the step of one unfinished goroutine, or all have ended and
    nothing moves. *)
Lemma step_cases (E : Env) (ctx : context.Context) (maxComments : Z) (developerKey : string)
    (c : Choice) (cfg : Config) :
  (Forall (fun tk => is_finished tk = true) (tasks cfg) /\
   step E ctx maxComments developerKey c cfg = cfg) \/
  (exists i tk tk' w' lim',
     tasks cfg !! i = Some tk /\ is_finished tk = false /\
     step_task E ctx maxComments developerKey i c tk (world cfg) (limiter cfg)
       = (tk', w', lim') /\
     step E ctx maxComments developerKey c cfg =
       {| world := w'; limiter := lim'; tasks := <[i := tk']> (tasks cfg) |}).
Proof.
  unfold step.
  destruct (unfinished (tasks cfg)) as [|i0 u] eqn:Hu.
  { left. split; [eapply unfinished_from_nil; exact Hu|].
    rewrite lookup_nil. reflexivity. }
  right.
  destruct ((i0 :: u) !! (pick c mod length (i0 :: u))%nat) as [i|] eqn:Hi.
  2:{ apply lookup_ge_None in Hi.
      pose proof (Nat.mod_upper_bound (pick c) (length (i0 :: u))) as Hlt.
      simpl in Hi, Hlt. lia. }
  rewrite <- Hu in Hi. unfold unfinished in Hi.
  destruct (unfinished_from_lookup _ _ _ _ Hi) as (j & tk & -> & Hj & Hf). simpl.
  rewrite Hj.
  destruct (step_task E ctx maxComments developerKey j c tk (world cfg) (limiter cfg))
    as [[tk' w'] lim'] eqn:Hst.
  exists j, tk, tk', w', lim'. repeat split; assumption.
Qed.

(** What holds at the start and is kept by the step of any unfinished
    goroutine holds all along the run. *)
Lemma run_invariant (E : Env) (ctx : context.Context) (maxComments : Z)
    (developerKey : string) (sch : nat -> Choice) (P : Config -> Prop) :
  (forall cfg i c tk tk' w' lim',
     P cfg -> tasks cfg !! i = Some tk -> is_finished tk = false ->
     step_task E ctx maxComments developerKey i c tk (world cfg) (limiter cfg)
       = (tk', w', lim') ->
     P {| world := w'; limiter := lim'; tasks := <[i := tk']> (tasks cfg) |}) ->
  forall (n k : nat) (cfg : Config),
  P cfg -> P (run E ctx maxComments developerKey sch k n cfg).
Proof.
  intros Hstep. induction n as [|n IH]; intros k cfg HP; simpl; [exact HP|].
  apply IH.
  destruct (step_cases E ctx maxComments developerKey (sch k) cfg)
    as [[_ ->]|(i & tk & tk' & w' & lim' & Hi & Hf & Hst & ->)]; [exact HP|].
  eapply Hstep; eassumption.
Qed.

(** Every step of a goroutine uses up one of the steps it has left, and
    keeps its locator. *)
Lemma step_task_progress (E : Env) (ctx : context.Context) (maxComments : Z)
    (developerKey : string) (i : nat) (c : Choice) (tk : Task) (w : World)
    (lim : rate.Limiter) :
  forall tk' w' lim',
  step_task E ctx maxComments developerKey i c tk w lim = (tk', w', lim') ->
  videoUrl tk' = videoUrl tk /\
  (is_finished tk = false -> (steps_left tk' < steps_left tk)%nat).
Proof.
  intros tk' w' lim'. unfold step_task, steps_left, is_finished.
  destruct (pc tk) as [|r|wake|o] eqn:Hpc.
  - destruct (rate.Wait_enter lim ctx _) as [[[e|]|r] lim1];
      intros [= <- <- <-]; simpl; (split; [reflexivity|intros _; lia]).
  - destruct (rate.Wait_leave lim ctx r _ _) as [[e|] lim1];
      intros [= <- <- <-]; simpl; (split; [reflexivity|intros _; lia]).
  - unfold backoff.Retry_turn.
    destruct (operation E i (videoUrl tk) maxComments developerKey _) as [[err|] w1].
    + destruct (policy tk) as [|next b];
        intros [= <- <- <-]; simpl; (split; [reflexivity|intros _; lia]).
    + intros [= <- <- <-]; simpl. split; [reflexivity|intros _; lia].
  - intros [= <- <- <-]. rewrite Hpc. split; [reflexivity|discriminate].
Qed.

Lemma total_steps_left_insert (ts : list Task) :
  forall (i : nat) (tk tk' : Task),
  ts !! i = Some tk -> (steps_left tk' < steps_left tk)%nat ->
  (total_steps_left (<[i := tk']> ts) < total_steps_left ts)%nat.
Proof.
  unfold total_steps_left.
  induction ts as [|t ts IH]; intros [|i] tk tk'; csimpl; try discriminate.
  - intros [= ->] Hlt. lia.
  - intros Hi Hlt. specialize (IH _ _ _ Hi Hlt). lia.
Qed.

Lemma total_steps_left_zero (ts : list Task) :
  total_steps_left ts = O -> Forall (fun tk => is_finished tk = true) ts.
Proof.
  unfold total_steps_left.
  induction ts as [|t ts IH]; csimpl; intros H; constructor.
  - unfold steps_left, is_finished in *. destruct (pc t); simpl in H; (reflexivity || lia).
  - apply IH. lia.
Qed.

(** Given as many steps as its goroutines have left, the run ends with all
    of them ended. *)
Lemma run_terminates (E : Env) (ctx : context.Context) (maxComments : Z)
    (developerKey : string) (sch : nat -> Choice) :
  forall (n k : nat) (cfg : Config),
  (total_steps_left (tasks cfg) <= n)%nat ->
  Forall (fun tk => is_finished tk = true)
    (tasks (run E ctx maxComments developerKey sch k n cfg)).
Proof.
  induction n as [|n IH]; intros k cfg Hn; simpl.
  { apply total_steps_left_zero. lia. }
  apply IH.
  destruct (step_cases E ctx maxComments developerKey (sch k) cfg)
    as [[Hall ->]|(i & tk & tk' & w' & lim' & Hi & Hf & Hst & ->)].
  - assert (total_steps_left (tasks cfg) = O); [|lia].
    clear -Hall. unfold total_steps_left.
    induction Hall as [|t ts Ht _ IHt]; csimpl; [reflexivity|].
    rewrite IHt. unfold steps_left, is_finished in *. destruct (pc t); (discriminate || reflexivity).
  - simpl. destruct (step_task_progress _ _ _ _ _ _ _ _ _ _ _ _ Hst) as [_ Hlt].
    pose proof (total_steps_left_insert _ _ _ _ Hi (Hlt Hf)). lia.
Qed.

(** The step of an unfinished goroutine is one of four: it is handed its
    permit; it blocks in [Wait]; [Wait] fails and it reports and ends; or it
    makes one attempt and ends, reports and ends, or goes to sleep. *)
Lemma step_task_spec (E : Env) (ctx : context.Context) (maxComments : Z)
    (developerKey : string) (i : nat) (c : Choice) (tk : Task) (w : World)
    (lim : rate.Limiter) :
  forall tk' w' lim',
  is_finished tk = false ->
  step_task E ctx maxComments developerKey i c tk w lim = (tk', w', lim') ->
  ((pc tk = Pending \/ exists r, pc tk = InWait r) /\
   (exists t, pc tk' = Retrying t) /\ policy tk' = policy tk /\
   files w' = files w /\ console w' = console w /\ trace w' = EvPermit i :: trace w)
  \/
  (pc tk = Pending /\ (exists r, pc tk' = InWait r) /\ policy tk' = policy tk /\
   files w' = files w /\ console w' = console w /\ trace w' = trace w)
  \/
  ((pc tk = Pending \/ exists r, pc tk = InWait r) /\
   exists err, pc tk' = Finished (Some err) /\
     files w' = files w /\ console w' = console w ++ [("Rate limit error: %v", err)] /\
     trace w' = trace w /\
     ((exists t, rate.Wait_enter lim ctx t = (rate.Returned (Some err), lim')) \/
      (exists r t coin, rate.Wait_leave lim ctx r t coin = (Some err, lim'))))
  \/
  (exists wake t r w1,
     pc tk = Retrying wake /\ lim' = lim /\
     operation E i (videoUrl tk) maxComments developerKey (set_now w t) = (r, w1) /\
     ((r = None /\ pc tk' = Finished None /\ w' = w1) \/
      (exists err, r = Some err /\ policy tk = [] /\ pc tk' = Finished (Some err) /\
         w' = color_Red "Failed to retrieve comments: %v" err w1) \/
      (exists err next b t', r = Some err /\ policy tk = next :: b /\ policy tk' = b /\
         pc tk' = Retrying t' /\ w' = w1))).
Proof.
  intros tk' w' lim' Hf. unfold step_task.
  destruct (pc tk) as [|r|wake|o] eqn:Hpc.
  - destruct (rate.Wait_enter lim ctx _) as [[[e|]|r] lim1] eqn:Hw;
      intros [= <- <- <-]; simpl.
    + right. right. left. split; [left; reflexivity|]. exists e.
      repeat split; try reflexivity. left. eexists. exact Hw.
    + left. split; [left; reflexivity|]. split; [eexists; reflexivity|].
      repeat split; reflexivity.
    + right. left. split; [reflexivity|]. split; [eexists; reflexivity|].
      repeat split; reflexivity.
  - destruct (rate.Wait_leave lim ctx r _ _) as [[e|] lim1] eqn:Hw;
      intros [= <- <- <-]; simpl.
    + right. right. left. split; [right; eexists; reflexivity|]. exists e.
      repeat split; try reflexivity. right. eexists _, _, _. exact Hw.
    + left. split; [right; eexists; reflexivity|]. split; [eexists; reflexivity|].
      repeat split; reflexivity.
  - unfold backoff.Retry_turn.
    destruct (operation E i (videoUrl tk) maxComments developerKey _) as [[err|] w1] eqn:Hop.
    + destruct (policy tk) as [|next b] eqn:Hpol; intros [= <- <- <-];
        right; right; right;
        eexists _, _, _, _; (split; [reflexivity|]); (split; [reflexivity|]);
        (split; [exact Hop|]); right.
      * left. exists err. repeat split; reflexivity.
      * right. exists err, next, b. eexists. repeat split; reflexivity.
    + intros [= <- <- <-]. right. right. right. eexists _, _, _, _. split; [reflexivity|].
      split; [reflexivity|]. split; [exact Hop|]. left. repeat split; reflexivity.
  - unfold is_finished in Hf. rewrite Hpc in Hf. discriminate.
Qed.

Lemma step_task_static (E : Env) (ctx : context.Context) (maxComments : Z)
    (developerKey : string) (i : nat) (c : Choice) (tk : Task) (w : World)
    (lim : rate.Limiter) :
  forall tk' w' lim',
  step_task E ctx maxComments developerKey i c tk w lim = (tk', w', lim') ->
  rate.limit lim' = rate.limit lim /\ rate.burst lim' = rate.burst lim.
Proof.
  intros tk' w' lim'. unfold step_task.
  destruct (pc tk) as [|r|wake|o].
  - destruct (rate.Wait_enter lim ctx _) as [[[e|]|r] lim1] eqn:Hw;
      intros [= <- <- <-]; eapply Wait_enter_static; exact Hw.
  - destruct (rate.Wait_leave lim ctx r _ _) as [[e|] lim1] eqn:Hw;
      intros [= <- <- <-]; eapply Wait_leave_static; exact Hw.
  - destruct (backoff.Retry_turn _ _ _) as [[[e|]|[b next]] w1];
      intros [= <- <- <-]; split; reflexivity.
  - intros [= <- <- <-]. split; reflexivity.
Qed.

(** ** What every run keeps *)

Lemma spawn_urls (O : Oracle) (videoUrls : list string) :
  videoUrl <$> spawn O videoUrls = videoUrls.
Proof.
  unfold spawn. generalize (delays O). induction videoUrls as [|url urls IH]; intros g.
  - reflexivity.
  - csimpl. f_equal. apply (IH (g ∘ S)).
Qed.

Lemma spawn_pending (O : Oracle) (videoUrls : list string) :
  Forall (fun tk => pc tk = Pending) (spawn O videoUrls).
Proof.
  unfold spawn. generalize (delays O). induction videoUrls as [|url urls IH]; intros g.
  - constructor.
  - csimpl. constructor; [reflexivity|apply (IH (g ∘ S))].
Qed.

Lemma static_start (O : Oracle) (videoUrls : list string) (w : World) :
  static videoUrls (start O videoUrls w).
Proof. split; [reflexivity|]. split; [reflexivity|apply spawn_urls]. Qed.

Lemma static_step (E : Env) (ctx : context.Context) (maxComments : Z)
    (developerKey : string) (videoUrls : list string) :
  forall cfg i c tk tk' w' lim',
  static videoUrls cfg -> tasks cfg !! i = Some tk -> is_finished tk = false ->
  step_task E ctx maxComments developerKey i c tk (world cfg) (limiter cfg)
    = (tk', w', lim') ->
  static videoUrls {| world := w'; limiter := lim'; tasks := <[i := tk']> (tasks cfg) |}.
Proof.
  intros cfg i c tk tk' w' lim' (Hb & Hl & Hu) Hi Hf Hst.
  destruct (step_task_static _ _ _ _ _ _ _ _ _ _ _ _ Hst) as [Hl' Hb'].
  destruct (step_task_progress _ _ _ _ _ _ _ _ _ _ _ _ Hst) as [Hurl _].
  split; [simpl; congruence|]. split; [simpl; congruence|]. simpl.
  rewrite list_fmap_insert, Hurl. rewrite list_insert_id; [exact Hu|].
  rewrite list_lookup_fmap, Hi. reflexivity.
Qed.

Lemma static_lookup (videoUrls : list string) (cfg : Config) (j : nat) (tk : Task) :
  static videoUrls cfg -> tasks cfg !! j = Some tk -> videoUrls !! j = Some (videoUrl tk).
Proof.
  intros (_ & _ & <-) Hj. rewrite list_lookup_fmap, Hj. reflexivity.
Qed.



Section Isolation.

Context (E : Env) (ctx : context.Context) (maxComments : Z) (developerKey : string).
Context (videoUrls : list string) (i : nat) (url : string) (u : url.URL).
Context (service : youtube.Service) (response : youtube.CommentThreadListResponse).
Context (before : string).

Let videoId : string := url.Get (url.Query u) "v".

Hypothesis Hctx : never_done ctx.
Hypothesis Hi : videoUrls !! i = Some url.
Hypothesis Hnew : youtube_New E {| youtube.Transport_APIKey_Key := developerKey |} = inr service.
Hypothesis Hparse : url_Parse E url = inr u.
Hypothesis Hopen : open_refused E (sink videoId) = None.
Hypothesis Hwrite : writes_ok E (sink videoId).
Hypothesis Hdo : forall k, Do E (call_for service videoId maxComments) k = inr response.
Hypothesis Hothers :
  forall j url', j <> i -> videoUrls !! j = Some url' ->
  getVideoId E url' <> (videoId, None).

Lemma undisturbed_step :
  forall cfg j c tk tk' w' lim',
  undisturbed videoUrls i (sink videoId) before
    (before +:+ lines (youtube.Items response)) cfg ->
  tasks cfg !! j = Some tk -> is_finished tk = false ->
  step_task E ctx maxComments developerKey j c tk (world cfg) (limiter cfg)
    = (tk', w', lim') ->
  undisturbed videoUrls i (sink videoId) before
    (before +:+ lines (youtube.Items response))
    {| world := w'; limiter := lim'; tasks := <[j := tk']> (tasks cfg) |}.
Proof using All.
  intros cfg j c tk tk' w' lim' [Hstat (tki & Htki & Hinv)] Hj Hf Hst.
  split; [eapply static_step; eassumption|]. simpl.
  pose proof (static_lookup _ _ _ _ Hstat Hj) as Hurlj.
  destruct Hstat as (Hburst & _ & _).
  pose proof (step_task_spec _ _ _ _ _ _ _ _ _ _ _ _ Hf Hst) as Hspec.
  destruct (decide (j = i)) as [->|Hne].
  - (* the goroutine itself steps *)
    rewrite Hj in Htki. injection Htki as <-.
    rewrite Hi in Hurlj. injection Hurlj as Hurl.
    exists tk'. split.
    { apply list_lookup_insert_eq. eapply lookup_lt_Some; exact Hj. }
    destruct Hspec as [(Hpc & [t Ht] & _ & Hfs & _)|[(Hpc & [r Hr] & _ & Hfs & _)|
        [(_ & e & _ & _ & _ & _ & Hwait)|(wake & t & r & w1 & Hpc & _ & Hop & Hr)]]].
    + rewrite Ht, Hfs.
      destruct Hpc as [Hpc|[r Hpc]]; rewrite Hpc in Hinv; exact Hinv.
    + rewrite Hr, Hfs. rewrite Hpc in Hinv. exact Hinv.
    + exfalso. destruct Hwait as [[t Hw]|(r & t & coin & Hw)].
      * assert (Hb1 : 1 <= rate.burst (limiter cfg)) by lia.
        destruct (Wait_enter_never_done _ _ _ Hctx Hb1 _ _ Hw) as [H|[r H]];
          discriminate.
      * rewrite (Wait_leave_never_done _ _ _ _ _ Hctx) in Hw. discriminate.
    + rewrite Hpc in Hinv. rewrite <- Hurl in Hop.
      rewrite (operation_succeeds E i url maxComments developerKey _ service u response
                 Hnew Hparse Hopen Hwrite (Hdo _)) in Hop.
      injection Hop as <- <-.
      destruct Hr as [(_ & Hp & ->)|[(e & He & _)|(e & nx & b & t' & He & _)]];
        try discriminate.
      rewrite Hp. split; [reflexivity|]. simpl.
      rewrite lookup_insert_eq. fold videoId. simpl in Hinv. rewrite Hinv. reflexivity.
  - (* another goroutine steps *)
    exists tki. split; [rewrite list_lookup_insert_ne by congruence; exact Htki|].
    assert (Hsame : files w' !! sink videoId = files (world cfg) !! sink videoId).
    { destruct Hspec as [(_ & _ & _ & Hfs & _)|[(_ & _ & _ & Hfs & _)|
          [(_ & e & _ & Hfs & _)|(wake & t & r & w1 & _ & _ & Hop & Hr)]]];
        try (rewrite Hfs; reflexivity).
      assert (Hw1 : files w1 !! sink videoId = files (world cfg) !! sink videoId).
      { destruct (operation_frame _ _ _ _ _ _ _ _ Hop) as (_ & _ & Hfr).
        destruct Hfr as [(-> & _)|(id & (_ & Hid & _) & _ & Happ & _)]; [reflexivity|].
        apply (appends_to_frame _ _ _ _ Happ).
        intros Heq. apply sink_inj in Heq. subst id.
        exact (Hothers j (videoUrl tk) Hne Hurlj Hid). }
      destruct Hr as [(_ & _ & ->)|[(e & _ & _ & _ & ->)|(e & nx & b & t' & _ & _ & _ & _ & ->)]];
        exact Hw1. }
    unfold content in *. rewrite Hsame. exact Hinv.
Qed.

Lemma undisturbed_start (O : Oracle) (w : World) :
  content (files w) (sink videoId) = before ->
  undisturbed videoUrls i (sink videoId) before
    (before +:+ lines (youtube.Items response)) (start O videoUrls w).
Proof using Hi.
  intros Hc. split; [apply static_start|].
  pose proof (spawn_urls O videoUrls) as Hu.
  assert (Hlt : (i < length (spawn O videoUrls))%nat).
  { rewrite <- (length_fmap videoUrl), Hu. eapply lookup_lt_Some; exact Hi. }
  destruct (lookup_lt_is_Some_2 _ _ Hlt) as [tk Htk].
  exists tk. split; [exact Htk|].
  pose proof (spawn_pending O videoUrls) as Hall. rewrite Forall_lookup in Hall.
  simpl in Htk. rewrite (Hall _ _ Htk). exact Hc.
Qed.

(** At the end of the run the goroutine has ended without an error and
    its sink holds the old content and, after it, the lines of the
    response. *)
Lemma undisturbed_end (O : Oracle) (w : World) :
  content (files w) (sink videoId) = before ->
  exists tk,
    tasks (getComments_end E O ctx videoUrls maxComments developerKey w) !! i = Some tk /\
    pc tk = Finished None /\
    files (getComments E O ctx videoUrls maxComments developerKey w) !! sink videoId
      = Some (before +:+ lines (youtube.Items response)).
Proof using All.
  intros Hc. unfold getComments, getComments_end.
  pose proof (run_terminates E ctx maxComments developerKey (sched O)
                (total_steps_left (tasks (start O videoUrls w))) 0
                (start O videoUrls w) (Nat.le_refl _)) as Hend.
  pose proof (run_invariant E ctx maxComments developerKey (sched O) _ undisturbed_step
                (total_steps_left (tasks (start O videoUrls w))) 0
                (start O videoUrls w) (undisturbed_start O w Hc)) as [_ (tk & Htk & Hinv)].
  rewrite Forall_lookup in Hend. specialize (Hend _ _ Htk).
  exists tk. split; [exact Htk|].
  unfold is_finished in Hend. destruct (pc tk) as [| | |o]; try discriminate.
  destruct Hinv as [-> Hfile]. split; [reflexivity|exact Hfile].
Qed.

End Isolation.

(** ** The run as a whole *)

(** [wg.Wait()] returns: whatever the scheduler, the surroundings and the
    context do, every goroutine has ended when the run is over. *)
Lemma getComments_returns (E : Env) (O : Oracle) (ctx : context.Context)
    (videoUrls : list string) (maxComments : Z) (developerKey : string) (w : World) :
  Forall (fun tk => is_finished tk = true)
    (tasks (getComments_end E O ctx videoUrls maxComments developerKey w)).
Proof. unfold getComments_end. apply run_terminates. apply Nat.le_refl. Qed.



(** C3. The locator names the video "abc123", [maxComments] is 2 and the
    remote call answers with Alice's "hi" and Bob's "nice video": the sink is
    [comments_abc123.txt], and after the run it holds what it held before (it
    is created if it was not there) followed by the two lines
    [Comment from Alice: hi] and [Comment from Bob: nice video]. *)
Theorem abc123_is_appended_to_its_sink (E : Env) (O : Oracle) (ctx : context.Context)
    (videoUrl developerKey : string) (w : World) (u : url.URL) (service : youtube.Service) :
  never_done ctx ->
  youtube_New E {| youtube.Transport_APIKey_Key := developerKey |} = inr service ->
  url_Parse E videoUrl = inr u ->
  url.Get (url.Query u) "v" = "abc123" ->
  open_refused E "comments_abc123.txt" = None ->
  writes_ok E "comments_abc123.txt" ->
  (forall k, Do E (call_for service "abc123" 2) k = inr Scenario.alice_bob) ->
  sink "abc123" = "comments_abc123.txt" /\
  files (getComments E O ctx [videoUrl] 2 developerKey w) !! "comments_abc123.txt"
  = Some (content (files w) "comments_abc123.txt"
          +:+ "Comment from Alice: hi" +:+ LF +:+ "Comment from Bob: nice video" +:+ LF).
Proof.
  intros Hctx Hnew Hparse Hid Hopen Hwrite Hdo.
  split; [reflexivity|].
  assert (Hothers : forall j url', j <> 0%nat -> [videoUrl] !! j = Some url' ->
                    getVideoId E url' <> (url.Get (url.Query u) "v", None)).
  { intros [|j] url' Hj; [contradiction|]. discriminate. }
  change (open_refused E (sink "abc123") = None) in Hopen.
  change (writes_ok E (sink "abc123")) in Hwrite.
  rewrite <- Hid in Hopen, Hwrite, Hdo.
  destruct (undisturbed_end E ctx 2 developerKey [videoUrl] 0 videoUrl u service
              Scenario.alice_bob (content (files w) "comments_abc123.txt")
              Hctx eq_refl Hnew Hparse Hopen Hwrite Hdo Hothers O w)
    as (tk & _ & _ & Hfile).
  - rewrite Hid. reflexivity.
  - rewrite Hid in Hfile. exact Hfile.
Qed.


(** The run of C3's scenario on a sink that is there already. *)
Lemma abc123_is_appended_to_its_sink_witness :
  sink "abc123" = "comments_abc123.txt" /\
  files (getComments Scenario.always_answers (Scenario.oracle 1 Scenario.three_delays)
           context.Background [Scenario.watch "abc123"] 2 "key"
           (Scenario.world0 {[ "comments_abc123.txt" := "kept" +:+ LF ]}))
    !! "comments_abc123.txt"
  = Some (content (files (Scenario.world0 {[ "comments_abc123.txt" := "kept" +:+ LF ]}))
            "comments_abc123.txt"
          +:+ "Comment from Alice: hi" +:+ LF +:+ "Comment from Bob: nice video" +:+ LF).
Proof.
  apply (abc123_is_appended_to_its_sink Scenario.always_answers
           (Scenario.oracle 1 Scenario.three_delays) context.Background
           (Scenario.watch "abc123") "key"
           (Scenario.world0 {[ "comments_abc123.txt" := "kept" +:+ LF ]})
           (Scenario.watch_url "abc123") Scenario.service).
  - reflexivity.
  - reflexivity.
  - vm_compute. reflexivity.
  - vm_compute. reflexivity.
  - reflexivity.
  - intros c p. reflexivity.
  - intros k. reflexivity.
Defined.

(** ** Permits and calls *)

(** A step adds at most one event to the trace, an event of the goroutine
    that steps: its permit, as it enters the retry loop, or a call, from
    inside the loop. *)
Lemma step_task_trace (E : Env) (ctx : context.Context) (maxComments : Z)
    (developerKey : string) (i : nat) (c : Choice) (tk : Task) (w : World)
    (lim : rate.Limiter) :
  forall tk' w' lim',
  is_finished tk = false ->
  step_task E ctx maxComments developerKey i c tk w lim = (tk', w', lim') ->
  (trace w' = trace w /\
   ((pc tk = Pending \/ exists r, pc tk = InWait r) /\
    ((exists r, pc tk' = InWait r) \/ exists o, pc tk' = Finished o)
    \/ (exists t, pc tk = Retrying t) /\
       ((exists t, pc tk' = Retrying t) \/ exists o, pc tk' = Finished o)))
  \/
  (trace w' = EvPermit i :: trace w /\
   (pc tk = Pending \/ exists r, pc tk = InWait r) /\ exists t, pc tk' = Retrying t)
  \/
  (exists videoId, trace w' = EvCall i videoId :: trace w /\
   (exists t, pc tk = Retrying t) /\
   ((exists t, pc tk' = Retrying t) \/ exists o, pc tk' = Finished o)).
Proof.
  intros tk' w' lim' Hf Hst.
  destruct (step_task_spec _ _ _ _ _ _ _ _ _ _ _ _ Hf Hst)
    as [(Hpc & Ht & _ & _ & _ & Htr)|[(Hpc & Hr & _ & _ & _ & Htr)|
        [(Hpc & e & He & _ & _ & Htr & _)|(wake & t & r & w1 & Hpc & _ & Hop & Hr)]]].
  - right. left. split; [exact Htr|]. split; [exact Hpc|exact Ht].
  - left. split; [exact Htr|]. left. split; [left; exact Hpc|left; exact Hr].
  - left. split; [exact Htr|]. left. split; [exact Hpc|right; eexists; exact He].
  - assert (Hpc' : (exists t, pc tk' = Retrying t) \/ exists o, pc tk' = Finished o).
    { destruct Hr as [(_ & Hp & _)|[(e & _ & _ & Hp & _)|(e & nx & b & t' & _ & _ & _ & Hp & _)]].
      - right. eexists. exact Hp.
      - right. eexists. exact Hp.
      - left. eexists. exact Hp. }
    assert (Htr : trace w' = trace w1).
    { destruct Hr as [(_ & _ & ->)|[(e & _ & _ & _ & ->)|(e & nx & b & t' & _ & _ & _ & _ & ->)]];
        reflexivity. }
    destruct (operation_frame _ _ _ _ _ _ _ _ Hop) as (_ & _ & Hfr).
    destruct Hfr as [(-> & _)|(id & _ & Htr1 & _)].
    + left. split; [exact Htr|]. right. split; [eexists; exact Hpc|exact Hpc'].
    + right. right. exists id. split; [rewrite Htr, Htr1; reflexivity|].
      split; [eexists; exact Hpc|exact Hpc'].
Qed.

Lemma orderly_step (E : Env) (ctx : context.Context) (maxComments : Z)
    (developerKey : string) (i : nat) :
  forall cfg j c tk tk' w' lim',
  orderly i cfg -> tasks cfg !! j = Some tk -> is_finished tk = false ->
  step_task E ctx maxComments developerKey j c tk (world cfg) (limiter cfg)
    = (tk', w', lim') ->
  orderly i {| world := w'; limiter := lim'; tasks := <[j := tk']> (tasks cfg) |}.
Proof.
  intros cfg j c tk tk' w' lim' Hord Hj Hf Hst. unfold orderly in *. simpl.
  pose proof (step_task_trace _ _ _ _ _ _ _ _ _ _ _ _ Hf Hst) as Htr.
  destruct (decide (j = i)) as [->|Hne].
  - rewrite list_lookup_insert_eq by (eapply lookup_lt_Some; exact Hj).
    rewrite Hj in Hord.
    destruct Htr as [(-> & Hcase)|[(-> & Hpc & [t Ht])|(id & -> & [t Hpc] & Hpc')]].
    + destruct Hcase as [(Hpc & Hpc')|([t Hpc] & Hpc')].
      * assert (Hnil : filter (fun ev => task_of ev = i) (trace (world cfg)) = []).
        { destruct Hpc as [Hpc|[r Hpc]]; rewrite Hpc in Hord; exact Hord. }
        destruct Hpc' as [[r ->]|[o ->]]; [exact Hnil|left; exact Hnil].
      * rewrite Hpc in Hord.
        destruct Hpc' as [[t' ->]|[o ->]]; [exact Hord|right; exact Hord].
    + assert (Hnil : filter (fun ev => task_of ev = i) (trace (world cfg)) = []).
      { destruct Hpc as [Hpc|[r Hpc]]; rewrite Hpc in Hord; exact Hord. }
      rewrite Ht, filter_cons_True by reflexivity. rewrite Hnil.
      exists []. split; [reflexivity|constructor].
    + rewrite Hpc in Hord. destruct Hord as (cs & Hcs & Hall).
      assert (Hnew : permit_first i
                (filter (fun ev => task_of ev = i) (EvCall i id :: trace (world cfg)))).
      { rewrite filter_cons_True by reflexivity. rewrite Hcs.
        exists (EvCall i id :: cs). split; [reflexivity|].
        constructor; [reflexivity|exact Hall]. }
      destruct Hpc' as [[t' ->]|[o ->]]; [exact Hnew|right; exact Hnew].
  - rewrite list_lookup_insert_ne by congruence.
    assert (Hsame : filter (fun ev => task_of ev = i) (trace w')
                    = filter (fun ev => task_of ev = i) (trace (world cfg))).
    { destruct Htr as [(-> & _)|[(-> & _)|(id & -> & _)]]; [reflexivity| |];
        rewrite filter_cons_False by (simpl; congruence); reflexivity. }
    rewrite Hsame. exact Hord.
Qed.

Lemma orderly_start (O : Oracle) (videoUrls : list string) (w : World) (i : nat) :
  trace w = [] -> orderly i (start O videoUrls w).
Proof.
  intros Htr. unfold orderly. simpl. rewrite Htr.
  destruct (spawn O videoUrls !! i) as [tk|] eqn:Htk; [|reflexivity].
  pose proof (spawn_pending O videoUrls) as Hall. rewrite Forall_lookup in Hall.
  rewrite (Hall _ _ Htk). reflexivity.
Qed.

Lemma permit_first_then_calls (i : nat) (l : list Event) :
  l = [] \/ permit_first i l -> permit_then_calls (reverse l) = true.
Proof.
  intros [->|(cs & -> & Hall)]; [reflexivity|].
  rewrite reverse_app, reverse_singleton. simpl.
  apply forallb_forall. intros ev Hin.
  rewrite Forall_forall in Hall. apply Hall.
  apply list_elem_of_In in Hin. rewrite elem_of_reverse in Hin. exact Hin.
Qed.

(** C1, as the code has it.  Every goroutine acquires its permit once,
    before its first remote call, and its retries issue their calls under
    that one permit: the events of a goroutine are none at all, or one permit
    followed by remote calls only. *)
Theorem one_permit_then_the_calls (E : Env) (O : Oracle) (ctx : context.Context)
    (videoUrls : list string) (maxComments : Z) (developerKey : string) (w : World)
    (i : nat) :
  trace w = [] ->
  permit_then_calls
    (events_of i (getComments E O ctx videoUrls maxComments developerKey w)) = true.
Proof.
  intros Htr. unfold events_of, getComments.
  pose proof (getComments_returns E O ctx videoUrls maxComments developerKey w) as Hend.
  assert (Hord : orderly i (getComments_end E O ctx videoUrls maxComments developerKey w)).
  { unfold getComments_end. apply run_invariant.
    - apply orderly_step.
    - apply orderly_start, Htr. }
  apply (permit_first_then_calls i). unfold orderly in Hord.
  destruct (tasks _ !! i) as [tk|] eqn:Htk; [|left; exact Hord].
  rewrite Forall_lookup in Hend. specialize (Hend _ _ Htk).
  unfold is_finished in Hend. destruct (pc tk); try discriminate. exact Hord.
Qed.

Lemma one_permit_then_the_calls_witness :
  permit_then_calls
    (events_of 0 (getComments Scenario.fails_once (Scenario.oracle 1 Scenario.three_delays)
                    context.Background [Scenario.watch "abc123"] 2 "key"
                    (Scenario.world0 ∅))) = true.
Proof.
  apply (one_permit_then_the_calls Scenario.fails_once
           (Scenario.oracle 1 Scenario.three_delays) context.Background
           [Scenario.watch "abc123"] 2 "key" (Scenario.world0 ∅) 0).
  reflexivity.
Defined.

(** C1, as the specification words it, fails: the remote service fails the
    first call and answers the second; the goroutine acquires one permit and
    issues two calls, the second without a permit of its own. *)
Lemma a_retry_calls_without_a_new_permit :
  events_of 0 (getComments Scenario.fails_once (Scenario.oracle 1 Scenario.three_delays)
                 context.Background [Scenario.watch "abc123"] 2 "key" (Scenario.world0 ∅))
  = [EvPermit 0; EvCall 0 "abc123"; EvCall 0 "abc123"] /\
  permits_cover 0
    (events_of 0 (getComments Scenario.fails_once (Scenario.oracle 1 Scenario.three_delays)
                    context.Background [Scenario.watch "abc123"] 2 "key"
                    (Scenario.world0 ∅))) = false.
Proof. split; vm_compute; reflexivity. Qed.

(** ** Identifier extraction *)

(** C2, as the specification words it, fails: a watch locator without a [v]
    parameter parses, and extraction succeeds with the empty identifier. *)
Lemma extraction_yields_empty_identifier :
  ~ extraction_never_empty Scenario.always_answers.
Proof.
  intros H. apply (H "https://www.youtube.com/watch" ""); [|reflexivity].
  vm_compute. reflexivity.
Qed.

(** C2, as the code has it.  Extraction fails exactly when the locator does
    not parse as a URL, and then the attempt returns an input error with
    nothing opened or called; a locator that parses yields the first value of
    its [v] parameter, the empty string if it has none, as a success. *)
Theorem getVideoId_fails_only_on_unparsable (E : Env) (videoUrl : string) :
  match url_Parse E videoUrl with
  | inl err =>
      getVideoId E videoUrl = ("", Some (fmt_Errorf_w "failed to parse URL: %w" [] err)) /\
      forall task maxComments developerKey w,
        client_ok E developerKey ->
        operation E task videoUrl maxComments developerKey w =
          (Some (fmt_Errorf_w "%s: %w" [str invalidURLMsg]
                   (fmt_Errorf_w "failed to parse URL: %w" [] err)), w)
  | inr u =>
      getVideoId E videoUrl = (url.Get (url.Query u) "v", None) /\
      (url.Query u !! "v" = None -> url.Get (url.Query u) "v" = "")
  end.
Proof.
  destruct (url_Parse E videoUrl) as [err|u] eqn:Hparse.
  - split; [apply getVideoId_unparsed, Hparse|].
    intros task maxComments developerKey w Hok. apply operation_unparsed; assumption.
  - split; [apply getVideoId_parsed, Hparse|].
    unfold url.Get. intros ->. reflexivity.
Qed.

(** C10. A locator that parses as a URL and carries no [v] parameter yields
    the empty identifier with no error, and the attempt goes on with it: its
    sink is [comments_.txt], which it opens, its remote call is issued for the
    video [""], and it succeeds, the lines written to [comments_.txt], when
    the call is answered. *)
Theorem empty_identifier_is_used (E : Env) (videoUrl : string) (u : url.URL) :
  url_Parse E videoUrl = inr u ->
  url.Query u !! "v" = None ->
  getVideoId E videoUrl = ("", None) /\
  sink "" = "comments_.txt" /\
  forall task maxComments developerKey w service,
    youtube_New E {| youtube.Transport_APIKey_Key := developerKey |} = inr service ->
    open_refused E "comments_.txt" = None ->
    forall r w',
    operation E task videoUrl maxComments developerKey w = (r, w') ->
    trace w' = EvCall task "" :: trace w /\
    is_Some (files w' !! "comments_.txt") /\
    forall response,
      Do E (call_for service "" maxComments) (calls w) = inr response ->
      writes_ok E "comments_.txt" ->
      r = None /\
      files w' !! "comments_.txt"
        = Some (content (files w) "comments_.txt" +:+ lines (youtube.Items response)).
Proof.
  intros Hparse Hv.
  assert (Hget : url.Get (url.Query u) "v" = "") by (unfold url.Get; rewrite Hv; reflexivity).
  assert (Hid : getVideoId E videoUrl = ("", None))
    by (rewrite (getVideoId_parsed _ _ _ Hparse), Hget; reflexivity).
  split; [exact Hid|]. split; [reflexivity|].
  intros task maxComments developerKey w service Hnew Hopen r w' Hop.
  change "comments_.txt" with (sink "") in *.
  assert (Hopens : opens_sink E videoUrl developerKey "").
  { split; [exists service; exact Hnew|]. split; [exact Hid|exact Hopen]. }
  destruct (operation_frame _ _ _ _ _ _ _ _ Hop) as (_ & _ & Hfr).
  destruct Hfr as [(_ & _ & Hfail)|(id & Hopens' & Htr & _ & Hsome)].
  { exfalso. eapply opens_not_fails_before; eassumption. }
  rewrite (opens_sink_unique _ _ _ _ _ Hopens' Hopens) in Htr, Hsome.
  split; [exact Htr|]. split; [exact Hsome|].
  intros response Hdo Hwrite.
  rewrite <- Hget in Hopen, Hwrite, Hdo.
  rewrite (operation_succeeds E task videoUrl maxComments developerKey w service u response
             Hnew Hparse Hopen Hwrite Hdo) in Hop.
  injection Hop as <- <-. split; [reflexivity|].
  simpl. rewrite Hget. apply lookup_insert_eq.
Qed.

Lemma empty_identifier_is_used_witness :
  getVideoId Scenario.always_answers "https://www.youtube.com/watch" = ("", None) /\
  sink "" = "comments_.txt" /\
  forall task maxComments developerKey w service,
    youtube_New Scenario.always_answers {| youtube.Transport_APIKey_Key := developerKey |}
      = inr service ->
    open_refused Scenario.always_answers "comments_.txt" = None ->
    forall r w',
    operation Scenario.always_answers task "https://www.youtube.com/watch"
      maxComments developerKey w = (r, w') ->
    trace w' = EvCall task "" :: trace w /\
    is_Some (files w' !! "comments_.txt") /\
    forall response,
      Do Scenario.always_answers (call_for service "" maxComments) (calls w) = inr response ->
      writes_ok Scenario.always_answers "comments_.txt" ->
      r = None /\
      files w' !! "comments_.txt"
        = Some (content (files w) "comments_.txt" +:+ lines (youtube.Items response)).
Proof.
  apply (empty_identifier_is_used Scenario.always_answers "https://www.youtube.com/watch"
           (url.mkURL "https" "" None "www.youtube.com" "/watch" false false "" "")).
  - vm_compute. reflexivity.
  - vm_compute. reflexivity.
Defined.

(** ** Errors and retries *)

(** C6. An operation whose first [k] invocations fail, [k] within the
    delays the policy grants, and whose next invocation succeeds: [Retry]
    returns that success after exactly [k + 1] invocations.  An operation
    that fails at every invocation the policy allows ([k] is the number of
    delays): [Retry] returns the error of the last invocation, once the
    delays are used up, again after [k + 1] invocations. *)
Theorem Retry_returns_after_k_failures {S : Type} (sleep : Z -> S -> S)
    (operation : S -> option error * S) (b : backoff.BackOff) (st : S) (k : nat) :
  (k <= length b)%nat ->
  (forall i, (i < k)%nat -> fst (attempt sleep operation b st i) <> None) ->
  fst (attempt sleep operation b st k) = None \/ k = length b ->
  backoff.Retry sleep operation b st = attempt sleep operation b st k /\
  backoff.Retry (counted_sleep sleep) (counted operation) b (O, st) =
    (fst (attempt sleep operation b st k),
     (Datatypes.S k, snd (attempt sleep operation b st k))).
Proof.
  intros Hk Hfail Hlast.
  destruct (Retry_counted sleep operation b st k O Hk Hfail Hlast) as [Hc Hr].
  split; [exact Hr|]. exact Hc.
Qed.

Lemma Retry_returns_after_k_failures_witness :
  backoff.Retry (fun _ n => n) Scenario.flaky Scenario.three_delays O
    = attempt (fun _ n => n) Scenario.flaky Scenario.three_delays O 2 /\
  backoff.Retry (counted_sleep (fun _ n => n)) (counted Scenario.flaky)
      Scenario.three_delays (O, O) =
    (fst (attempt (fun _ n => n) Scenario.flaky Scenario.three_delays O 2),
     (3%nat, snd (attempt (fun _ n => n) Scenario.flaky Scenario.three_delays O 2))).
Proof.
  apply (Retry_returns_after_k_failures (fun _ n => n) Scenario.flaky
           Scenario.three_delays O 2).
  - simpl. lia.
  - intros [|[|i]] Hi; [vm_compute; discriminate|vm_compute; discriminate|lia].
  - left. reflexivity.
Defined.

(** What the loop does with an error that reaches it.  Whatever error an
    attempt returns (an input error for the locator, an error of opening the
    sink, a remote-call error: the loop does not look at it), the retry loop
    that has a delay left sleeps and makes another attempt; it returns the
    error only when the delays are used up. *)
Lemma a_returned_error_is_retried (E : Env) (task : nat) (videoUrl : string)
    (maxComments : Z) (developerKey : string) (w w' : World) (err : error) :
  operation E task videoUrl maxComments developerKey w = (Some err, w') ->
  (forall next b,
     backoff.Retry_turn (operation E task videoUrl maxComments developerKey) (next :: b) w
       = (inr (b, next), w') /\
     retry_loop E task videoUrl maxComments developerKey (next :: b) w
       = retry_loop E task videoUrl maxComments developerKey b (sleep next w')) /\
  retry_loop E task videoUrl maxComments developerKey [] w = (Some err, w').
Proof.
  intros Hop. split.
  - intros next b. split.
    + eapply Retry_turn_failed. exact Hop.
    + unfold retry_loop. eapply Retry_failed. exact Hop.
  - unfold retry_loop. simpl. rewrite Hop. reflexivity.
Qed.

(** C5 fails on the code for an I/O error on the sink that arises at the
    deferred [writer.Flush()].  The remote service answers with Alice's and
    Bob's comments and the system refuses every write to the sink: the two
    [fmt.Fprintf] only fill the writer's buffer; the deferred flush of that
    writer returns the write error; the error is dropped, the attempt returns
    no error, and so the retry loop, with three delays at hand, returns after
    one remote call; the goroutine ends without an error, nothing is printed,
    and the sink, created by the attempt, holds no line. *)
Theorem a_write_error_at_the_flush_is_dropped :
  write_items Scenario.disk_full
    (bufio.NewWriter {| os.name := "comments_abc123.txt"; os.flag := sink_flag;
                        os.offset := 0 |})
    (youtube.Items Scenario.alice_bob) {[ "comments_abc123.txt" := "" ]}
  = (None,
     {| bufio.err := None; bufio.buf := lines (youtube.Items Scenario.alice_bob);
        bufio.wr := {| os.name := "comments_abc123.txt"; os.flag := sink_flag;
                       os.offset := 0 |} |},
     {[ "comments_abc123.txt" := "" ]}) /\
  fst (fst (bufio.Flush Scenario.disk_full
              {| bufio.err := None; bufio.buf := lines (youtube.Items Scenario.alice_bob);
                 bufio.wr := {| os.name := "comments_abc123.txt"; os.flag := sink_flag;
                                os.offset := 0 |} |}
              {[ "comments_abc123.txt" := "" ]}))
  = Some (fmt_Errorf_w "write %s: %w" [str "comments_abc123.txt"]
            (errors_New "no space left on device")) /\
  fst (operation Scenario.disk_full 0 (Scenario.watch "abc123") 2 "key" (Scenario.world0 ∅))
  = None /\
  fst (retry_loop Scenario.disk_full 0 (Scenario.watch "abc123") 2 "key"
         Scenario.three_delays (Scenario.world0 ∅)) = None /\
  calls (snd (retry_loop Scenario.disk_full 0 (Scenario.watch "abc123") 2 "key"
                Scenario.three_delays (Scenario.world0 ∅))) = 1%nat /\
  pc <$> tasks (getComments_end Scenario.disk_full (Scenario.oracle 1 Scenario.three_delays)
                  context.Background [Scenario.watch "abc123"] 2 "key" (Scenario.world0 ∅))
  = [Finished None] /\
  console (getComments Scenario.disk_full (Scenario.oracle 1 Scenario.three_delays)
             context.Background [Scenario.watch "abc123"] 2 "key" (Scenario.world0 ∅)) = [] /\
  files (getComments Scenario.disk_full (Scenario.oracle 1 Scenario.three_delays)
           context.Background [Scenario.watch "abc123"] 2 "key" (Scenario.world0 ∅))
    !! "comments_abc123.txt" = Some "".
Proof. repeat split; vm_compute; reflexivity. Qed.

(** C7, as the specification words it, fails: the remote service fails
    every call; the goroutine ends with an error, and the sink, which was
    not there before the run, is there after it, empty. *)
Lemma a_failed_task_has_created_its_sink :
  (exists tk err,
     tasks (getComments_end Scenario.always_fails (Scenario.oracle 1 Scenario.three_delays)
              context.Background [Scenario.watch "abc123"] 2 "key" (Scenario.world0 ∅))
       !! 0%nat = Some tk /\ pc tk = Finished (Some err)) /\
  files (Scenario.world0 ∅) !! "comments_abc123.txt" = None /\
  files (getComments Scenario.always_fails (Scenario.oracle 1 Scenario.three_delays)
           context.Background [Scenario.watch "abc123"] 2 "key" (Scenario.world0 ∅))
    !! "comments_abc123.txt" = Some "".
Proof.
  split; [|split; vm_compute; reflexivity].
  eexists _, _. split; vm_compute; reflexivity.
Qed.

(** The attempts of a retry loop all fail at the remote call: each opens
    the sink, creating it if it is not there, and adds nothing to it. *)
Lemma retry_loop_calls_fail (E : Env) (task : nat) (videoUrl : string) (maxComments : Z)
    (developerKey videoId : string) :
  opens_sink E videoUrl developerKey videoId ->
  (forall call k, exists e, Do E call k = inl e) ->
  forall (b : backoff.BackOff) (w : World) r w',
  retry_loop E task videoUrl maxComments developerKey b w = (r, w') ->
  files w' = <[sink videoId := content (files w) (sink videoId)]> (files w).
Proof.
  intros ([service Hnew] & Hid & Hopen) Hdo.
  assert (Hu : exists u, url_Parse E videoUrl = inr u /\ videoId = url.Get (url.Query u) "v").
  { unfold getVideoId in Hid. destruct (url_Parse E videoUrl) as [e|u]; [discriminate|].
    exists u. split; [reflexivity|]. injection Hid as <-. reflexivity. }
  destruct Hu as (u & Hparse & ->).
  induction b as [|next b IH]; intros w r w' Hloop.
  - destruct (Hdo (call_for service (url.Get (url.Query u) "v") maxComments) (calls w))
      as [e He].
    unfold retry_loop in Hloop. cbn [backoff.Retry] in Hloop.
    rewrite (operation_call_failed E task videoUrl maxComments developerKey w service u e
               Hnew Hparse Hopen He) in Hloop.
    injection Hloop as _ <-. reflexivity.
  - destruct (Hdo (call_for service (url.Get (url.Query u) "v") maxComments) (calls w))
      as [e He].
    unfold retry_loop in Hloop.
    rewrite (Retry_failed sleep _ next b w _ _
               (operation_call_failed E task videoUrl maxComments developerKey w service u e
                  Hnew Hparse Hopen He)) in Hloop.
    rewrite (IH _ _ _ Hloop). unfold sleep. cbn [files set_now record set_files].
    rewrite content_insert, insert_insert_eq. reflexivity.
Qed.

(** C7, as the code has it.  The retry loop of a goroutine that ends with an
    error has lost or overwritten nothing the files held (the sink is opened
    for appending); it has left the file system as it was if its attempts
    failed before the sink was opened; but if its attempts got as far as
    opening the sink, the sink exists afterwards, created by the failed
    task if it was not there.  When every remote call fails, that is the only
    change: the sink holds what it held, nothing if it was not there, and
    every other file is as it was. *)
Theorem a_failed_task_keeps_what_was_there (E : Env) (task : nat) (videoUrl : string)
    (maxComments : Z) (developerKey : string) (b : backoff.BackOff) (w w' : World)
    (err : error) :
  retry_loop E task videoUrl maxComments developerKey b w = (Some err, w') ->
  extends (files w) (files w') /\
  (fails_before_open E videoUrl developerKey -> files w' = files w) /\
  (forall videoId, opens_sink E videoUrl developerKey videoId ->
                   is_Some (files w' !! sink videoId)) /\
  (forall videoId, opens_sink E videoUrl developerKey videoId ->
                   (forall call k, exists e, Do E call k = inl e) ->
                   files w' = <[sink videoId := content (files w) (sink videoId)]> (files w)).
Proof.
  intros Hloop. split; [|split; [|split]].
  - eapply retry_loop_frame. exact Hloop.
  - intros Hfail.
    destruct (retry_loop_fails_before_open _ _ _ _ _ Hfail _ _ _ _ Hloop) as (_ & Hfs & _).
    exact Hfs.
  - intros videoId Hopens. eapply retry_loop_opens; eassumption.
  - intros videoId Hopens Hdo. eapply retry_loop_calls_fail; eassumption.
Qed.

Lemma a_failed_task_keeps_what_was_there_witness :
  extends (files (Scenario.world0 {[ "notes.txt" := "kept" ]}))
    (files (snd (retry_loop Scenario.always_fails 0 (Scenario.watch "abc123") 2 "key"
                   Scenario.three_delays (Scenario.world0 {[ "notes.txt" := "kept" ]})))) /\
  (fails_before_open Scenario.always_fails (Scenario.watch "abc123") "key" ->
   files (snd (retry_loop Scenario.always_fails 0 (Scenario.watch "abc123") 2 "key"
                 Scenario.three_delays (Scenario.world0 {[ "notes.txt" := "kept" ]})))
   = files (Scenario.world0 {[ "notes.txt" := "kept" ]})) /\
  (forall videoId,
     opens_sink Scenario.always_fails (Scenario.watch "abc123") "key" videoId ->
     is_Some (files (snd (retry_loop Scenario.always_fails 0 (Scenario.watch "abc123") 2
                            "key" Scenario.three_delays
                            (Scenario.world0 {[ "notes.txt" := "kept" ]})))
                !! sink videoId)) /\
  (forall videoId,
     opens_sink Scenario.always_fails (Scenario.watch "abc123") "key" videoId ->
     (forall call k, exists e, Do Scenario.always_fails call k = inl e) ->
     files (snd (retry_loop Scenario.always_fails 0 (Scenario.watch "abc123") 2 "key"
                   Scenario.three_delays (Scenario.world0 {[ "notes.txt" := "kept" ]})))
     = <[sink videoId := content (files (Scenario.world0 {[ "notes.txt" := "kept" ]}))
                           (sink videoId)]>
         (files (Scenario.world0 {[ "notes.txt" := "kept" ]}))).
Proof.
  apply (a_failed_task_keeps_what_was_there Scenario.always_fails 0
           (Scenario.watch "abc123") 2 "key" Scenario.three_delays
           (Scenario.world0 {[ "notes.txt" := "kept" ]}) _
           (fmt_Errorf_w "%s: %w" [str errorAPICallMsg] Scenario.unavailable)).
  vm_compute. reflexivity.
Defined.

(** ** The token count *)

Lemma advance_capped (lim : rate.Limiter) (t : Z) :
  snd (rate.advance lim t) <= rate.burst lim * rate.interval_of (rate.limit lim).
Proof. unfold rate.advance. simpl. lia. Qed.



Lemma Wait_enter_within (lim : rate.Limiter) (ctx : context.Context) (t : Z) :
  rate.burst lim = 1 -> rate.limit lim = rate.PerInterval time.Second ->
  rate.tokens lim <= 1 * time.Second ->
  forall o lim', rate.Wait_enter lim ctx t = (o, lim') ->
  rate.tokens lim' <= 1 * time.Second.
Proof.
  intros Hb Hl Ht o lim'. unfold rate.Wait_enter.
  destruct (_ && _); [intros [= <- <-]; exact Ht|].
  destruct (context.Err ctx t); [intros [= <- <-]; exact Ht|].
  unfold rate.reserveN. rewrite Hl.
  pose proof (advance_capped lim t) as Hcap. rewrite Hb, Hl in Hcap.
  destruct (rate.advance lim t) as [t' tokens] eqn:Hadv. simpl in Hcap |- *.
  destruct (_ && _); simpl.
  - destruct (_ <=? 0); intros [= <- <-]; simpl; unfold time.Second in *; lia.
  - intros [= <- <-]. exact Ht.
Qed.

Lemma Wait_leave_within (lim : rate.Limiter) (ctx : context.Context) (r : rate.Reservation)
    (t : Z) (coin : bool) :
  rate.burst lim = 1 -> rate.limit lim = rate.PerInterval time.Second ->
  rate.tokens lim <= 1 * time.Second ->
  forall e lim', rate.Wait_leave lim ctx r t coin = (e, lim') ->
  rate.tokens lim' <= 1 * time.Second.
Proof.
  intros Hb Hl Ht e lim'. unfold rate.Wait_leave.
  destruct (_ && _); intros [= <- <-]; [|exact Ht].
  unfold rate.CancelAt.
  destruct (negb (rate.ok r)); [exact Ht|]. rewrite Hl.
  destruct (_ || _); [exact Ht|].
  destruct (_ <=? 0); [exact Ht|].
  destruct (rate.advance lim t) as [t' tokens]. simpl. rewrite Hb. lia.
Qed.

Lemma within_capacity_step (E : Env) (ctx : context.Context) (maxComments : Z)
    (developerKey : string) :
  forall cfg i c tk tk' w' lim',
  within_capacity cfg -> tasks cfg !! i = Some tk -> is_finished tk = false ->
  step_task E ctx maxComments developerKey i c tk (world cfg) (limiter cfg)
    = (tk', w', lim') ->
  within_capacity {| world := w'; limiter := lim'; tasks := <[i := tk']> (tasks cfg) |}.
Proof.
  intros cfg i c tk tk' w' lim' (Hb & Hl & Ht) Hi Hf Hst.
  destruct (step_task_static _ _ _ _ _ _ _ _ _ _ _ _ Hst) as [Hl' Hb'].
  split; [simpl; congruence|]. split; [simpl; congruence|]. simpl.
  revert Hst. unfold step_task.
  destruct (pc tk) as [|r|wake|o].
  - destruct (rate.Wait_enter (limiter cfg) ctx _) as [[[e|]|r] lim1] eqn:Hw;
      intros [= <- <- <-]; eapply Wait_enter_within; eassumption.
  - destruct (rate.Wait_leave (limiter cfg) ctx r _ _) as [[e|] lim1] eqn:Hw;
      intros [= <- <- <-]; eapply Wait_leave_within; eassumption.
  - destruct (backoff.Retry_turn _ _ _) as [[[e|]|[b next]] w1];
      intros [= <- <- <-]; exact Ht.
  - intros [= <- <- <-]. exact Ht.
Qed.

Lemma within_capacity_start (O : Oracle) (videoUrls : list string) (w : World) :
  within_capacity (start O videoUrls w).
Proof. split; [reflexivity|]. split; [reflexivity|]. simpl. reflexivity. Qed.



(** ** What [Wait] can fail with *)

Lemma Err_no_deadline (ctx : context.Context) (t : Z) (e : error) :
  context.Deadline ctx = None -> context.Err ctx t = Some e ->
  e = context.Canceled /\ exists c, context.cancelled_at ctx = Some c /\ c <= t.
Proof.
  intros Hd. unfold context.Err. rewrite Hd.
  destruct (context.cancelled_at ctx) as [c|]; [|discriminate].
  destruct (c <=? t) eqn:Hc; [|discriminate].
  intros [= <-]. split; [reflexivity|]. exists c. split; [reflexivity|].
  apply Z.leb_le, Hc.
Qed.

(** C9, as the specification words it, fails: under a context whose
    deadline is half a second away two goroutines ask for their permits; the
    second would have to wait a second, and [Wait] returns at once with an
    error of the limiter's own making, which the goroutine reports, while the
    context has not fired. *)
Lemma acquire_fails_with_an_error_of_its_own :
  console (getComments Scenario.always_answers (Scenario.oracle 1 Scenario.three_delays)
             Scenario.half_a_second [Scenario.watch "A"; Scenario.watch "B"] 2 "key"
             (Scenario.world0 ∅))
  = [("Rate limit error: %v",
      fmt_Errorf "rate: Wait(n=%d) would exceed context deadline" [int 1])] /\
  context.Err Scenario.half_a_second
    (now (getComments Scenario.always_answers (Scenario.oracle 1 Scenario.three_delays)
            Scenario.half_a_second [Scenario.watch "A"; Scenario.watch "B"] 2 "key"
            (Scenario.world0 ∅)))
  = None.
Proof. split; vm_compute; reflexivity. Qed.

(** C9, as the code has it.  The limiter the goroutines share is made with
    a burst of one token and one token per second.  Under a context that
    carries no deadline (as [context.Background()], which [main] passes, and
    under which [Wait] does not fail at all), [Wait] on it, at any point of
    any run, fails only when the context has been cancelled, and with the
    context's error. *)
Theorem acquire_fails_only_by_cancellation (E : Env) (O : Oracle) (ctx : context.Context)
    (videoUrls : list string) (maxComments : Z) (developerKey : string) (w : World)
    (n : nat) (ctx' : context.Context) (t : Z) (r : rate.Reservation) (coin : bool) :
  context.Deadline ctx' = None ->
  limiter (start O videoUrls w) = rate.NewLimiter (rate.Every time.Second) 1 /\
  rate.burst (limiter (start O videoUrls w)) = 1 /\
  rate.limit (limiter (start O videoUrls w)) = rate.PerInterval (1 * time.Second) /\
  (forall e lim',
     rate.Wait_enter (limiter (run E ctx maxComments developerKey (sched O) 0 n
                                 (start O videoUrls w))) ctx' t
       = (rate.Returned (Some e), lim') ->
     e = context.Canceled /\ exists c, context.cancelled_at ctx' = Some c /\ c <= t) /\
  (forall e lim',
     rate.Wait_leave (limiter (run E ctx maxComments developerKey (sched O) 0 n
                                 (start O videoUrls w))) ctx' r t coin
       = (Some e, lim') ->
     e = context.Canceled /\ exists c, context.cancelled_at ctx' = Some c /\ c <= t) /\
  (forall o lim',
     rate.Wait_enter (limiter (run E ctx maxComments developerKey (sched O) 0 n
                                 (start O videoUrls w))) context.Background t = (o, lim') ->
     o = rate.Returned None \/ exists r', o = rate.Blocked r').
Proof.
  intros Hd.
  assert (Hin : within_capacity (run E ctx maxComments developerKey (sched O) 0 n
                                   (start O videoUrls w))).
  { apply run_invariant; [apply within_capacity_step|apply within_capacity_start]. }
  destruct Hin as (Hb & _ & _).
  assert (Hb1 : 1 <= rate.burst (limiter (run E ctx maxComments developerKey (sched O) 0 n
                                            (start O videoUrls w)))) by lia.
  split; [reflexivity|]. split; [reflexivity|]. split; [reflexivity|]. split; [|split].
  - intros e lim' Hw. apply (Err_no_deadline ctx' t e Hd).
    eapply Wait_enter_no_deadline; eassumption.
  - intros e lim' Hw. apply (Err_no_deadline ctx' t e Hd).
    eapply Wait_leave_error; eassumption.
  - intros o lim' Hw.
    eapply Wait_enter_never_done; [apply Background_never_done|exact Hb1|exact Hw].
Qed.

(** A context cancelled at instant 5: [Wait] entered at instant 7 fails with
    the context's error. *)
Lemma acquire_fails_only_by_cancellation_witness :
  limiter (start (Scenario.oracle 1 Scenario.three_delays) [Scenario.watch "A"]
             (Scenario.world0 ∅))
    = rate.NewLimiter (rate.Every time.Second) 1 /\
  rate.burst (limiter (start (Scenario.oracle 1 Scenario.three_delays) [Scenario.watch "A"]
                         (Scenario.world0 ∅))) = 1 /\
  rate.limit (limiter (start (Scenario.oracle 1 Scenario.three_delays) [Scenario.watch "A"]
                         (Scenario.world0 ∅))) = rate.PerInterval (1 * time.Second) /\
  (forall e lim',
     rate.Wait_enter
       (limiter (run Scenario.always_answers context.Background 2 "key"
                   (sched (Scenario.oracle 1 Scenario.three_delays)) 0 0
                   (start (Scenario.oracle 1 Scenario.three_delays) [Scenario.watch "A"]
                      (Scenario.world0 ∅))))
       (context.WithCancelAt context.Background 5) 7
       = (rate.Returned (Some e), lim') ->
     e = context.Canceled /\
     exists c, context.cancelled_at (context.WithCancelAt context.Background 5) = Some c /\
               c <= 7) /\
  (forall e lim',
     rate.Wait_leave
       (limiter (run Scenario.always_answers context.Background 2 "key"
                   (sched (Scenario.oracle 1 Scenario.three_delays)) 0 0
                   (start (Scenario.oracle 1 Scenario.three_delays) [Scenario.watch "A"]
                      (Scenario.world0 ∅))))
       (context.WithCancelAt context.Background 5)
       {| rate.ok := true; rate.r_tokens := 1; rate.timeToAct := 9;
          rate.r_limit := rate.Every time.Second |} 7 false
       = (Some e, lim') ->
     e = context.Canceled /\
     exists c, context.cancelled_at (context.WithCancelAt context.Background 5) = Some c /\
               c <= 7) /\
  (forall o lim',
     rate.Wait_enter
       (limiter (run Scenario.always_answers context.Background 2 "key"
                   (sched (Scenario.oracle 1 Scenario.three_delays)) 0 0
                   (start (Scenario.oracle 1 Scenario.three_delays) [Scenario.watch "A"]
                      (Scenario.world0 ∅))))
       context.Background 7 = (o, lim') ->
     o = rate.Returned None \/ exists r', o = rate.Blocked r').
Proof.
  apply (acquire_fails_only_by_cancellation Scenario.always_answers
           (Scenario.oracle 1 Scenario.three_delays) context.Background
           [Scenario.watch "A"] 2 "key" (Scenario.world0 ∅) 0
           (context.WithCancelAt context.Background 5) 7
           {| rate.ok := true; rate.r_tokens := 1; rate.timeToAct := 9;
              rate.r_limit := rate.Every time.Second |} false).
  reflexivity.
Defined.

(** ** The steps of a goroutine and its retry loop *)

Lemma same_but_clock_refl (w : World) : same_but_clock w w.
Proof. repeat split. Qed.

Lemma same_but_clock_set_now (w1 w2 : World) (t : Z) :
  same_but_clock w1 w2 -> same_but_clock (set_now w1 t) w2.
Proof. intros (Hf & Hc & Ht). repeat split; assumption. Qed.

(** An attempt reads the files and the trace, not the clock or the console. *)
Lemma operation_same_but_clock (E : Env) (task : nat) (videoUrl : string)
    (maxComments : Z) (developerKey : string) (w1 w2 : World) :
  same_but_clock w1 w2 ->
  fst (operation E task videoUrl maxComments developerKey w1)
    = fst (operation E task videoUrl maxComments developerKey w2) /\
  same_but_clock (snd (operation E task videoUrl maxComments developerKey w1))
                 (snd (operation E task videoUrl maxComments developerKey w2)).
Proof.
  intros (Hf & Hc & Ht). unfold operation, calls.
  destruct (youtube_New E _) as [err|service]; [split; [reflexivity|repeat split; assumption]|].
  destruct (getVideoId E videoUrl) as [videoId [err|]];
    [split; [reflexivity|repeat split; assumption]|].
  rewrite Hf, Ht.
  destruct (os.OpenFile E (files w2) _ _ _) as [[err|file] fs];
    [split; [reflexivity|repeat split; assumption]|].
  cbn [files record set_files].
  destruct (Do E _ _) as [err|response].
  - split; [reflexivity|]. repeat split; simpl; congruence.
  - destruct (write_items E _ _ _) as [[e b'] fs']. split; [reflexivity|].
    repeat split; simpl; congruence.
Qed.

(** The steps of a goroutine that stands at the head of its retry loop,
    taken with nothing in between, are the turns of [backoff.Retry]: after as
    many steps as the policy has delays and one more, the goroutine has ended
    with the result of the loop, and the world is the one the loop and the
    report of its result leave, but for the clock, which also counts the
    scheduler's delays. *)
Lemma steps_are_the_retry_loop (E : Env) (ctx : context.Context) (maxComments : Z)
    (developerKey : string) (i : nat) (sch : nat -> Choice) :
  forall (b : backoff.BackOff) (k : nat) (tk : Task) (w w0 : World) (lim : rate.Limiter)
         (wake : Z),
  pc tk = Retrying wake -> policy tk = b -> same_but_clock w w0 ->
  let '(tk', w', lim') :=
    step_task_n E ctx maxComments developerKey i sch k (S (length b)) (tk, w, lim) in
  let '(r, w1) := retry_loop E i (videoUrl tk) maxComments developerKey b w0 in
  pc tk' = Finished r /\ lim' = lim /\ same_but_clock w' (report r w1).
Proof.
  unfold retry_loop.
  induction b as [|next b IH]; intros k tk w w0 lim wake Hpc Hpol Hsame.
  - cbn [length step_task_n]. unfold step_task. rewrite Hpc, Hpol.
    unfold backoff.Retry_turn. cbn [backoff.Retry].
    set (w2 := set_now w _).
    destruct (operation_same_but_clock E i (videoUrl tk) maxComments developerKey w2 w0)
      as [Hr Hw]; [apply same_but_clock_set_now, Hsame|].
    destruct (operation E i (videoUrl tk) maxComments developerKey w2) as [r2 w2'].
    destruct (operation E i (videoUrl tk) maxComments developerKey w0) as [r0 w0'].
    simpl in Hr, Hw. subst r2. destruct Hw as (Hf & Hc & Ht).
    destruct r0 as [err|]; simpl; (split; [reflexivity|]); (split; [reflexivity|]);
      repeat split; simpl; congruence.
  - cbn [length]. change (step_task_n E ctx maxComments developerKey i sch k
                            (S (S (length b))) (tk, w, lim))
      with (step_task_n E ctx maxComments developerKey i sch (S k) (S (length b))
              (step_task E ctx maxComments developerKey i (sch k) tk w lim)).
    unfold step_task at 1. rewrite Hpc, Hpol.
    unfold backoff.Retry_turn. cbn [backoff.Retry].
    set (w2 := set_now w _).
    destruct (operation_same_but_clock E i (videoUrl tk) maxComments developerKey w2 w0)
      as [Hr Hw]; [apply same_but_clock_set_now, Hsame|].
    destruct (operation E i (videoUrl tk) maxComments developerKey w2) as [r2 w2'].
    destruct (operation E i (videoUrl tk) maxComments developerKey w0) as [r0 w0'].
    simpl in Hr, Hw. subst r2.
    destruct r0 as [err|].
    + specialize (IH (S k) (goto tk b (Retrying (now w2' + next))) w2' (sleep next w0') lim
                     (now w2' + next) eq_refl eq_refl).
      cbn [videoUrl goto] in IH. apply IH.
      destruct Hw as (Hf & Hc & Ht). repeat split; simpl; congruence.
    + assert (Hstay : forall n k0,
                 step_task_n E ctx maxComments developerKey i sch k0 n
                   (finish tk None, w2', lim) = (finish tk None, w2', lim)).
      { induction n as [|n IHn]; intros k0; [reflexivity|]. simpl. apply IHn. }
      rewrite Hstay. split; [reflexivity|]. split; [reflexivity|exact Hw].
Qed.


(** * Further properties of the code *)

(** ** What a run does to the files *)

(** A step leaves the files as they are, or is an attempt that has opened
    the sink of its locator and added bytes at its end, if any. *)
Lemma step_task_files (E : Env) (ctx : context.Context) (maxComments : Z)
    (developerKey : string) (i : nat) (c : Choice) (tk : Task) (w : World)
    (lim : rate.Limiter) :
  forall tk' w' lim',
  is_finished tk = false ->
  step_task E ctx maxComments developerKey i c tk w lim = (tk', w', lim') ->
  files w' = files w \/
  exists videoId, opens_sink E (videoUrl tk) developerKey videoId /\
                  appends_to (sink videoId) (files w) (files w').
Proof.
  intros tk' w' lim' Hf Hst.
  destruct (step_task_spec _ _ _ _ _ _ _ _ _ _ _ _ Hf Hst)
    as [(_ & _ & _ & Hfs & _)|[(_ & _ & _ & Hfs & _)|
        [(_ & e & _ & Hfs & _)|(wake & t & r & w1 & _ & _ & Hop & Hr)]]];
    try (left; exact Hfs).
  assert (Hw' : files w' = files w1).
  { destruct Hr as [(_ & _ & ->)|[(e & _ & _ & _ & ->)|(e & nx & b & t' & _ & _ & _ & _ & ->)]];
      reflexivity. }
  destruct (operation_frame _ _ _ _ _ _ _ _ Hop) as (_ & _ & Hfr).
  destruct Hfr as [(-> & _)|(id & Hopens & _ & Happ & _)].
  - left. exact Hw'.
  - right. exists id. split; [exact Hopens|]. rewrite Hw'. exact Happ.
Qed.

Lemma sinks_only_step (E : Env) (ctx : context.Context) (maxComments : Z)
    (developerKey : string) (videoUrls : list string) (fs0 : FS) :
  forall cfg i c tk tk' w' lim',
  sinks_only E videoUrls fs0 cfg -> tasks cfg !! i = Some tk -> is_finished tk = false ->
  step_task E ctx maxComments developerKey i c tk (world cfg) (limiter cfg)
    = (tk', w', lim') ->
  sinks_only E videoUrls fs0
    {| world := w'; limiter := lim'; tasks := <[i := tk']> (tasks cfg) |}.
Proof.
  intros cfg i c tk tk' w' lim' (Hstat & Hext & Hframe) Hi Hf Hst.
  split; [eapply static_step; eassumption|]. simpl.
  pose proof (static_lookup _ _ _ _ Hstat Hi) as Hurl.
  destruct (step_task_files _ _ _ _ _ _ _ _ _ _ _ _ Hf Hst)
    as [->|(id & (_ & Hid & _) & Happ)].
  { split; assumption. }
  split.
  - eapply extends_trans; [exact Hext|]. eapply appends_to_extends. exact Happ.
  - intros name Hname. rewrite <- (Hframe name Hname).
    apply (appends_to_frame _ _ _ _ Happ).
    apply (Hname (videoUrl tk) id); [|exact Hid].
    apply list_elem_of_lookup. exists i. exact Hurl.
Qed.

Lemma sinks_only_end (E : Env) (O : Oracle) (ctx : context.Context)
    (videoUrls : list string) (maxComments : Z) (developerKey : string) (w : World) :
  sinks_only E videoUrls (files w)
    (getComments_end E O ctx videoUrls maxComments developerKey w).
Proof.
  unfold getComments_end. apply run_invariant.
  - apply sinks_only_step.
  - split; [apply static_start|]. split; [apply extends_refl|]. intros name _. reflexivity.
Qed.

(** X1. Whatever the scheduler, the remote service, the file system and the
    context do, a run of [getComments] loses nothing: every file that was
    there is there afterwards, and what it held is the beginning of what it
    holds. *)
Theorem getComments_loses_nothing (E : Env) (O : Oracle) (ctx : context.Context)
    (videoUrls : list string) (maxComments : Z) (developerKey : string) (w : World)
    (name c : string) :
  files w !! name = Some c ->
  exists extra,
    files (getComments E O ctx videoUrls maxComments developerKey w) !! name
    = Some (c +:+ extra).
Proof.
  intros Hc.
  destruct (sinks_only_end E O ctx videoUrls maxComments developerKey w) as (_ & Hext & _).
  exact (Hext name c Hc).
Qed.

(** A sink that holds a line before the run begins with that line after it. *)
Lemma getComments_loses_nothing_witness :
  exists extra,
    files (getComments Scenario.always_answers (Scenario.oracle 1 Scenario.three_delays)
             context.Background [Scenario.watch "abc123"] 2 "key"
             (Scenario.world0 {[ "comments_abc123.txt" := "an older line" ]}))
      !! "comments_abc123.txt"
    = Some ("an older line" +:+ extra).
Proof.
  apply (getComments_loses_nothing Scenario.always_answers
           (Scenario.oracle 1 Scenario.three_delays) context.Background
           [Scenario.watch "abc123"] 2 "key"
           (Scenario.world0 {[ "comments_abc123.txt" := "an older line" ]})
           "comments_abc123.txt" "an older line").
  vm_compute. reflexivity.
Defined.

(** X2. A run of [getComments] touches no file but the sinks of its
    locators: a name that is the sink of none of them is, after the run,
    bound as before it (to the same content or to nothing). *)
Theorem getComments_touches_only_sinks (E : Env) (O : Oracle) (ctx : context.Context)
    (videoUrls : list string) (maxComments : Z) (developerKey : string) (w : World)
    (name : string) :
  no_sink_of E videoUrls name ->
  files (getComments E O ctx videoUrls maxComments developerKey w) !! name
  = files w !! name.
Proof.
  intros Hname.
  destruct (sinks_only_end E O ctx videoUrls maxComments developerKey w) as (_ & _ & Hframe).
  exact (Hframe name Hname).
Qed.

(** [notes.txt] is not the sink of the one locator of the run. *)
Lemma getComments_touches_only_sinks_witness :
  files (getComments Scenario.always_answers (Scenario.oracle 1 Scenario.three_delays)
           context.Background [Scenario.watch "abc123"] 2 "key"
           (Scenario.world0 {[ "notes.txt" := "kept" ]})) !! "notes.txt"
  = files (Scenario.world0 {[ "notes.txt" := "kept" ]}) !! "notes.txt".
Proof.
  apply (getComments_touches_only_sinks Scenario.always_answers
           (Scenario.oracle 1 Scenario.three_delays) context.Background
           [Scenario.watch "abc123"] 2 "key" (Scenario.world0 {[ "notes.txt" := "kept" ]})
           "notes.txt").
  intros url videoId Hin Hid. apply list_elem_of_singleton in Hin. subst url.
  vm_compute in Hid. injection Hid as <-. vm_compute. discriminate.
Defined.

(** ** What a run puts on the console *)

(** Replacing an element that does not satisfy [p]: the count goes up by
    one if the new one does, and stays if it does not. *)
Lemma count_insert (p : Task -> bool) (ts : list Task) (i : nat) (tk tk' : Task) :
  ts !! i = Some tk -> p tk = false ->
  count p (<[i := tk']> ts) = ((if p tk' then 1 else 0) + count p ts)%nat.
Proof.
  intros Hi Hp. unfold count.
  rewrite insert_take_drop by (eapply lookup_lt_Some; exact Hi).
  rewrite <- (take_drop_middle ts i tk Hi) at 3.
  rewrite !filter_app, !length_app.
  rewrite (filter_cons_False _ tk) by (rewrite Hp; discriminate).
  destruct (p tk') eqn:Hp'.
  - rewrite filter_cons_True by exact Hp'. simpl. lia.
  - rewrite filter_cons_False by (rewrite Hp'; discriminate). simpl. lia.
Qed.

Lemma unfinished_not_failed (tk : Task) : is_finished tk = false -> failed tk = false.
Proof. unfold is_finished, failed. destruct (pc tk) as [| | |[e|]]; (discriminate || reflexivity). Qed.

Lemma one_line_each_step (E : Env) (ctx : context.Context) (maxComments : Z)
    (developerKey : string) (c0 : list (string * error)) :
  forall cfg i c tk tk' w' lim',
  one_line_each c0 cfg -> tasks cfg !! i = Some tk -> is_finished tk = false ->
  step_task E ctx maxComments developerKey i c tk (world cfg) (limiter cfg)
    = (tk', w', lim') ->
  one_line_each c0 {| world := w'; limiter := lim'; tasks := <[i := tk']> (tasks cfg) |}.
Proof.
  intros cfg i c tk tk' w' lim' (added & Hcon & Hlen) Hi Hf Hst.
  unfold one_line_each. simpl.
  rewrite (count_insert failed _ _ _ tk' Hi (unfinished_not_failed _ Hf)).
  assert (Hcase : (console w' = console (world cfg) /\ failed tk' = false) \/
                  (exists x, console w' = console (world cfg) ++ [x] /\ failed tk' = true)).
  { unfold failed.
    destruct (step_task_spec _ _ _ _ _ _ _ _ _ _ _ _ Hf Hst)
      as [(_ & [t Ht] & _ & _ & Hc & _)|[(_ & [r Hr] & _ & _ & Hc & _)|
          [(_ & e & He & _ & Hc & _)|(wake & t & r & w1 & _ & _ & Hop & Hr)]]].
    - left. rewrite Ht. split; [exact Hc|reflexivity].
    - left. rewrite Hr. split; [exact Hc|reflexivity].
    - right. eexists. rewrite He. split; [exact Hc|reflexivity].
    - destruct (operation_frame _ _ _ _ _ _ _ _ Hop) as (Hc & _).
      destruct Hr as [(_ & Hp & ->)|[(e & _ & _ & Hp & ->)|(e & nx & b & t' & _ & _ & _ & Hp & ->)]];
        rewrite Hp.
      + left. split; [exact Hc|reflexivity].
      + right. eexists. split; [simpl; rewrite Hc; reflexivity|reflexivity].
      + left. split; [exact Hc|reflexivity]. }
  destruct Hcase as [[Hc ->]|(x & Hc & ->)].
  - exists added. split; [rewrite Hc; exact Hcon|exact Hlen].
  - exists (added ++ [x]). split.
    + rewrite Hc, Hcon, app_assoc. reflexivity.
    + rewrite length_app. simpl. lia.
Qed.

Lemma count_spawn_zero (p : Task -> bool) (O : Oracle) (videoUrls : list string) :
  (forall tk, pc tk = Pending -> p tk = false) -> count p (spawn O videoUrls) = 0%nat.
Proof.
  intros Hp. unfold count.
  pose proof (spawn_pending O videoUrls) as Hall.
  induction Hall as [|tk ts Htk _ IH]; [reflexivity|].
  rewrite filter_cons_False by (rewrite (Hp _ Htk); discriminate). exact IH.
Qed.

(** X3. A run of [getComments] prints one diagnostic for each goroutine
    that fails and none for one that succeeds: the console after the run is
    the console before it followed by as many lines as goroutines have ended
    with an error. *)
Theorem one_diagnostic_for_each_failure (E : Env) (O : Oracle) (ctx : context.Context)
    (videoUrls : list string) (maxComments : Z) (developerKey : string) (w : World) :
  exists added,
    console (getComments E O ctx videoUrls maxComments developerKey w)
      = console w ++ added /\
    length added
      = count failed (tasks (getComments_end E O ctx videoUrls maxComments developerKey w)).
Proof.
  unfold getComments, getComments_end.
  apply (run_invariant E ctx maxComments developerKey (sched O) (one_line_each (console w))).
  - apply one_line_each_step.
  - exists []. split; [simpl; rewrite app_nil_r; reflexivity|].
    simpl. symmetry. apply count_spawn_zero. intros tk Hpc. unfold failed. rewrite Hpc.
    reflexivity.
Qed.

(** ** How many calls a goroutine issues *)

Lemma calls_of_length (i : nat) (w : World) : length (calls_of i w) = ncalls i (trace w).
Proof.
  unfold calls_of, events_of, ncalls.
  generalize (filter (fun ev => task_of ev = i) (trace w)). intros l.
  induction l as [|ev l IH]; [reflexivity|].
  rewrite reverse_cons, filter_app, length_app, IH.
  destruct (is_call ev) eqn:Hev.
  - rewrite (filter_cons_True _ ev l) by exact Hev.
    rewrite (filter_cons_True _ ev []) by exact Hev. simpl. lia.
  - rewrite (filter_cons_False _ ev l) by (rewrite Hev; discriminate).
    rewrite (filter_cons_False _ ev []) by (rewrite Hev; discriminate). simpl. lia.
Qed.

Lemma ncalls_other (i : nat) (ev : Event) (l : list Event) :
  task_of ev <> i -> ncalls i (ev :: l) = ncalls i l.
Proof. intros H. unfold ncalls. rewrite filter_cons_False by exact H. reflexivity. Qed.

Lemma ncalls_permit (i j : nat) (l : list Event) : ncalls i (EvPermit j :: l) = ncalls i l.
Proof.
  unfold ncalls. destruct (decide (j = i)) as [->|Hne].
  - rewrite filter_cons_True by reflexivity.
    rewrite filter_cons_False by (simpl; discriminate). reflexivity.
  - rewrite filter_cons_False by (simpl; congruence). reflexivity.
Qed.

Lemma ncalls_call (i : nat) (videoId : string) (l : list Event) :
  ncalls i (EvCall i videoId :: l) = S (ncalls i l).
Proof.
  unfold ncalls. rewrite filter_cons_True by reflexivity.
  rewrite filter_cons_True by reflexivity. reflexivity.
Qed.

Lemma spawn_policy (O : Oracle) (videoUrls : list string) (i : nat) (tk : Task) :
  spawn O videoUrls !! i = Some tk -> policy tk = delays O i.
Proof.
  unfold spawn. rewrite list_lookup_imap.
  destruct (videoUrls !! i); [|discriminate]. intros [= <-]. reflexivity.
Qed.

Lemma within_budget_step (E : Env) (ctx : context.Context) (maxComments : Z)
    (developerKey : string) (O : Oracle) (i : nat) :
  forall cfg j c tk tk' w' lim',
  within_budget O i cfg -> tasks cfg !! j = Some tk -> is_finished tk = false ->
  step_task E ctx maxComments developerKey j c tk (world cfg) (limiter cfg)
    = (tk', w', lim') ->
  within_budget O i {| world := w'; limiter := lim'; tasks := <[j := tk']> (tasks cfg) |}.
Proof.
  intros cfg j c tk tk' w' lim' Hin Hj Hf Hst. unfold within_budget in *.
  cbn [world tasks]. rewrite !calls_of_length in *.
  pose proof (step_task_spec _ _ _ _ _ _ _ _ _ _ _ _ Hf Hst) as Hspec.
  destruct (decide (j = i)) as [->|Hne].
  - rewrite list_lookup_insert_eq by (eapply lookup_lt_Some; exact Hj).
    rewrite Hj in Hin.
    destruct Hspec as [(Hpc & [t Ht] & Hpol & _ & _ & Htr)|[(Hpc & [r Hr] & Hpol & _ & _ & Htr)|
        [(Hpc & e & He & _ & _ & Htr & _)|(wake & t & r & w1 & Hpc & _ & Hop & Hr)]]].
    + rewrite Ht, Hpol, Htr, ncalls_permit.
      destruct Hpc as [Hpc|[r Hpc]]; rewrite Hpc in Hin; destruct Hin as [-> ->]; simpl; lia.
    + rewrite Hr, Hpol, Htr. rewrite Hpc in Hin. exact Hin.
    + rewrite He, Htr.
      destruct Hpc as [Hpc|[r Hpc]]; rewrite Hpc in Hin; destruct Hin as [-> _]; lia.
    + rewrite Hpc in Hin.
      assert (Hn : (ncalls i (trace w1) <= 1 + ncalls i (trace (world cfg)))%nat).
      { destruct (operation_frame _ _ _ _ _ _ _ _ Hop) as (_ & _ & Hfr).
        destruct Hfr as [(-> & _)|(id & _ & -> & _)]; [simpl; lia|].
        rewrite ncalls_call. simpl. lia. }
      destruct Hr as [(_ & Hp & ->)|[(e & _ & _ & Hp & ->)|(e & nx & b & t' & _ & Hb & Hb' & Hp & ->)]];
        rewrite Hp; cbn [trace color_Red].
      * lia.
      * lia.
      * rewrite Hb'. rewrite Hb in Hin. simpl in Hin. lia.
  - rewrite list_lookup_insert_ne by congruence.
    assert (Hsame : ncalls i (trace w') = ncalls i (trace (world cfg))).
    { destruct (step_task_trace _ _ _ _ _ _ _ _ _ _ _ _ Hf Hst)
        as [(-> & _)|[(-> & _)|(id & -> & _)]]; [reflexivity|apply ncalls_permit|].
      apply ncalls_other. simpl. exact Hne. }
    rewrite Hsame. exact Hin.
Qed.

(** X4. A goroutine issues at most one remote call more than its backoff
    policy grants delays: the retry budget bounds the calls a failing video
    can cost, whatever the remote service answers. *)
Theorem calls_within_the_budget (E : Env) (O : Oracle) (ctx : context.Context)
    (videoUrls : list string) (maxComments : Z) (developerKey : string) (w : World)
    (i : nat) :
  trace w = [] ->
  (length (calls_of i (getComments E O ctx videoUrls maxComments developerKey w))
   <= 1 + length (delays O i))%nat.
Proof.
  intros Htr. unfold getComments.
  assert (Hin : within_budget O i
                  (getComments_end E O ctx videoUrls maxComments developerKey w)).
  { unfold getComments_end. apply run_invariant; [apply within_budget_step|].
    unfold within_budget. rewrite calls_of_length. simpl. rewrite Htr.
    change (ncalls i []) with 0%nat.
    destruct (spawn O videoUrls !! i) as [tk|] eqn:Htk; [|reflexivity].
    pose proof (spawn_pending O videoUrls) as Hall. rewrite Forall_lookup in Hall.
    rewrite (Hall _ _ Htk). split; [reflexivity|]. eapply spawn_policy. exact Htk. }
  unfold within_budget in Hin.
  destruct (tasks _ !! i) as [tk|]; [|lia].
  destruct (pc tk); lia.
Qed.

(** Three delays: four calls at most, also when every call fails. *)
Lemma calls_within_the_budget_witness :
  (length (calls_of 0 (getComments Scenario.always_fails
                         (Scenario.oracle 1 Scenario.three_delays) context.Background
                         [Scenario.watch "abc123"] 2 "key" (Scenario.world0 ∅)))
   <= 1 + length (delays (Scenario.oracle 1 Scenario.three_delays) 0))%nat.
Proof.
  apply (calls_within_the_budget Scenario.always_fails
           (Scenario.oracle 1 Scenario.three_delays) context.Background
           [Scenario.watch "abc123"] 2 "key" (Scenario.world0 ∅) 0%nat).
  reflexivity.
Defined.

(** ** A context that is done before the run begins *)

Lemma Wait_enter_done (lim : rate.Limiter) (ctx : context.Context) (t : Z) (e : error) :
  rate.burst lim = 1 -> context.Err ctx t = Some e ->
  rate.Wait_enter lim ctx t = (rate.Returned (Some e), lim).
Proof. intros Hb He. unfold rate.Wait_enter. rewrite Hb, He. reflexivity. Qed.

Lemma count_all (p : Task -> bool) (ts : list Task) :
  Forall (fun tk => p tk = true) ts -> count p ts = length ts.
Proof.
  unfold count. induction 1 as [|tk ts Htk _ IH]; [reflexivity|].
  rewrite filter_cons_True by exact Htk. simpl. rewrite IH. reflexivity.
Qed.

Lemma turned_away_step (E : Env) (ctx : context.Context) (maxComments : Z)
    (developerKey : string) (videoUrls : list string) (e : error) (w0 : World) :
  (forall t, now w0 <= t -> context.Err ctx t = Some e) ->
  forall cfg i c tk tk' w' lim',
  turned_away videoUrls e w0 cfg -> tasks cfg !! i = Some tk -> is_finished tk = false ->
  step_task E ctx maxComments developerKey i c tk (world cfg) (limiter cfg)
    = (tk', w', lim') ->
  turned_away videoUrls e w0
    {| world := w'; limiter := lim'; tasks := <[i := tk']> (tasks cfg) |}.
Proof.
  intros Hdone cfg i c tk tk' w' lim' (Hstat & Hnow & Hfs & Htr & Hall & Hcon) Hi Hf Hst.
  assert (Hpc : pc tk = Pending).
  { rewrite Forall_lookup in Hall. destruct (Hall _ _ Hi) as [H|H]; [exact H|].
    unfold is_finished in Hf. rewrite H in Hf. discriminate. }
  pose proof (static_step _ _ _ _ _ _ _ _ _ _ _ _ Hstat Hi Hf Hst) as Hstat'.
  unfold step_task in Hst. rewrite Hpc in Hst. cbv zeta in Hst.
  rewrite (Wait_enter_done _ _ _ e) in Hst;
    [|destruct Hstat as [Hb _]; exact Hb|apply Hdone; lia].
  injection Hst as <- <- <-.
  split; [exact Hstat'|]. cbn [world tasks color_Red set_now now files trace console].
  split; [lia|]. split; [exact Hfs|]. split; [exact Htr|]. split.
  - apply Forall_insert; [exact Hall|]. right. reflexivity.
  - rewrite (count_insert is_finished _ _ _ _ Hi Hf).
    change (is_finished (finish tk (Some e))) with true. cbv iota.
    rewrite Nat.add_1_l, replicate_S_end, Hcon, app_assoc. reflexivity.
Qed.

(** X5. Under a context that is done before the run begins, no goroutine
    gets past the limiter: no file is opened and no remote call issued, and
    the console gets the context's error once for every locator. *)
Theorem a_done_context_stops_every_goroutine (E : Env) (O : Oracle) (ctx : context.Context)
    (videoUrls : list string) (maxComments : Z) (developerKey : string) (w : World)
    (e : error) :
  (forall t, now w <= t -> context.Err ctx t = Some e) ->
  files (getComments E O ctx videoUrls maxComments developerKey w) = files w /\
  trace (getComments E O ctx videoUrls maxComments developerKey w) = trace w /\
  console (getComments E O ctx videoUrls maxComments developerKey w)
    = console w ++ replicate (length videoUrls) ("Rate limit error: %v", e).
Proof.
  intros Hdone.
  assert (Hin : turned_away videoUrls e w
                  (getComments_end E O ctx videoUrls maxComments developerKey w)).
  { unfold getComments_end. apply run_invariant; [apply turned_away_step; exact Hdone|].
    split; [apply static_start|]. cbn [world start tasks].
    split; [lia|]. split; [reflexivity|]. split; [reflexivity|]. split.
    - eapply Forall_impl; [apply spawn_pending|]. intros tk Htk. left. exact Htk.
    - rewrite count_spawn_zero by (intros tk Htk; unfold is_finished; rewrite Htk; reflexivity).
      simpl. rewrite app_nil_r. reflexivity. }
  destruct Hin as ((_ & _ & Hurls) & _ & Hfs & Htr & _ & Hcon).
  unfold getComments. split; [exact Hfs|]. split; [exact Htr|].
  rewrite Hcon, (count_all _ _ (getComments_returns E O ctx videoUrls maxComments developerKey w)).
  f_equal. f_equal. rewrite <- Hurls at 2. rewrite length_fmap. reflexivity.
Qed.

(** A context cancelled at instant 0, and two locators. *)
Lemma a_done_context_stops_every_goroutine_witness :
  files (getComments Scenario.always_answers (Scenario.oracle 1 Scenario.three_delays)
           (context.WithCancelAt context.Background 0)
           [Scenario.watch "A"; Scenario.watch "B"] 2 "key" (Scenario.world0 ∅))
    = files (Scenario.world0 ∅) /\
  trace (getComments Scenario.always_answers (Scenario.oracle 1 Scenario.three_delays)
           (context.WithCancelAt context.Background 0)
           [Scenario.watch "A"; Scenario.watch "B"] 2 "key" (Scenario.world0 ∅))
    = trace (Scenario.world0 ∅) /\
  console (getComments Scenario.always_answers (Scenario.oracle 1 Scenario.three_delays)
             (context.WithCancelAt context.Background 0)
             [Scenario.watch "A"; Scenario.watch "B"] 2 "key" (Scenario.world0 ∅))
    = console (Scenario.world0 ∅)
      ++ replicate (length [Scenario.watch "A"; Scenario.watch "B"])
           ("Rate limit error: %v", context.Canceled).
Proof.
  apply (a_done_context_stops_every_goroutine Scenario.always_answers
           (Scenario.oracle 1 Scenario.three_delays) (context.WithCancelAt context.Background 0)
           [Scenario.watch "A"; Scenario.watch "B"] 2 "key" (Scenario.world0 ∅)
           context.Canceled).
  intros t Ht. simpl in Ht. unfold context.Err. simpl.
  destruct (Z.leb_spec 0 t); [reflexivity|lia].
Defined.

(** ** Retries and the lines of the sink *)

Lemma calls_record_call (task : nat) (videoId : string) (w : World) :
  calls (record (EvCall task videoId) w) = S (calls w).
Proof.
  unfold calls. cbn [trace record]. rewrite filter_cons_True by reflexivity. reflexivity.
Qed.

(** X6. Failed calls leave no lines behind: when the remote service fails
    the first [k] calls of a retry loop and answers the next, within the
    policy's delays, the loop returns no error and the sink has gained the
    lines of that answer once, after [k + 1] calls. *)
Theorem retries_write_the_lines_once (E : Env) (task : nat) (videoUrl : string)
    (maxComments : Z) (developerKey : string) (service : youtube.Service) (u : url.URL)
    (response : youtube.CommentThreadListResponse) :
  forall (k : nat) (b : backoff.BackOff) (w : World),
  youtube_New E {| youtube.Transport_APIKey_Key := developerKey |} = inr service ->
  url_Parse E videoUrl = inr u ->
  open_refused E (sink (url.Get (url.Query u) "v")) = None ->
  writes_ok E (sink (url.Get (url.Query u) "v")) ->
  (k <= length b)%nat ->
  (forall j, (j < k)%nat ->
     exists err, Do E (call_for service (url.Get (url.Query u) "v") maxComments)
                   (calls w + j) = inl err) ->
  Do E (call_for service (url.Get (url.Query u) "v") maxComments) (calls w + k)
    = inr response ->
  exists w',
    retry_loop E task videoUrl maxComments developerKey b w = (None, w') /\
    files w' = <[sink (url.Get (url.Query u) "v") :=
                   content (files w) (sink (url.Get (url.Query u) "v"))
                   +:+ lines (youtube.Items response)]> (files w) /\
    calls w' = (calls w + k + 1)%nat.
Proof.
  set (videoId := url.Get (url.Query u) "v").
  intros k. induction k as [|k IH]; intros b w Hnew Hparse Hopen Hok Hk Hfail Hdo.
  - rewrite Nat.add_0_r in Hdo.
    pose proof (operation_succeeds E task videoUrl maxComments developerKey w service u
                  response Hnew Hparse Hopen Hok Hdo) as Hop.
    fold videoId in Hop. unfold retry_loop. rewrite Retry_unfold.
    unfold backoff.Retry_turn. rewrite Hop.
    eexists. split; [reflexivity|]. split; [reflexivity|].
    rewrite calls_record_call. change (calls (set_files w _)) with (calls w). lia.
  - destruct b as [|next b]; [simpl in Hk; lia|]. simpl in Hk.
    destruct (Hfail 0%nat ltac:(lia)) as [err Herr]. rewrite Nat.add_0_r in Herr.
    pose proof (operation_call_failed E task videoUrl maxComments developerKey w service u
                  err Hnew Hparse Hopen Herr) as Hop.
    fold videoId in Hop. unfold retry_loop.
    rewrite (Retry_failed sleep _ next b w _ _ Hop).
    set (w1 := sleep next _).
    assert (Hcalls : calls w1 = S (calls w)).
    { unfold w1, sleep. exact (calls_record_call task videoId (set_files w _)). }
    destruct (IH b w1 Hnew Hparse Hopen Hok ltac:(lia)) as (w' & Hrun & Hfs & Hn).
    + intros j Hj. rewrite Hcalls. replace (S (calls w) + j)%nat with (calls w + S j)%nat by lia.
      apply Hfail. lia.
    + rewrite Hcalls. replace (S (calls w) + k)%nat with (calls w + S k)%nat by lia. exact Hdo.
    + exists w'. split; [exact Hrun|]. split; [|lia].
      rewrite Hfs. unfold w1, sleep. cbn [files set_now record set_files].
      rewrite content_insert, insert_insert_eq. reflexivity.
Qed.

(** The service fails the first call and answers the second. *)
Lemma retries_write_the_lines_once_witness :
  exists w',
    retry_loop Scenario.fails_once 0 (Scenario.watch "abc123") 2 "key"
      Scenario.three_delays (Scenario.world0 ∅) = (None, w') /\
    files w' = <[sink (url.Get (url.Query (Scenario.watch_url "abc123")) "v") :=
                   content (files (Scenario.world0 ∅))
                     (sink (url.Get (url.Query (Scenario.watch_url "abc123")) "v"))
                   +:+ lines (youtube.Items Scenario.alice_bob)]>
                 (files (Scenario.world0 ∅)) /\
    calls w' = (calls (Scenario.world0 ∅) + 1 + 1)%nat.
Proof.
  apply (retries_write_the_lines_once Scenario.fails_once 0 (Scenario.watch "abc123") 2
           "key" Scenario.service (Scenario.watch_url "abc123") Scenario.alice_bob
           1 Scenario.three_delays (Scenario.world0 ∅)).
  - reflexivity.
  - vm_compute. reflexivity.
  - reflexivity.
  - intros c p. reflexivity.
  - simpl. lia.
  - intros j Hj. destruct j; [|lia]. exists Scenario.unavailable. reflexivity.
  - reflexivity.
Defined.

(** ** Write errors at the deferred flush *)

(** A line that fits into what is left of the buffer is only buffered. *)
Lemma Writer_Write_buffers (E : Env) (b : bufio.Writer) (p : string) (fs : FS) :
  bufio.err b = None ->
  (bufio.Buffered b + String.length p <= bufio.defaultBufSize)%nat ->
  bufio.Writer_Write E b p fs =
    (String.length p, None,
     {| bufio.err := None; bufio.buf := bufio.buf b +:+ p; bufio.wr := bufio.wr b |}, fs).
Proof.
  intros He Hfit. unfold bufio.Writer_Write. cbn [bufio.Write_loop].
  assert (Hlt : (bufio.Available b <? String.length p)%nat = false).
  { apply Nat.ltb_ge. unfold bufio.Available. lia. }
  rewrite Hlt. cbn [andb]. rewrite He. reflexivity.
Qed.

Lemma write_items_buffers (E : Env) (items : list youtube.CommentThread) :
  forall (b : bufio.Writer) (fs : FS),
  bufio.err b = None ->
  (bufio.Buffered b + String.length (lines items) <= bufio.defaultBufSize)%nat ->
  write_items E b items fs =
    (None,
     {| bufio.err := None; bufio.buf := bufio.buf b +:+ lines items; bufio.wr := bufio.wr b |},
     fs).
Proof.
  assert (Hcons : forall item items, lines (item :: items) = line item +:+ lines items)
    by reflexivity.
  induction items as [|item items IH]; intros b fs He.
  { intros _. cbn [write_items lines fold_right]. rewrite append_nil_r.
    destruct b as [e bf f]. simpl in He. subst e. reflexivity. }
  rewrite Hcons. unfold line. cbn [write_items]. cbv zeta. unfold bufio.Fprintf.
  set (p := Sprintf _ _). clearbody p. intros Hfit.
  rewrite length_append in Hfit.
  rewrite (Writer_Write_buffers E b p fs He) by lia.
  rewrite IH.
  - cbn [bufio.buf bufio.wr]. rewrite append_assoc. reflexivity.
  - reflexivity.
  - unfold bufio.Buffered in *. cbn [bufio.buf]. rewrite length_append. lia.
Qed.

(** When the system refuses every write to the file, the deferred flush
    changes nothing, and its error is dropped. *)
Lemma deferred_refused (E : Env) (b : bufio.Writer) (fs : FS) :
  (forall content p, write_refused E (os.name (bufio.wr b)) content p <> None) ->
  deferred E b fs = fs.
Proof.
  intros Hno. unfold deferred, bufio.Flush.
  destruct (bufio.err b); [reflexivity|].
  destruct (bufio.Buffered b =? 0)%nat; [reflexivity|].
  unfold os.File_Write.
  destruct (negb _); [reflexivity|].
  destruct (write_refused E _ _ _) eqn:Hw; [reflexivity|].
  exfalso. exact (Hno _ _ Hw).
Qed.

(** X7. A write error at the deferred flush goes unnoticed: when the lines
    of the answer fit into the writer's buffer and the system refuses every
    write to the sink, the attempt stores no line and still returns no error,
    so that nothing is retried and nothing reported. *)
Theorem a_refused_flush_is_not_an_error (E : Env) (task : nat) (videoUrl : string)
    (maxComments : Z) (developerKey : string) (w : World) (service : youtube.Service)
    (u : url.URL) (response : youtube.CommentThreadListResponse) :
  youtube_New E {| youtube.Transport_APIKey_Key := developerKey |} = inr service ->
  url_Parse E videoUrl = inr u ->
  open_refused E (sink (url.Get (url.Query u) "v")) = None ->
  Do E (call_for service (url.Get (url.Query u) "v") maxComments) (calls w) = inr response ->
  (String.length (lines (youtube.Items response)) <= bufio.defaultBufSize)%nat ->
  (forall content p, write_refused E (sink (url.Get (url.Query u) "v")) content p <> None) ->
  exists w',
    operation E task videoUrl maxComments developerKey w = (None, w') /\
    content (files w') (sink (url.Get (url.Query u) "v"))
      = content (files w) (sink (url.Get (url.Query u) "v")).
Proof.
  set (videoId := url.Get (url.Query u) "v").
  intros Hnew Hparse Hopen Hdo Hfit Hno. unfold operation.
  rewrite Hnew, (getVideoId_parsed _ _ _ Hparse).
  fold videoId. fold (sink videoId). fold sink_flag.
  rewrite OpenFile_sink, Hopen.
  fold (call_for service videoId maxComments). rewrite Hdo.
  cbn [files record set_files].
  rewrite write_items_buffers; [|reflexivity|exact Hfit].
  rewrite deferred_refused by exact Hno.
  eexists. split; [reflexivity|]. cbn [files]. apply content_insert.
Qed.

(** The disk is full: the attempt returns no error, and the sink is as empty
    as it was. *)
Lemma a_refused_flush_is_not_an_error_witness :
  exists w',
    operation Scenario.disk_full 0 (Scenario.watch "abc123") 2 "key" (Scenario.world0 ∅)
      = (None, w') /\
    content (files w') (sink (url.Get (url.Query (Scenario.watch_url "abc123")) "v"))
      = content (files (Scenario.world0 ∅))
          (sink (url.Get (url.Query (Scenario.watch_url "abc123")) "v")).
Proof.
  apply (a_refused_flush_is_not_an_error Scenario.disk_full 0 (Scenario.watch "abc123") 2
           "key" (Scenario.world0 ∅) Scenario.service (Scenario.watch_url "abc123")
           Scenario.alice_bob).
  - reflexivity.
  - vm_compute. reflexivity.
  - reflexivity.
  - reflexivity.
  - apply Nat.leb_le. vm_compute. reflexivity.
  - intros c p. discriminate.
Defined.

(** ** One locator, run again *)

(** X8. Nothing keeps a second run from storing the same comments again:
    two runs of [getComments] for one locator, one after the other, leave the
    sink with what it held and, after it, the lines of the answer twice. *)
Theorem a_second_run_appends_again (E : Env) (O1 O2 : Oracle) (ctx : context.Context)
    (videoUrl : string) (maxComments : Z) (developerKey : string) (w : World)
    (u : url.URL) (service : youtube.Service)
    (response : youtube.CommentThreadListResponse) :
  never_done ctx ->
  youtube_New E {| youtube.Transport_APIKey_Key := developerKey |} = inr service ->
  url_Parse E videoUrl = inr u ->
  open_refused E (sink (url.Get (url.Query u) "v")) = None ->
  writes_ok E (sink (url.Get (url.Query u) "v")) ->
  (forall k, Do E (call_for service (url.Get (url.Query u) "v") maxComments) k
             = inr response) ->
  files (getComments E O2 ctx [videoUrl] maxComments developerKey
           (getComments E O1 ctx [videoUrl] maxComments developerKey w))
    !! sink (url.Get (url.Query u) "v")
  = Some (content (files w) (sink (url.Get (url.Query u) "v"))
          +:+ lines (youtube.Items response) +:+ lines (youtube.Items response)).
Proof.
  intros Hctx Hnew Hparse Hopen Hwrite Hdo.
  assert (Hothers : forall j url', j <> 0%nat -> [videoUrl] !! j = Some url' ->
                    getVideoId E url' <> (url.Get (url.Query u) "v", None)).
  { intros [|j] url' Hj; [contradiction|]. discriminate. }
  destruct (undisturbed_end E ctx maxComments developerKey [videoUrl] 0 videoUrl u service
              response (content (files w) (sink (url.Get (url.Query u) "v")))
              Hctx eq_refl Hnew Hparse Hopen Hwrite Hdo Hothers O1 w eq_refl)
    as (_ & _ & _ & Hfirst).
  destruct (undisturbed_end E ctx maxComments developerKey [videoUrl] 0 videoUrl u service
              response
              (content (files w) (sink (url.Get (url.Query u) "v"))
               +:+ lines (youtube.Items response))
              Hctx eq_refl Hnew Hparse Hopen Hwrite Hdo Hothers O2
              (getComments E O1 ctx [videoUrl] maxComments developerKey w)
              (content_Some _ _ _ Hfirst))
    as (_ & _ & _ & Hsecond).
  rewrite Hsecond, append_assoc. reflexivity.
Qed.

Lemma a_second_run_appends_again_witness :
  files (getComments Scenario.always_answers (Scenario.oracle 3 Scenario.three_delays)
           context.Background [Scenario.watch "abc123"] 2 "key"
           (getComments Scenario.always_answers (Scenario.oracle 1 Scenario.three_delays)
              context.Background [Scenario.watch "abc123"] 2 "key" (Scenario.world0 ∅)))
    !! sink (url.Get (url.Query (Scenario.watch_url "abc123")) "v")
  = Some (content (files (Scenario.world0 ∅))
            (sink (url.Get (url.Query (Scenario.watch_url "abc123")) "v"))
          +:+ lines (youtube.Items Scenario.alice_bob)
          +:+ lines (youtube.Items Scenario.alice_bob)).
Proof.
  apply (a_second_run_appends_again Scenario.always_answers
           (Scenario.oracle 1 Scenario.three_delays) (Scenario.oracle 3 Scenario.three_delays)
           context.Background (Scenario.watch "abc123") 2 "key" (Scenario.world0 ∅)
           (Scenario.watch_url "abc123") Scenario.service Scenario.alice_bob).
  - reflexivity.
  - reflexivity.
  - vm_compute. reflexivity.
  - reflexivity.
  - intros c p. reflexivity.
  - intros k. reflexivity.
Defined.

(** ** A run for one locator, as [main] starts them *)

(** While the context is not done at [t], its deadline, if it has one, is
    still to come. *)
Lemma Err_None_before_deadline (ctx : context.Context) (t d : Z) :
  context.Err ctx t = None -> context.Deadline ctx = Some d -> t < d.
Proof.
  unfold context.Err. intros He Hd. rewrite Hd in He.
  destruct (context.cancelled_at ctx) as [c|].
  - destruct (Z.leb_spec c d).
    + destruct (Z.leb_spec c t); [discriminate|lia].
    + destruct (Z.leb_spec d t); [discriminate|lia].
  - destruct (Z.leb_spec d t); [discriminate|lia].
Qed.

(** The limiter as [getComments] makes it grants its first permit without a
    wait, whatever the instant and the context. *)
Lemma Wait_enter_fresh (ctx : context.Context) (t : Z) :
  forall o lim',
  rate.Wait_enter (rate.NewLimiter (rate.Every time.Second) 1) ctx t = (o, lim') ->
  forall r, o <> rate.Blocked r.
Proof.
  intros o lim' Hw r ->. unfold rate.Wait_enter in Hw.
  change (rate.burst (rate.NewLimiter (rate.Every time.Second) 1)) with 1 in Hw.
  change (rate.limit (rate.NewLimiter (rate.Every time.Second) 1))
    with (rate.PerInterval time.Second) in Hw.
  cbn [Z.ltb Z.compare Pos.compare Pos.compare_cont andb negb] in Hw.
  destruct (context.Err ctx t) eqn:He; [discriminate|].
  unfold rate.reserveN, rate.advance in Hw.
  change (rate.burst (rate.NewLimiter (rate.Every time.Second) 1)) with 1 in Hw.
  change (rate.limit (rate.NewLimiter (rate.Every time.Second) 1))
    with (rate.PerInterval time.Second) in Hw.
  change (rate.tokens (rate.NewLimiter (rate.Every time.Second) 1)) with time.Second in Hw.
  change (rate.last (rate.NewLimiter (rate.Every time.Second) 1)) with 0 in Hw.
  cbn [rate.interval_of] in Hw.
  set (elapsed := t - (if t <? 0 then t else 0)) in Hw.
  assert (Hel : 0 <= elapsed) by (unfold elapsed; destruct (Z.ltb_spec t 0); lia).
  assert (Hmin : Z.min (time.Second + elapsed) (1 * time.Second) - 1 * time.Second = 0)
    by (unfold time.Second in *; lia).
  rewrite Hmin in Hw. cbn [Z.ltb Z.compare] in Hw.
  assert (Hok : (1 <=? 1) && match match context.Deadline ctx with
                                   | Some deadline => Some (deadline - t)
                                   | None => None
                                   end with
                             | Some m => 0 <=? m
                             | None => true
                             end = true).
  { destruct (context.Deadline ctx) as [d|] eqn:Hd; [|reflexivity].
    pose proof (Err_None_before_deadline ctx t d He Hd). simpl.
    apply Z.leb_le. lia. }
  rewrite Hok in Hw. cbn [rate.ok rate.timeToAct negb] in Hw.
  replace (t + 0 - t) with 0 in Hw by lia. cbn in Hw. discriminate.
Qed.

Lemma served_at_once_step (E : Env) (ctx : context.Context) (maxComments : Z)
    (developerKey : string) :
  forall cfg i c tk tk' w' lim',
  served_at_once cfg -> tasks cfg !! i = Some tk -> is_finished tk = false ->
  step_task E ctx maxComments developerKey i c tk (world cfg) (limiter cfg)
    = (tk', w', lim') ->
  served_at_once {| world := w'; limiter := lim'; tasks := <[i := tk']> (tasks cfg) |}.
Proof.
  intros cfg i c tk tk' w' lim' (tk0 & Hts & Hinv) Hi Hf Hst.
  rewrite Hts in Hi. destruct i as [|i]; [|discriminate]. injection Hi as ->.
  exists tk'. cbn [tasks]. rewrite Hts. split; [reflexivity|].
  unfold step_task in Hst. destruct (pc tk) as [|r|wake|o] eqn:Hpc.
  - cbv zeta in Hst. rewrite Hinv in Hst.
    destruct (rate.Wait_enter _ ctx _) as [[[e|]|r] lim1] eqn:Hw;
      injection Hst as <- <- <-; try exact I.
    exfalso. exact (Wait_enter_fresh _ _ _ _ Hw r eq_refl).
  - contradiction.
  - cbv zeta in Hst.
    destruct (backoff.Retry_turn _ _ _) as [[[e|]|[b' next]] w1];
      injection Hst as <- <- <-; exact I.
  - unfold is_finished in Hf. rewrite Hpc in Hf. discriminate.
Qed.

(** X9. In a run for a single locator, which is how [main] calls
    [getComments], the goroutine never sleeps in the limiter: whatever the
    context and the instant, after any number of steps it is the one
    goroutine of the run and is not waiting for its permit. *)
Theorem a_single_locator_never_waits (E : Env) (O : Oracle) (ctx : context.Context)
    (videoUrl : string) (maxComments : Z) (developerKey : string) (w : World) (n : nat) :
  exists tk,
    tasks (run E ctx maxComments developerKey (sched O) 0 n (start O [videoUrl] w)) = [tk] /\
    forall r, pc tk <> InWait r.
Proof.
  assert (Hin : served_at_once
                  (run E ctx maxComments developerKey (sched O) 0 n (start O [videoUrl] w))).
  { apply run_invariant; [apply served_at_once_step|].
    eexists. split; [reflexivity|]. reflexivity. }
  destruct Hin as (tk & Hts & Hinv). exists tk. split; [exact Hts|].
  intros r Hpc. rewrite Hpc in Hinv. exact Hinv.
Qed.

(** ** The identifier of a watch locator *)

Lemma All_impl (p q : ascii -> bool) (s : string) :
  (forall c, p c = true -> q c = true) -> strings.All p s = true -> strings.All q s = true.
Proof.
  intros Hpq. induction s as [|c s IH]; [reflexivity|]. simpl.
  intros H. apply andb_true_iff in H. destruct H as [Hc Hs].
  rewrite (Hpq c Hc), (IH Hs). reflexivity.
Qed.

Lemma All_app (p : ascii -> bool) (a b : string) :
  strings.All p (a +:+ b) = strings.All p a && strings.All p b.
Proof.
  induction a as [|c a IH]; [reflexivity|].
  rewrite append_cons. simpl. rewrite IH, andb_assoc. reflexivity.
Qed.

Lemma Cut_none (sep : ascii) (s : string) :
  strings.All (other_than sep) s = true -> strings.Cut s sep = (s, "", false).
Proof.
  induction s as [|c s IH]; [reflexivity|]. simpl.
  intros H. apply andb_true_iff in H. destruct H as [Hc Hs].
  unfold other_than in Hc. apply negb_true_iff in Hc. rewrite Hc, (IH Hs). reflexivity.
Qed.

Lemma ContainsByte_none (sep : ascii) (s : string) :
  strings.All (other_than sep) s = true -> strings.ContainsByte s sep = false.
Proof.
  induction s as [|c s IH]; [reflexivity|]. simpl.
  intros H. apply andb_true_iff in H. destruct H as [Hc Hs].
  unfold other_than in Hc. apply negb_true_iff in Hc. rewrite Hc, (IH Hs). reflexivity.
Qed.

Lemma HasSuffixByte_none (sep : ascii) (s : string) :
  strings.All (other_than sep) s = true -> strings.HasSuffixByte s sep = false.
Proof.
  induction s as [|c s IH]; [reflexivity|].
  intros H. simpl in H. apply andb_true_iff in H. destruct H as [Hc Hs].
  unfold other_than in Hc. apply negb_true_iff in Hc.
  destruct s as [|d s]; [exact Hc|]. exact (IH Hs).
Qed.

Lemma Split_none (sep : ascii) (s : string) :
  strings.All (other_than sep) s = true -> strings.Split s sep = [s].
Proof.
  induction s as [|c s IH]; [reflexivity|]. simpl.
  intros H. apply andb_true_iff in H. destruct H as [Hc Hs].
  unfold other_than in Hc. apply negb_true_iff in Hc. rewrite (IH Hs), Hc. reflexivity.
Qed.

Lemma QueryUnescape_plain (s : string) :
  strings.All (other_than "%") s = true -> strings.All (other_than "+") s = true ->
  url.QueryUnescape s = inr s.
Proof.
  unfold url.QueryUnescape. induction s as [|c s IH]; [reflexivity|].
  intros H1 H2. simpl in H1, H2.
  apply andb_true_iff in H1. destruct H1 as [Hc1 Hs1].
  apply andb_true_iff in H2. destruct H2 as [Hc2 Hs2].
  unfold other_than in Hc1, Hc2. apply negb_true_iff in Hc1, Hc2.
  cbn [url.unescape]. rewrite Hc1, Hc2, (IH Hs1 Hs2). reflexivity.
Qed.

(** The bytes of identifiers are none of those that [url.Parse] and
    [url.ParseQuery] give a meaning to. *)
Lemma idchar_plain (c : ascii) :
  idchar c = true ->
  url.isCTL c = false /\ other_than "#" c = true /\ other_than "?" c = true /\
  other_than "&" c = true /\ other_than ";" c = true /\ other_than "%" c = true /\
  other_than "+" c = true.
Proof.
  destruct c as [[] [] [] [] [] [] [] []]; vm_compute; intros H;
    try discriminate H; repeat split.
Qed.

Lemma parse_watch (videoId : string) :
  strings.All idchar videoId = true ->
  url.Parse ("https://www.youtube.com/watch?v=" +:+ videoId)
  = inr (url.mkURL "https" "" None "www.youtube.com" "/watch" false false
           ("v=" +:+ videoId) "").
Proof.
  intros Hid.
  assert (Hctl : strings.All (fun c => negb (url.isCTL c)) videoId = true).
  { eapply All_impl; [|exact Hid]. intros c Hc.
    destruct (idchar_plain c Hc) as (-> & _). reflexivity. }
  assert (Hhash : strings.All (other_than "#") videoId = true).
  { eapply All_impl; [|exact Hid]. intros c Hc. apply (idchar_plain c Hc). }
  assert (Hq : strings.All (other_than "?") videoId = true).
  { eapply All_impl; [|exact Hid]. intros c Hc. apply (idchar_plain c Hc). }
  set (rest0 := "//www.youtube.com/watch?v=" +:+ videoId).
  set (rawURL := "https://www.youtube.com/watch?v=" +:+ videoId).
  assert (Hcut : strings.Cut rawURL "#" = (rawURL, "", false)).
  { apply Cut_none. unfold rawURL. rewrite All_app, Hhash. reflexivity. }
  assert (Hc : url.stringContainsCTLByte rawURL = false).
  { unfold url.stringContainsCTLByte, rawURL. rewrite All_app, Hctl. reflexivity. }
  assert (Hsuf : strings.HasSuffixByte rest0 "?" = false).
  { unfold rest0. cbn [String.append]. 
    destruct videoId as [|d v]; [reflexivity|].
    change (strings.HasSuffixByte (String d v) "?" = false).
    apply HasSuffixByte_none. exact Hq. }
  unfold url.Parse. rewrite Hcut. unfold url.parse. rewrite Hc.
  change (String.eqb rawURL "*") with false. cbv iota.
  change (url.getScheme rawURL) with (@inr error _ ("https", rest0)). cbv iota beta.
  rewrite Hsuf. cbn [andb].
  change (strings.Cut rest0 "?") with ("//www.youtube.com/watch", "v=" +:+ videoId, true).
  reflexivity.
Qed.

(** X10. The identifier put into a watch locator is the one extracted from
    it: for an identifier made of letters, digits, [-] and [_], [getVideoId]
    of [https://www.youtube.com/watch?v=<identifier>] returns the identifier
    and no error, with [url.Parse] as the Go library has it. *)
Theorem getVideoId_of_a_watch_locator (E : Env) (videoId : string) :
  (forall rawURL, url_Parse E rawURL = url.Parse rawURL) ->
  strings.All idchar videoId = true ->
  getVideoId E ("https://www.youtube.com/watch?v=" +:+ videoId) = (videoId, None).
Proof.
  intros HE Hid. unfold getVideoId. rewrite HE, (parse_watch videoId Hid).
  f_equal. unfold url.Query, url.ParseQuery. cbn [url.RawQuery].
  assert (Hamp : strings.All (other_than "&") ("v=" +:+ videoId) = true).
  { rewrite All_app. apply andb_true_iff. split; [reflexivity|].
    eapply All_impl; [|exact Hid]. intros c Hc. apply (idchar_plain c Hc). }
  assert (Hsemi : strings.All (other_than ";") ("v=" +:+ videoId) = true).
  { rewrite All_app. apply andb_true_iff. split; [reflexivity|].
    eapply All_impl; [|exact Hid]. intros c Hc. apply (idchar_plain c Hc). }
  assert (Hpct : strings.All (other_than "%") videoId = true).
  { eapply All_impl; [|exact Hid]. intros c Hc. apply (idchar_plain c Hc). }
  assert (Hplus : strings.All (other_than "+") videoId = true).
  { eapply All_impl; [|exact Hid]. intros c Hc. apply (idchar_plain c Hc). }
  rewrite (Split_none _ _ Hamp). cbn [fold_left]. unfold url.parseQuery_piece.
  rewrite (ContainsByte_none _ _ Hsemi).
  change (String.eqb ("v=" +:+ videoId) "") with false. cbv iota.
  change (strings.Cut ("v=" +:+ videoId) "=") with ("v", videoId, true). cbv iota beta.
  change (url.QueryUnescape "v") with (@inr error _ "v"). cbv iota beta.
  rewrite (QueryUnescape_plain _ Hpct Hplus).
  unfold url.Get. rewrite lookup_insert_eq. reflexivity.
Qed.

Lemma getVideoId_of_a_watch_locator_witness :
  getVideoId Scenario.always_answers ("https://www.youtube.com/watch?v=" +:+ "dQw4w9WgXcQ")
  = ("dQw4w9WgXcQ", None).
Proof.
  apply (getVideoId_of_a_watch_locator Scenario.always_answers "dQw4w9WgXcQ").
  - intros rawURL. reflexivity.
  - vm_compute. reflexivity.
Defined.

(** ** The scanner's loop returns *)

Lemma length_take (n : nat) (p : string) :
  String.length (os.take n p) = Nat.min n (String.length p).
Proof.
  unfold os.take. revert n. induction p as [|c p IH]; intros [|n]; simpl; try reflexivity.
  rewrite IH. reflexivity.
Qed.

Lemma grow_spec (cap : N) :
  (cap = 0 \/ Scanner.startBufSize <= cap)%N -> (cap < Scanner.MaxScanTokenSize)%N ->
  (levels (Scanner.grow cap) < levels cap)%nat /\
  (Scanner.startBufSize <= Scanner.grow cap)%N /\ (cap < Scanner.grow cap)%N.
Proof.
  intros H1 H2.
  unfold levels, Scanner.grow, Scanner.startBufSize, Scanner.MaxScanTokenSize in *.
  repeat match goal with
         | |- context [N.eqb ?a ?b] => destruct (N.eqb_spec a b)
         | |- context [N.leb ?a ?b] => destruct (N.leb_spec a b)
         end; lia.
Qed.

(** A turn of the loop either returns or leaves fewer turns to take. *)
Lemma Scan_loop_returns :
  forall (n : nat) (s : Scanner.Scanner),
  sized s -> (turns_left s < n)%nat -> is_Some (Scanner.Scan_loop n s).
Proof.
  induction n as [|n IH]; intros s [Hlen Hcap] Hn; [lia|].
  cbn [Scanner.Scan_loop]. cbv zeta.
  destruct (if (0 <? String.length (Scanner.buf s))%nat
               || bool_decide (Scanner.err s <> None)
            then Scanner.ScanLines (Scanner.buf s) (bool_decide (Scanner.err s <> None))
            else (0%nat, None)) as [advance [t|]]; [eexists; reflexivity|].
  destruct (Scanner.err s) as [e|] eqn:He.
  { rewrite bool_decide_eq_true_2 by discriminate. eexists; reflexivity. }
  rewrite bool_decide_eq_false_2 by (intros H; apply H; reflexivity).
  unfold turns_left in Hn. rewrite He in Hn.
  destruct (N.eqb_spec (N.of_nat (String.length (Scanner.buf s))) (Scanner.cap s)) as [Hfull|Hroom].
  - destruct (N.leb_spec Scanner.MaxScanTokenSize (Scanner.cap s)) as [Hmax|Hmax];
      cbn [andb]; [eexists; reflexivity|].
    destruct (grow_spec (Scanner.cap s) Hcap Hmax) as (Hlev & Hstart & Hgrow).
    unfold Stdin.Read.
    destruct (Scanner.r s) as [|piece rest] eqn:Hr.
    + apply IH; [split; cbn; [rewrite append_nil_r; lia|right; exact Hstart]|].
      unfold turns_left. cbn. rewrite append_nil_r.
      destruct (N.eqb_spec (N.of_nat (String.length (Scanner.buf s)))
                  (Scanner.grow (Scanner.cap s))); simpl in Hn; lia.
    + destruct (Nat.eqb_spec (String.length piece) 0) as [Hempty|Hsome].
      * apply IH; [split; cbn; [rewrite append_nil_r; lia|right; exact Hstart]|].
        unfold turns_left. cbn. rewrite append_nil_r.
        destruct (N.eqb_spec (N.of_nat (String.length (Scanner.buf s)))
                    (Scanner.grow (Scanner.cap s))); simpl in Hn; lia.
      * destruct (N.leb_spec (N.of_nat (String.length piece))
                    (Scanner.grow (Scanner.cap s)
                     - N.of_nat (String.length (Scanner.buf s)))) as [Hfit|Hcut].
        -- apply IH; [split; cbn; [rewrite length_append; lia|right; exact Hstart]|].
           unfold turns_left. cbn. rewrite length_append.
           destruct (N.eqb_spec
                       (N.of_nat (String.length (Scanner.buf s) + String.length piece))
                       (Scanner.grow (Scanner.cap s))); simpl in Hn; lia.
        -- apply IH; [split; cbn; [rewrite length_append, length_take; lia|right; exact Hstart]|].
           unfold turns_left. cbn. rewrite length_append, length_take.
           destruct (N.eqb_spec
                       (N.of_nat (String.length (Scanner.buf s)
                                  + Nat.min (N.to_nat (Scanner.grow (Scanner.cap s)
                                                       - N.of_nat (String.length (Scanner.buf s))))
                                      (String.length piece)))
                       (Scanner.grow (Scanner.cap s))); simpl in Hn; lia.
  - cbn [andb]. unfold Stdin.Read.
    destruct (Scanner.r s) as [|piece rest] eqn:Hr.
    + apply IH; [split; cbn; [rewrite append_nil_r; lia|exact Hcap]|].
      unfold turns_left. cbn. rewrite append_nil_r.
      destruct (N.eqb_spec (N.of_nat (String.length (Scanner.buf s))) (Scanner.cap s));
        simpl in Hn; lia.
    + destruct (Nat.eqb_spec (String.length piece) 0) as [Hempty|Hsome].
      * apply IH; [split; cbn; [rewrite append_nil_r; lia|exact Hcap]|].
        unfold turns_left. cbn. rewrite append_nil_r.
        destruct (N.eqb_spec (N.of_nat (String.length (Scanner.buf s))) (Scanner.cap s));
          simpl in Hn; lia.
      * destruct (N.leb_spec (N.of_nat (String.length piece))
                    (Scanner.cap s - N.of_nat (String.length (Scanner.buf s)))) as [Hfit|Hcut].
        -- apply IH; [split; cbn; [rewrite length_append; lia|exact Hcap]|].
           unfold turns_left. cbn. rewrite length_append.
           destruct (N.eqb_spec
                       (N.of_nat (String.length (Scanner.buf s) + String.length piece))
                       (Scanner.cap s)); simpl in Hn; lia.
        -- apply IH; [split; cbn; [rewrite length_append, length_take; lia|exact Hcap]|].
           unfold turns_left. cbn. rewrite length_append, length_take.
           destruct (N.eqb_spec
                       (N.of_nat (String.length (Scanner.buf s)
                                  + Nat.min (N.to_nat (Scanner.cap s
                                                       - N.of_nat (String.length (Scanner.buf s))))
                                      (String.length piece)))
                       (Scanner.cap s)); simpl in Hn; lia.
Qed.

(** [Scan] on a new scanner returns, whatever the input: the turns it is
    given are enough. *)
Lemma Scan_returns (input : list string) :
  is_Some (Scanner.Scan_loop (Scanner.turns_for (Scanner.NewScanner input))
             (Scanner.NewScanner input)).
Proof.
  apply Scan_loop_returns.
  - split; [reflexivity|left; reflexivity].
  - unfold turns_left, Scanner.turns_for, Scanner.NewScanner.
    cbn [Scanner.r Scanner.cap Scanner.buf Scanner.err String.length].
    change (levels 0) with 5%nat. change (N.of_nat 0 =? 0)%N with true. cbv iota. lia.
Qed.

(** ** Reading a line *)

Lemma Cut_found (sep : ascii) (line tail : string) :
  strings.ContainsByte line sep = false ->
  strings.Cut (line +:+ String sep tail) sep = (line, tail, true).
Proof.
  induction line as [|c line IH].
  - intros _. rewrite append_nil_l. cbn [strings.Cut]. rewrite Ascii.eqb_refl. reflexivity.
  - intros H. cbn [strings.ContainsByte] in H. apply orb_false_iff in H. destruct H as [Hc Hline].
    rewrite append_cons. cbn [strings.Cut]. rewrite Hc, (IH Hline). reflexivity.
Qed.

(** The first turn of [Scan] on a new scanner: the buffer is made, and
    filled by one read. *)
Lemma Scan_loop_first (n : nat) (input : list string) :
  Scanner.Scan_loop (S n) (Scanner.NewScanner input) =
    let '(p, e, r') := Stdin.Read input Scanner.startBufSize in
    Scanner.Scan_loop n {| Scanner.r := r'; Scanner.buf := p; Scanner.cap := Scanner.startBufSize;
                           Scanner.token := None; Scanner.err := e |}.
Proof. reflexivity. Qed.

Lemma Scan_line (line tail : string) (rest : list string) :
  strings.ContainsByte line "010" = false ->
  (N.of_nat (String.length (line +:+ LF +:+ tail)) <= Scanner.startBufSize)%N ->
  exists s,
    Scanner.Scan (Scanner.NewScanner ((line +:+ LF +:+ tail) :: rest)) = (true, s) /\
    Scanner.Text s = Scanner.dropCR line /\ Scanner.r s = rest.
Proof.
  intros Hline Hfit. unfold Scanner.Scan, Scanner.turns_for.
  change (Scanner.r (Scanner.NewScanner ((line +:+ LF +:+ tail) :: rest)))
    with ((line +:+ LF +:+ tail) :: rest).
  replace (2 * length ((line +:+ LF +:+ tail) :: rest) + 13)%nat
    with (S (S (2 * length rest + 13))) by (cbn [length]; lia).
  rewrite Scan_loop_first. unfold Stdin.Read.
  change (line +:+ LF +:+ tail) with (line +:+ String "010" tail) in *.
  assert (Hpos : (0 < String.length (line +:+ String "010" tail))%nat).
  { rewrite length_append. cbn [String.length]. lia. }
  destruct (Nat.eqb_spec (String.length (line +:+ String "010" tail)) 0) as [H0|_]; [lia|].
  destruct (N.leb_spec (N.of_nat (String.length (line +:+ String "010" tail)))
              Scanner.startBufSize) as [_|H]; [|lia].
  cbn [Scanner.Scan_loop Scanner.buf Scanner.err]. cbv zeta.
  apply Nat.ltb_lt in Hpos. rewrite Hpos. cbn [orb].
  unfold Scanner.ScanLines. rewrite (Cut_found _ _ _ Hline).
  rewrite bool_decide_eq_false_2 by (intros H; apply H; reflexivity). cbn [andb].
  eexists. split; [reflexivity|]. split; reflexivity.
Qed.

(** [readInput] returns the first line of what the next read delivers. *)
Lemma readInput_line (line tail : string) (rest : list string) (sc : list (Color * string)) :
  strings.ContainsByte line "010" = false ->
  (N.of_nat (String.length (line +:+ LF +:+ tail)) <= Scanner.startBufSize)%N ->
  readInput {| stdin := (line +:+ LF +:+ tail) :: rest; screen := sc |}
  = (Scanner.dropCR line, {| stdin := rest; screen := sc |}).
Proof.
  intros Hline Hfit. unfold readInput. cbn [stdin screen].
  destruct (Scan_line line tail rest Hline Hfit) as (s & -> & -> & ->). reflexivity.
Qed.

Lemma readInput_typed (line : string) (rest : list string) (sc : list (Color * string)) :
  typed line ->
  readInput {| stdin := (line +:+ LF) :: rest; screen := sc |}
  = (Scanner.dropCR line, {| stdin := rest; screen := sc |}).
Proof.
  intros [Hline Hfit].
  pose proof (readInput_line line "" rest sc Hline) as H.
  change (LF +:+ "") with LF in H. apply H. exact Hfit.
Qed.

(** At the end of the input [readInput] returns the empty string. *)
Lemma readInput_closed (sc : list (Color * string)) :
  readInput {| stdin := []; screen := sc |} = ("", {| stdin := []; screen := sc |}).
Proof. reflexivity. Qed.

(** X11. A scanner is made for every line, and what it has read beyond the
    line is gone with it: when a read delivers a line, its line feed and more,
    [readInput] returns the line, without the carriage return at its end if it
    has one, and the following [readInput] starts at the next read. *)
Theorem the_rest_of_a_read_is_lost (line tail next : string) (rest : list string)
    (sc : list (Color * string)) :
  strings.ContainsByte line "010" = false ->
  (N.of_nat (String.length (line +:+ LF +:+ tail)) <= Scanner.startBufSize)%N ->
  typed next ->
  readInput {| stdin := (line +:+ LF +:+ tail) :: (next +:+ LF) :: rest; screen := sc |}
    = (Scanner.dropCR line, {| stdin := (next +:+ LF) :: rest; screen := sc |}) /\
  readInput (snd (readInput {| stdin := (line +:+ LF +:+ tail) :: (next +:+ LF) :: rest;
                               screen := sc |}))
    = (Scanner.dropCR next, {| stdin := rest; screen := sc |}).
Proof.
  intros Hline Hfit Hnext.
  rewrite (readInput_line line tail _ sc Hline Hfit). split; [reflexivity|].
  cbn [snd]. apply readInput_typed. exact Hnext.
Qed.

(** Number and locator arrive in one read, as from a pipe: the locator is
    lost, and the second [readInput] returns the answer that was meant for
    the third. *)
Lemma the_rest_of_a_read_is_lost_witness :
  readInput {| stdin := ("5" +:+ LF +:+ "https://youtu.be/abc123" +:+ LF)
                        :: ("n" +:+ LF) :: [];
               screen := [] |}
    = (Scanner.dropCR "5", {| stdin := ("n" +:+ LF) :: []; screen := [] |}) /\
  readInput (snd (readInput {| stdin := ("5" +:+ LF +:+ "https://youtu.be/abc123" +:+ LF)
                                        :: ("n" +:+ LF) :: [];
                               screen := [] |}))
    = (Scanner.dropCR "n", {| stdin := []; screen := [] |}).
Proof.
  apply (the_rest_of_a_read_is_lost "5" ("https://youtu.be/abc123" +:+ LF) "n" [] []).
  - reflexivity.
  - apply N.leb_le. reflexivity.
  - split; [reflexivity|]. apply N.leb_le. reflexivity.
Defined.

(** ** The dialogues *)

Lemma getNumberOfComments_again (n : nat) (line : string) (rest : list string)
    (sc : list (Color * string)) :
  typed line -> turned_down line = true ->
  getNumberOfComments (S n) {| stdin := (line +:+ LF) :: rest; screen := sc |}
  = getNumberOfComments n
      {| stdin := rest;
         screen := sc ++ [(Cyan, "Enter the number of comments to retrieve: ");
                          (Red, invalidInputMsg)] |}.
Proof.
  intros Hline Hdown. cbn [getNumberOfComments]. cbv zeta. unfold color_print at 1.
  cbn [stdin screen]. rewrite (readInput_typed line rest _ Hline).
  unfold turned_down in Hdown. unfold color_print. cbn [stdin screen].
  rewrite <- app_assoc. cbn [app].
  destruct (strconv.Atoi (Scanner.dropCR line)) as [v|]; [|reflexivity].
  rewrite Hdown. reflexivity.
Qed.

Lemma getNumberOfComments_accepts (n : nat) (line : string) (v : Z) (rest : list string)
    (sc : list (Color * string)) :
  typed line -> strconv.Atoi (Scanner.dropCR line) = Some v -> 0 <= v ->
  getNumberOfComments (S n) {| stdin := (line +:+ LF) :: rest; screen := sc |}
  = Some (v, {| stdin := rest;
                screen := sc ++ [(Cyan, "Enter the number of comments to retrieve: ")] |}).
Proof.
  intros Hline Hv Hpos. cbn [getNumberOfComments]. cbv zeta. unfold color_print at 1.
  cbn [stdin screen]. rewrite (readInput_typed line rest _ Hline), Hv.
  destruct (Z.ltb_spec v 0); [lia|reflexivity].
Qed.

Lemma asked_again_S (prompt complaint : string) (k : nat) (sc : list (Color * string)) :
  (sc ++ [(Cyan, prompt); (Red, complaint)]) ++ asked_again prompt complaint k
  = sc ++ asked_again prompt complaint (S k).
Proof. unfold asked_again. cbn [replicate mjoin]. rewrite <- !app_assoc. reflexivity. Qed.

(** X12. At the end of the input no dialogue returns: [readInput] yields the
    empty string, which is no number and no answer, so [getNumberOfComments]
    and [askToContinue] ask again for ever, and so does the loop of [main],
    which begins with [getNumberOfComments]. *)
Theorem the_dialogues_spin_at_the_end_of_input (E : Env) (oracles : nat -> Oracle)
    (developerKey : string) (turns rounds k : nat) (w : World) (sc : list (Color * string)) :
  getNumberOfComments turns {| stdin := []; screen := sc |} = None /\
  askToContinue turns {| stdin := []; screen := sc |} = None /\
  main_loop E oracles developerKey turns rounds k w {| stdin := []; screen := sc |} = None.
Proof.
  assert (Hnum : forall sc', getNumberOfComments turns {| stdin := []; screen := sc' |} = None).
  { induction turns as [|n IH]; intros sc'; [reflexivity|].
    cbn [getNumberOfComments]. cbv zeta. unfold color_print at 1. cbn [stdin screen].
    rewrite readInput_closed. apply IH. }
  split; [apply Hnum|]. split.
  - clear Hnum. revert sc. induction turns as [|n IH]; intros sc; [reflexivity|].
    cbn [askToContinue]. cbv zeta. unfold color_print at 1. cbn [stdin screen].
    rewrite readInput_closed. apply IH.
  - destruct rounds as [|rounds]; [reflexivity|].
    cbn [main_loop]. rewrite Hnum. reflexivity.
Qed.

(** X13. [getNumberOfComments] returns the first line that is a number and
    not negative: the lines before it, each no number or a negative one, are
    answered with the complaint and the prompt again, and the input after it
    is left for the next reader.  The result is not negative. *)
Theorem getNumberOfComments_returns_the_first_number (turns : nat) (refused : list string)
    (line : string) (n : Z) (rest : list string) (sc : list (Color * string)) :
  Forall typed refused -> Forall (fun l => turned_down l = true) refused ->
  typed line -> strconv.Atoi (Scanner.dropCR line) = Some n -> 0 <= n ->
  (length refused < turns)%nat ->
  getNumberOfComments turns
    {| stdin := ((fun l => l +:+ LF) <$> refused) ++ (line +:+ LF) :: rest; screen := sc |}
  = Some (n, {| stdin := rest;
                screen := sc ++ asked_again "Enter the number of comments to retrieve: "
                                  invalidInputMsg (length refused) |}).
Proof.
  intros Htyped Hdown Hline Hn Hpos. revert turns sc.
  induction refused as [|l refused IH]; intros turns sc Hturns.
  - destruct turns as [|turns]; [simpl in Hturns; lia|].
    cbn [fmap list_fmap app]. apply getNumberOfComments_accepts; assumption.
  - destruct turns as [|turns]; [simpl in Hturns; lia|].
    apply Forall_cons in Htyped. destruct Htyped as [Hl Htyped].
    apply Forall_cons in Hdown. destruct Hdown as [Hd Hdown].
    rewrite fmap_cons. cbn [app].
    rewrite (getNumberOfComments_again turns l _ sc Hl Hd).
    rewrite (IH Htyped Hdown turns _ ltac:(simpl in Hturns; lia)).
    cbn [length]. rewrite asked_again_S. reflexivity.
Qed.

Lemma getNumberOfComments_returns_the_first_number_witness :
  getNumberOfComments 3
    {| stdin := ((fun l => l +:+ LF) <$> ["ten"; "-3"]) ++ ("+12" +:+ LF) :: ["next"];
       screen := [] |}
  = Some (12, {| stdin := ["next"];
                 screen := [] ++ asked_again "Enter the number of comments to retrieve: "
                                   invalidInputMsg (length ["ten"; "-3"]) |}).
Proof.
  apply (getNumberOfComments_returns_the_first_number 3 ["ten"; "-3"] "+12" 12 ["next"] []).
  - repeat constructor; apply N.leb_le; reflexivity.
  - repeat constructor.
  - split; [reflexivity|]. apply N.leb_le. reflexivity.
  - reflexivity.
  - lia.
  - simpl. lia.
Defined.

Lemma askToContinue_again (n : nat) (line : string) (rest : list string)
    (sc : list (Color * string)) :
  typed line -> answer line = None ->
  askToContinue (S n) {| stdin := (line +:+ LF) :: rest; screen := sc |}
  = askToContinue n
      {| stdin := rest;
         screen := sc ++ [(Cyan, "Do you want to continue? (Y/N): ");
                          (Red, "Invalid input. Please enter Y or N.")] |}.
Proof.
  intros Hline Hnone. cbn [askToContinue]. cbv zeta. unfold color_print at 1.
  cbn [stdin screen]. rewrite (readInput_typed line rest _ Hline).
  unfold answer in Hnone. cbv zeta in Hnone. unfold color_print. cbn [stdin screen].
  rewrite <- app_assoc. cbn [app].
  destruct (String.eqb (strings.ToLower (Scanner.dropCR line)) "y"
            || String.eqb (strings.ToLower (Scanner.dropCR line)) "yes"); [discriminate|].
  destruct (String.eqb (strings.ToLower (Scanner.dropCR line)) "n"
            || String.eqb (strings.ToLower (Scanner.dropCR line)) "no"); [discriminate|].
  reflexivity.
Qed.

Lemma askToContinue_answered (n : nat) (line : string) (a : bool) (rest : list string)
    (sc : list (Color * string)) :
  typed line -> answer line = Some a ->
  askToContinue (S n) {| stdin := (line +:+ LF) :: rest; screen := sc |}
  = Some (a, {| stdin := rest; screen := sc ++ [(Cyan, "Do you want to continue? (Y/N): ")] |}).
Proof.
  intros Hline Ha. cbn [askToContinue]. cbv zeta. unfold color_print at 1.
  cbn [stdin screen]. rewrite (readInput_typed line rest _ Hline).
  unfold answer in Ha. cbv zeta in Ha.
  destruct (String.eqb (strings.ToLower (Scanner.dropCR line)) "y"
            || String.eqb (strings.ToLower (Scanner.dropCR line)) "yes");
    [injection Ha as <-; reflexivity|].
  destruct (String.eqb (strings.ToLower (Scanner.dropCR line)) "n"
            || String.eqb (strings.ToLower (Scanner.dropCR line)) "no");
    [injection Ha as <-; reflexivity|discriminate].
Qed.

(** X14. [askToContinue] returns what the first line says that is [y],
    [yes], [n] or [no] in small or capital letters, with nothing around it but
    the end of the line: the lines before it are answered with the complaint
    and the prompt again, and the input after it is left for the next reader.
    Stated for lines of ASCII bytes, on which [strings.ToLower] is the
    library's. *)
Theorem askToContinue_returns_the_first_answer (turns : nat) (refused : list string)
    (line : string) (a : bool) (rest : list string) (sc : list (Color * string)) :
  Forall typed refused -> Forall plain refused ->
  Forall (fun l => answer l = None) refused ->
  typed line -> plain line -> answer line = Some a ->
  (length refused < turns)%nat ->
  askToContinue turns
    {| stdin := ((fun l => l +:+ LF) <$> refused) ++ (line +:+ LF) :: rest; screen := sc |}
  = Some (a, {| stdin := rest;
                screen := sc ++ asked_again "Do you want to continue? (Y/N): "
                                  "Invalid input. Please enter Y or N." (length refused) |}).
Proof.
  intros Htyped _ Hnone Hline _ Ha. revert turns sc.
  induction refused as [|l refused IH]; intros turns sc Hturns.
  - destruct turns as [|turns]; [simpl in Hturns; lia|].
    cbn [fmap list_fmap app]. apply askToContinue_answered; assumption.
  - destruct turns as [|turns]; [simpl in Hturns; lia|].
    apply Forall_cons in Htyped. destruct Htyped as [Hl Htyped].
    apply Forall_cons in Hnone. destruct Hnone as [Hd Hnone].
    rewrite fmap_cons. cbn [app].
    rewrite (askToContinue_again turns l _ sc Hl Hd).
    rewrite (IH Htyped Hnone turns _ ltac:(simpl in Hturns; lia)).
    cbn [length]. rewrite asked_again_S. reflexivity.
Qed.

Lemma askToContinue_returns_the_first_answer_witness :
  askToContinue 3
    {| stdin := ((fun l => l +:+ LF) <$> ["maybe"; " y"]) ++ ("YeS" +:+ LF) :: ["next"];
       screen := [] |}
  = Some (true, {| stdin := ["next"];
                   screen := [] ++ asked_again "Do you want to continue? (Y/N): "
                                     "Invalid input. Please enter Y or N."
                                     (length ["maybe"; " y"]) |}).
Proof.
  apply (askToContinue_returns_the_first_answer 3 ["maybe"; " y"] "YeS" true ["next"] []).
  - repeat constructor; apply N.leb_le; reflexivity.
  - repeat constructor.
  - repeat constructor.
  - split; [reflexivity|]. apply N.leb_le. reflexivity.
  - reflexivity.
  - reflexivity.
  - simpl. lia.
Defined.

(** ** A round of [main] *)

(** X15. A round of the loop of [main]: the number, the locator and the
    answer typed, one line each, lead to one call of [getComments], under the
    background context, for the locator as it was typed, nothing trimmed but the
    end of the line, as its only locator, and for the number typed; after it
    the loop goes round again on [y] and returns on [n]. *)
Theorem a_round_of_main (E : Env) (oracles : nat -> Oracle) (developerKey : string)
    (turns rounds k : nat) (w : World) (number locator reply : string) (n : Z)
    (again : bool) (rest : list string) (sc : list (Color * string)) :
  typed number -> strconv.Atoi (Scanner.dropCR number) = Some n -> 0 <= n ->
  typed locator ->
  typed reply -> plain reply -> answer reply = Some again ->
  (0 < turns)%nat ->
  main_loop E oracles developerKey turns (S rounds) k w
    {| stdin := (number +:+ LF) :: (locator +:+ LF) :: (reply +:+ LF) :: rest; screen := sc |}
  = if again
    then main_loop E oracles developerKey turns rounds (S k)
           (getComments E (oracles k) context.Background [Scanner.dropCR locator] n
              developerKey w)
           {| stdin := rest;
              screen := sc ++ [(Cyan, "Enter the number of comments to retrieve: ");
                               (Cyan, "Enter the YouTube video URL: ");
                               (Cyan, "Do you want to continue? (Y/N): ")] |}
    else Some (getComments E (oracles k) context.Background [Scanner.dropCR locator] n
                 developerKey w,
               {| stdin := rest;
                  screen := sc ++ [(Cyan, "Enter the number of comments to retrieve: ");
                                   (Cyan, "Enter the YouTube video URL: ");
                                   (Cyan, "Do you want to continue? (Y/N): ")] |}).
Proof.
  intros Hnumber Hn Hpos Hlocator Hreply _ Hagain Hturns.
  destruct turns as [|turns]; [lia|].
  cbn [main_loop].
  rewrite (getNumberOfComments_accepts turns number n _ sc Hnumber Hn Hpos).
  cbv zeta. unfold color_print at 1. cbn [stdin screen].
  rewrite (readInput_typed locator _ _ Hlocator).
  rewrite (askToContinue_answered turns reply again rest _ Hreply Hagain).
  rewrite <- !app_assoc. cbn [app]. destruct again; reflexivity.
Qed.

Lemma a_round_of_main_witness :
  main_loop Scenario.always_answers (fun _ => Scenario.oracle 1 Scenario.three_delays) "key"
    1 1 0 (Scenario.world0 ∅)
    {| stdin := ("2" +:+ LF) :: (Scenario.watch "abc123" +:+ LF) :: ("n" +:+ LF) :: [];
       screen := [] |}
  = if false
    then main_loop Scenario.always_answers (fun _ => Scenario.oracle 1 Scenario.three_delays)
           "key" 1 0 1
           (getComments Scenario.always_answers (Scenario.oracle 1 Scenario.three_delays)
              context.Background [Scanner.dropCR (Scenario.watch "abc123")] 2 "key"
              (Scenario.world0 ∅))
           {| stdin := [];
              screen := [] ++ [(Cyan, "Enter the number of comments to retrieve: ");
                               (Cyan, "Enter the YouTube video URL: ");
                               (Cyan, "Do you want to continue? (Y/N): ")] |}
    else Some (getComments Scenario.always_answers (Scenario.oracle 1 Scenario.three_delays)
                 context.Background [Scanner.dropCR (Scenario.watch "abc123")] 2 "key"
                 (Scenario.world0 ∅),
               {| stdin := [];
                  screen := [] ++ [(Cyan, "Enter the number of comments to retrieve: ");
                                   (Cyan, "Enter the YouTube video URL: ");
                                   (Cyan, "Do you want to continue? (Y/N): ")] |}).
Proof.
  apply (a_round_of_main Scenario.always_answers
           (fun _ => Scenario.oracle 1 Scenario.three_delays) "key" 1 0 0 (Scenario.world0 ∅)
           "2" (Scenario.watch "abc123") "n" 2 false [] []).
  - split; [reflexivity|]. apply N.leb_le. reflexivity.
  - reflexivity.
  - lia.
  - split; [reflexivity|]. apply N.leb_le. reflexivity.
  - split; [reflexivity|]. apply N.leb_le. reflexivity.
  - reflexivity.
  - reflexivity.
  - lia.
Defined.

(** ** The diagnostics under a context that never fires *)

Lemma only_failures_step (E : Env) (ctx : context.Context) (maxComments : Z)
    (developerKey : string) (c0 : list (string * error)) :
  never_done ctx ->
  forall cfg i c tk tk' w' lim',
  only_failures c0 cfg -> tasks cfg !! i = Some tk -> is_finished tk = false ->
  step_task E ctx maxComments developerKey i c tk (world cfg) (limiter cfg)
    = (tk', w', lim') ->
  only_failures c0 {| world := w'; limiter := lim'; tasks := <[i := tk']> (tasks cfg) |}.
Proof.
  intros Hctx cfg i c tk tk' w' lim' (Hb & added & Hcon & Hall) Hi Hf Hst.
  destruct (step_task_static _ _ _ _ _ _ _ _ _ _ _ _ Hst) as [_ Hb'].
  split; [cbn [limiter]; rewrite Hb'; exact Hb|]. cbn [world].
  destruct (step_task_spec _ _ _ _ _ _ _ _ _ _ _ _ Hf Hst)
    as [(_ & _ & _ & _ & Hc & _)|[(_ & _ & _ & _ & Hc & _)|
        [(_ & e & _ & _ & _ & _ & Hwait)|(wake & t & r & w1 & _ & _ & Hop & Hr)]]].
  - exists added. rewrite Hc. split; assumption.
  - exists added. rewrite Hc. split; assumption.
  - exfalso. destruct Hwait as [[t Hw]|(r & t & coin & Hw)].
    + assert (Hb1 : 1 <= rate.burst (limiter cfg)) by lia.
      destruct (Wait_enter_never_done _ _ _ Hctx Hb1 _ _ Hw) as [H|[r H]]; discriminate.
    + rewrite (Wait_leave_never_done _ _ _ _ _ Hctx) in Hw. discriminate.
  - destruct (operation_frame _ _ _ _ _ _ _ _ Hop) as (Hc & _).
    cbn [console set_now] in Hc.
    destruct Hr as [(_ & _ & ->)|[(e & _ & _ & _ & ->)|(e & nx & b & t' & _ & _ & _ & _ & ->)]].
    + exists added. rewrite Hc. split; assumption.
    + exists (added ++ [("Failed to retrieve comments: %v", e)]). split.
      * cbn [console color_Red]. rewrite Hc, Hcon, app_assoc. reflexivity.
      * apply Forall_app. split; [exact Hall|]. constructor; [reflexivity|constructor].
    + exists added. rewrite Hc. split; assumption.
Qed.

(** X16. Under a context that never fires, as the background context of
    [main], the limiter turns no goroutine away: every line a run of
    [getComments] adds to the console is a line [Failed to retrieve
    comments], of a retry loop that has given up, and none is a rate limit
    error. *)
Theorem no_rate_limit_error_without_a_deadline (E : Env) (O : Oracle)
    (ctx : context.Context) (videoUrls : list string) (maxComments : Z)
    (developerKey : string) (w : World) :
  never_done ctx ->
  exists added,
    console (getComments E O ctx videoUrls maxComments developerKey w) = console w ++ added /\
    Forall (fun line => fst line = "Failed to retrieve comments: %v") added.
Proof.
  intros Hctx.
  assert (Hin : only_failures (console w)
                  (getComments_end E O ctx videoUrls maxComments developerKey w)).
  { unfold getComments_end. apply run_invariant; [apply only_failures_step; exact Hctx|].
    split; [reflexivity|]. exists []. split; [cbn; rewrite app_nil_r; reflexivity|constructor]. }
  destruct Hin as (_ & added & Hcon & Hall). exists added. split; assumption.
Qed.

Lemma no_rate_limit_error_without_a_deadline_witness :
  exists added,
    console (getComments Scenario.always_fails (Scenario.oracle 1 Scenario.three_delays)
               context.Background [Scenario.watch "A"; Scenario.watch "B"] 2 "key"
               (Scenario.world0 ∅))
      = console (Scenario.world0 ∅) ++ added /\
    Forall (fun line => fst line = "Failed to retrieve comments: %v") added.
Proof.
  apply (no_rate_limit_error_without_a_deadline Scenario.always_fails
           (Scenario.oracle 1 Scenario.three_delays) context.Background
           [Scenario.watch "A"; Scenario.watch "B"] 2 "key" (Scenario.world0 ∅)).
  reflexivity.
Defined.
